(** * A model of [Vector<T>] and [RawMemory<T>] (vector.h, raw_memory.h)

    The two class templates are embedded function by function.  The model
    keeps what the C++ code manipulates:

    - a heap of raw buffers ([operator new] / [operator delete]); a buffer is
      a list of slots, a slot being either raw storage ([None]) or a live
      object of the element type ([Some x]);
    - a store of objects: a [RawMemory] object is a record
      [{buffer_; capacity_}]; a [Vector] object at address [a] consists of
      its member [data_] (the [RawMemory] object at [a]) and its member
      [size_];
    - exceptions: every computation ends normally ([Ret]), by a propagating
      exception ([Throw], with the state reached at that point), or has
      undefined behaviour ([Undef]: an out-of-range access, the use of a raw
      slot as an object, an invalid range, ...);
    - the element type [T] is a parameter: its constructors, assignments and
      destructor act on an abstract world [W] and may throw.

    Integer types: [size_t] is modelled by [nat] without wrap-around (no
    object count reaches 2^64); the [int] parameter of
    [Vector::UninitializedMoveOrCopy] is a 32-bit two's-complement integer
    and the conversion of a [size_t] or [ptrdiff_t] to it is written out
    ([to_int]). *)

From Stdlib Require Import ZArith Lia.
From stdpp Require Import base option list gmap fin_maps.


(** ** Outcomes and the state-and-exception monad *)

Inductive outcome (S A : Type) : Type :=
| Ret (a : A) (s : S)
| Throw (s : S)
| Undef.
Arguments Ret {S A} a s.
Arguments Throw {S A} s.
Arguments Undef {S A}.

Definition M (S A : Type) : Type := S -> outcome S A.

Definition ret {S A} (a : A) : M S A := fun s => Ret a s.

Definition bind {S A B} (m : M S A) (k : A -> M S B) : M S B :=
  fun s => match m s with
           | Ret a s' => k a s'
           | Throw s' => Throw s'
           | Undef => Undef
           end.

Definition throw {S A} : M S A := fun s => Throw s.

Definition undef {S A} : M S A := fun _ => Undef.

(** [try { m } catch (...) { h }] *)
Definition try_catch {S A} (m : M S A) (h : M S A) : M S A :=
  fun s => match m s with
           | Ret a s' => Ret a s'
           | Throw s' => h s'
           | Undef => Undef
           end.

(** Scope exit: [c] (a destructor, which does not throw) runs whether [m]
    returns or throws. *)
Definition finally {S A} (m : M S A) (c : M S unit) : M S A :=
  fun s => match m s with
           | Ret a s' => match c s' with
                         | Ret _ s'' => Ret a s''
                         | _ => Undef
                         end
           | Throw s' => match c s' with
                         | Ret _ s'' => Throw s''
                         | _ => Undef
                         end
           | Undef => Undef
           end.

Definition gets {S A} (f : S -> A) : M S A := fun s => Ret (f s) s.

Definition modify {S} (f : S -> S) : M S unit := fun s => Ret tt (f s).

Declare Scope cpp_scope.
Delimit Scope cpp_scope with cpp.
Notation "x <- m ;; k" := (bind m (fun x => k))
  (at level 100, m at next level, right associativity) : cpp_scope.
Notation "m ;; k" := (bind m (fun _ => k))
  (at level 100, right associativity) : cpp_scope.
Open Scope cpp_scope.

(** ** The element type and the allocator *)

(** What the templates are instantiated with.  Each operation of [T] takes
    the world and returns the new one; [None] or [false] stands for an
    exception leaving the operation. *)
Record Env (T W : Type) : Type := {
  (** [std::is_nothrow_move_constructible_v<T>] *)
  is_nothrow_move_constructible : bool;
  (** [std::is_copy_constructible_v<T>] *)
  is_copy_constructible : bool;
  (** [operator new(n * sizeof(T))], [n <> 0]: [false] is [std::bad_alloc] *)
  operator_new : nat -> W -> W * bool;
  (** [T()] *)
  value_init : W -> W * option T;
  (** [T(const T&)] *)
  copy_ctor : T -> W -> W * option T;
  (** [T(T&&)]: the new object, and the source as the constructor leaves it *)
  move_ctor : T -> W -> W * (option T * T);
  (** [dst = src]: success, and [dst] afterwards *)
  copy_asg : T -> T -> W -> W * (bool * T);
  (** [dst = std::move(src)]: success, [dst] and [src] afterwards *)
  move_asg : T -> T -> W -> W * (bool * T * T);
  (** [~T()], which does not throw *)
  dtor : T -> W -> W
}.
Arguments is_nothrow_move_constructible {T W} _.
Arguments is_copy_constructible {T W} _.
Arguments operator_new {T W} _ _ _.
Arguments value_init {T W} _ _.
Arguments copy_ctor {T W} _ _ _.
Arguments move_ctor {T W} _ _ _.
Arguments copy_asg {T W} _ _ _ _.
Arguments move_asg {T W} _ _ _ _.
Arguments dtor {T W} _ _ _.

(** ** Integer conversions *)

(** Conversion to [int] (32 bits, two's complement, modular). *)
Definition to_int (z : Z) : Z :=
  ((z + 2147483648) mod 4294967296 - 2147483648)%Z.

(** ** Memory *)

(** [T*]: a block ([None] for the null pointer) and an offset in slots. *)
Definition ptr : Type := option nat * nat.

Definition nullptr : option nat := None.

Definition ptr_add (p : ptr) (k : nat) : ptr := (p.1, p.2 + k).
Infix "+ₚ" := ptr_add (at level 50, left associativity).

Record hstate (T W : Type) : Type := HState {
  world : W;
  heap : gmap nat (list (option T))
}.
Arguments HState {T W} _ _.
Arguments world {T W} _.
Arguments heap {T W} _.

Record RawMemory : Type := mkRawMemory {
  buffer_ : option nat;
  capacity_ : nat
}.

Record state (T W : Type) : Type := State {
  mem : hstate T W;
  raw : gmap nat RawMemory;   (* the RawMemory objects, by address *)
  vsize : gmap nat nat         (* the member size_ of the Vector objects *)
}.
Arguments State {T W} _ _ _.
Arguments mem {T W} _.
Arguments raw {T W} _.
Arguments vsize {T W} _.

Section Model.
Context {T W : Type}.
Variable E : Env T W.

Abbreviation Mh := (M (hstate T W)).
Abbreviation Mo := (M (state T W)).

(** *** Slots *)

Definition slot_of (h : gmap nat (list (option T))) (p : ptr) : option (option T) :=
  match p.1 with
  | Some b => match h !! b with
              | Some buf => buf !! p.2
              | None => None
              end
  | None => None
  end.

Definition load_slot (p : ptr) : Mh (option T) :=
  fun s => match slot_of (heap s) p with
           | Some sl => Ret sl s
           | None => Undef
           end.

Definition store_slot (p : ptr) (v : option T) : Mh unit :=
  fun s => match p.1 with
           | Some b =>
               match heap s !! b with
               | Some buf =>
                   if decide (p.2 < length buf)
                   then Ret tt (HState (world s) (<[b := <[p.2 := v]> buf]> (heap s)))
                   else Undef
               | None => Undef
               end
           | None => Undef
           end.

(** Reading an object: the slot must hold one. *)
Definition read (p : ptr) : Mh T :=
  sl <- load_slot p ;;
  match sl with
  | Some x => ret x
  | None => undef
  end.

(** Running an operation of [T] on the world. *)
Definition on_world {A} (f : W -> W * A) : Mh A :=
  fun s => let r := f (world s) in Ret r.2 (HState r.1 (heap s)).

(** [new (p) T(args...)], the constructor given as a computation. *)
Definition construct_at (p : ptr) (ctor : W -> W * option T) : Mh unit :=
  _ <- load_slot p ;;
  r <- on_world ctor ;;
  match r with
  | Some x => store_slot p (Some x)
  | None => throw
  end.

(** [new (dst) T(src[0])] *)
Definition copy_construct_at (dst src : ptr) : Mh unit :=
  x <- read src ;;
  construct_at dst (copy_ctor E x).

(** [new (dst) T(std::move(src[0]))] *)
Definition move_construct_at (dst src : ptr) : Mh unit :=
  x <- read src ;;
  _ <- load_slot dst ;;
  r <- on_world (move_ctor E x) ;;
  store_slot src (Some r.2) ;;
  match r.1 with
  | Some y => store_slot dst (Some y)
  | None => throw
  end.

(** [dst[0] = src[0]] *)
Definition copy_assign_at (dst src : ptr) : Mh unit :=
  d <- read dst ;;
  x <- read src ;;
  r <- on_world (copy_asg E d x) ;;
  store_slot dst (Some r.2) ;;
  if r.1 then ret tt else throw.

(** [dst[0] = std::move(src[0])] *)
Definition move_assign_at (dst src : ptr) : Mh unit :=
  d <- read dst ;;
  x <- read src ;;
  r <- on_world (move_asg E d x) ;;
  store_slot src (Some r.2) ;;
  store_slot dst (Some r.1.2) ;;
  if r.1.1 then ret tt else throw.

(** [p->~T()] *)
Definition destroy_at (p : ptr) : Mh unit :=
  x <- read p ;;
  on_world (fun w => (dtor E x w, tt)) ;;
  store_slot p None.

(** *** The algorithms of <memory> and <algorithm> the code calls *)

Fixpoint destroy_n (first : ptr) (n : nat) : Mh unit :=
  match n with
  | 0 => ret tt
  | S k => destroy_at first ;; destroy_n (first +ₚ 1) k
  end.



Fixpoint uninitialized_copy_loop (first result : ptr) (i n : nat) : Mh unit :=
  match n with
  | 0 => ret tt
  | S k =>
      try_catch (copy_construct_at (result +ₚ i) (first +ₚ i))
                (destroy_n result i ;; throw) ;;
      uninitialized_copy_loop first result (S i) k
  end.

Definition uninitialized_copy_n (first : ptr) (n : nat) (result : ptr) : Mh unit :=
  uninitialized_copy_loop first result 0 n.

Fixpoint uninitialized_move_loop (first result : ptr) (i n : nat) : Mh unit :=
  match n with
  | 0 => ret tt
  | S k =>
      try_catch (move_construct_at (result +ₚ i) (first +ₚ i))
                (destroy_n result i ;; throw) ;;
      uninitialized_move_loop first result (S i) k
  end.

Definition uninitialized_move_n (first : ptr) (n : nat) (result : ptr) : Mh unit :=
  uninitialized_move_loop first result 0 n.

(** [std::copy_n(first, n, result)] *)
Fixpoint copy_n (first : ptr) (n : nat) (result : ptr) : Mh unit :=
  match n with
  | 0 => ret tt
  | S k => copy_assign_at result first ;; copy_n (first +ₚ 1) k (result +ₚ 1)
  end.

(** [std::move(first, first + n, d_first)], front to back *)
Fixpoint move_loop (first : ptr) (n : nat) (d_first : ptr) : Mh unit :=
  match n with
  | 0 => ret tt
  | S k => move_assign_at d_first first ;; move_loop (first +ₚ 1) k (d_first +ₚ 1)
  end.

(** [std::move(first, last, d_first)]: [[first, last)] must be a range *)
Definition std_move (first last d_first : ptr) : Mh unit :=
  if decide (first.1 = last.1 ∧ first.2 ≤ last.2)
  then move_loop first (last.2 - first.2) d_first
  else undef.

(** [std::move_backward]: the element at index [n - 1] first *)
Fixpoint move_backward_loop (first d_first : ptr) (n : nat) : Mh unit :=
  match n with
  | 0 => ret tt
  | S k => move_assign_at (d_first +ₚ k) (first +ₚ k) ;;
           move_backward_loop first d_first k
  end.

(** [std::move_backward(first, last, d_last)]: the destination range
    [[d_last - n, d_last)] must exist *)
Definition move_backward (first last d_last : ptr) : Mh unit :=
  if decide (first.1 = last.1 ∧ first.2 ≤ last.2 ∧ last.2 - first.2 ≤ d_last.2)
  then move_backward_loop first (d_last.1, d_last.2 - (last.2 - first.2))
                          (last.2 - first.2)
  else undef.

(** [operator new]: a fresh block of [n] raw slots, or [std::bad_alloc] *)
Definition new_block (n : nat) : Mh (option nat) :=
  ok <- on_world (operator_new E n) ;;
  if ok : bool
  then fun s => let b := fresh (dom (heap s)) in
                Ret (Some b) (HState (world s) (<[b := replicate n None]> (heap s)))
  else throw.

(** [operator delete]: a no-op on the null pointer *)
Definition delete_block (buf : option nat) : Mh unit :=
  match buf with
  | None => ret tt
  | Some b => fun s => match heap s !! b with
                       | Some _ => Ret tt (HState (world s) (delete b (heap s)))
                       | None => Undef
                       end
  end.

(** [p - k] on pointers: there is no pointer before the start of a buffer *)
Definition ptr_sub (p : ptr) (k : nat) : Mh ptr :=
  if decide (k ≤ p.2) then ret (p.1, p.2 - k) else undef.

(** [std::distance(first, last)] for [first] at the start of the buffer *)
Definition std_distance (first last : ptr) : Mh nat :=
  if decide (first.1 = last.1 ∧ first.2 ≤ last.2)
  then ret (last.2 - first.2)
  else undef.

(** *** The object store *)

Definition liftH {A} (m : Mh A) : Mo A :=
  fun s => match m (mem s) with
           | Ret a h => Ret a (State h (raw s) (vsize s))
           | Throw h => Throw (State h (raw s) (vsize s))
           | Undef => Undef
           end.

Definition get_buffer (o : nat) : Mo (option nat) :=
  fun s => match raw s !! o with
           | Some r => Ret (buffer_ r) s
           | None => Undef
           end.

Definition get_capacity (o : nat) : Mo nat :=
  fun s => match raw s !! o with
           | Some r => Ret (capacity_ r) s
           | None => Undef
           end.

Definition set_buffer (o : nat) (b : option nat) : Mo unit :=
  fun s => match raw s !! o with
           | Some r => Ret tt (State (mem s)
                                 (<[o := mkRawMemory b (capacity_ r)]> (raw s))
                                 (vsize s))
           | None => Undef
           end.

Definition set_capacity (o : nat) (c : nat) : Mo unit :=
  fun s => match raw s !! o with
           | Some r => Ret tt (State (mem s)
                                 (<[o := mkRawMemory (buffer_ r) c]> (raw s))
                                 (vsize s))
           | None => Undef
           end.

Definition get_size (o : nat) : Mo nat :=
  fun s => match vsize s !! o with
           | Some n => Ret n s
           | None => Undef
           end.

Definition set_size (o : nat) (n : nat) : Mo unit :=
  fun s => match vsize s !! o with
           | Some _ => Ret tt (State (mem s) (raw s) (<[o := n]> (vsize s)))
           | None => Undef
           end.

(** Storage for a local object: an address no object has. *)
Definition fresh_object : Mo nat :=
  gets (fun s => fresh (dom (raw s) ∪ dom (vsize s))).

(** [assert(c)] *)
Definition assert (c : Prop) `{Decision c} : Mo unit :=
  if decide c then ret tt else undef.

(** ** RawMemory (raw_memory.h) *)

(** [T* buffer_ = nullptr; size_t capacity_ = 0;] *)
Definition RawMemory_init (this : nat) : Mo unit :=
  modify (fun s => State (mem s) (<[this := mkRawMemory nullptr 0]> (raw s)) (vsize s)).

Definition Allocate (n : nat) : Mo (option nat) :=
  if decide (n ≠ 0) then liftH (new_block n) else ret nullptr.

Definition Deallocate (buf : option nat) : Mo unit :=
  liftH (delete_block buf).

(** [RawMemory(size_t capacity)] *)
Definition RawMemory_ctor (this : nat) (capacity : nat) : Mo unit :=
  buf <- Allocate capacity ;;
  modify (fun s => State (mem s) (<[this := mkRawMemory buf capacity]> (raw s)) (vsize s)).

Definition RawMemory_Swap (this other : nat) : Mo unit :=
  (* std::swap(buffer_, other.buffer_) *)
  tmp <- get_buffer this ;;
  b <- get_buffer other ;;
  set_buffer this b ;;
  set_buffer other tmp ;;
  (* std::swap(capacity_, other.capacity_) *)
  tmp <- get_capacity this ;;
  c <- get_capacity other ;;
  set_capacity this c ;;
  set_capacity other tmp.

(** [RawMemory(RawMemory&& other)] *)
Definition RawMemory_move_ctor (this other : nat) : Mo unit :=
  RawMemory_init this ;;
  RawMemory_Swap this other.

(** [operator=(RawMemory&& rhs)] *)
Definition RawMemory_move_assign (this rhs : nat) : Mo unit :=
  if decide (this ≠ rhs) then
    b <- get_buffer this ;;
    Deallocate b ;;
    (* buffer_ = std::exchange(rhs.buffer_, nullptr) *)
    old <- get_buffer rhs ;;
    set_buffer rhs nullptr ;;
    set_buffer this old ;;
    (* capacity_ = std::exchange(rhs.capacity_, 0) *)
    old <- get_capacity rhs ;;
    set_capacity rhs 0 ;;
    set_capacity this old
  else ret tt.

(** [operator+(size_t offset)] *)
Definition RawMemory_plus (this : nat) (offset : nat) : Mo ptr :=
  c <- get_capacity this ;;
  assert (offset ≤ c) ;;
  b <- get_buffer this ;;
  ret ((b, 0) +ₚ offset).

(** [operator[](size_t index)]: the reference is the address of the slot *)
Definition RawMemory_index (this : nat) (index : nat) : Mo ptr :=
  c <- get_capacity this ;;
  assert (index < c) ;;
  b <- get_buffer this ;;
  ret ((b, 0) +ₚ index).

Definition RawMemory_GetAddress (this : nat) : Mo ptr :=
  b <- get_buffer this ;;
  ret (b, 0).

Definition RawMemory_Capacity (this : nat) : Mo nat :=
  get_capacity this.

(** [~RawMemory()], after which the object is gone *)
Definition RawMemory_dtor (this : nat) : Mo unit :=
  b <- get_buffer this ;;
  Deallocate b ;;
  modify (fun s => State (mem s) (delete this (raw s)) (vsize s)).

(** [std::swap(a, b)] on [RawMemory]: move construction and two move
    assignments *)
Definition std_swap_RawMemory (a b : nat) : Mo unit :=
  tmp <- fresh_object ;;
  RawMemory_move_ctor tmp a ;;
  RawMemory_move_assign a b ;;
  RawMemory_move_assign b tmp ;;
  RawMemory_dtor tmp.

(** ** Vector (vector.h) *)

Definition Size (this : nat) : Mo nat := get_size this.

Definition Capacity (this : nat) : Mo nat := RawMemory_Capacity this.

(** [begin()], [cbegin()] *)
Definition begin (this : nat) : Mo ptr := RawMemory_GetAddress this.

(** [end()], [cend()] *)
Definition end_ (this : nat) : Mo ptr :=
  p <- RawMemory_GetAddress this ;;
  n <- get_size this ;;
  ret (p +ₚ n).

(** The members go when a constructor body throws or the object dies. *)
Definition destroy_members (this : nat) : Mo unit :=
  modify (fun s => State (mem s) (raw s) (delete this (vsize s))) ;;
  RawMemory_dtor this.

(** [Vector() = default] *)
Definition Vector_default (this : nat) : Mo unit :=
  RawMemory_init this ;;
  modify (fun s => State (mem s) (raw s) (<[this := 0]> (vsize s))).


(** [Vector(const Vector& other)] *)
Definition Vector_copy (this other : nat) : Mo unit :=
  n <- get_size other ;;
  RawMemory_ctor this n ;;
  modify (fun s => State (mem s) (raw s) (<[this := n]> (vsize s))) ;;
  try_catch
    (from <- RawMemory_GetAddress other ;;
     n <- get_size other ;;
     to <- RawMemory_GetAddress this ;;
     liftH (uninitialized_copy_n from n to))
    (destroy_members this ;; throw).

(** [Vector(Vector&& other)] *)
Definition Vector_move (this other : nat) : Mo unit :=
  Vector_default this ;;
  RawMemory_move_assign this other ;;
  (* size_ = std::exchange(other.size_, 0) *)
  old <- get_size other ;;
  set_size other 0 ;;
  set_size this old.

(** [~Vector()] *)
Definition Vector_dtor (this : nat) : Mo unit :=
  p <- RawMemory_GetAddress this ;;
  n <- get_size this ;;
  liftH (destroy_n p n) ;;
  destroy_members this.

Definition Swap (this other : nat) : Mo unit :=
  std_swap_RawMemory this other ;;
  (* std::swap(size_, other.size_) *)
  tmp <- get_size this ;;
  n <- get_size other ;;
  set_size this n ;;
  set_size other tmp.

(** [operator=(const Vector& rhs)] *)
Definition Vector_copy_assign (this rhs : nat) : Mo unit :=
  if decide (this ≠ rhs) then
    rn <- get_size rhs ;;
    c <- RawMemory_Capacity this ;;
    if decide (c < rn) then
      rhs_copy <- fresh_object ;;
      Vector_copy rhs_copy rhs ;;
      finally (Swap this rhs_copy) (Vector_dtor rhs_copy)
    else
      from <- RawMemory_GetAddress rhs ;;
      n <- get_size this ;;
      to <- RawMemory_GetAddress this ;;
      liftH (copy_n from (n `min` rn) to) ;;
      (if decide (rn < n) then
         liftH (destroy_n (to +ₚ rn) (n - rn))
       else
         liftH (uninitialized_copy_n (from +ₚ n) (rn - n) (to +ₚ n))) ;;
      set_size this rn
  else ret tt.

(** [operator=(Vector&& rhs)] *)
Definition Vector_move_assign (this rhs : nat) : Mo unit :=
  RawMemory_move_assign this rhs ;;
  (* size_ = std::exchange(rhs.size_, 0) *)
  old <- get_size rhs ;;
  set_size rhs 0 ;;
  set_size this old.

(** [int number_of_elements]: a count that is not positive transfers
    nothing *)
Definition UninitializedMoveOrCopy (from : ptr) (number_of_elements : Z) (to : ptr)
  : Mh unit :=
  if is_nothrow_move_constructible E || negb (is_copy_constructible E)
  then uninitialized_move_n from (Z.to_nat number_of_elements) to
  else uninitialized_copy_n from (Z.to_nat number_of_elements) to.

Definition Reserve (this : nat) (new_capacity : nat) : Mo unit :=
  c <- RawMemory_Capacity this ;;
  if decide (new_capacity ≤ c) then ret tt
  else
    new_data <- fresh_object ;;
    RawMemory_ctor new_data new_capacity ;;
    finally
      (from <- RawMemory_GetAddress this ;;
       n <- get_size this ;;
       to <- RawMemory_GetAddress new_data ;;
       liftH (UninitializedMoveOrCopy from (to_int (Z.of_nat n)) to) ;;
       liftH (destroy_n from n) ;;
       RawMemory_Swap this new_data)
      (RawMemory_dtor new_data).


Definition PopBack (this : nat) : Mo unit :=
  p <- RawMemory_GetAddress this ;;
  n <- get_size this ;;
  last <- liftH (ptr_sub (p +ₚ n) 1) ;;
  liftH (destroy_n last 1) ;;
  (* --size_ *)
  n <- get_size this ;;
  set_size this (n - 1).

(** [operator[](size_t index)], read *)
Definition at_ (this : nat) (index : nat) : Mo T :=
  n <- get_size this ;;
  assert (index < n) ;;
  p <- RawMemory_index this index ;;
  liftH (read p).

Definition EmplaceWithReallocation (this : nat) (pos : ptr)
    (ctor : W -> W * option T) : Mo unit :=
  b <- begin this ;;
  distance <- liftH (std_distance b pos) ;;
  n <- get_size this ;;
  new_data <- fresh_object ;;
  RawMemory_ctor new_data (if decide (n = 0) then 1 else n * 2) ;;
  finally
    (p <- RawMemory_plus new_data distance ;;
     liftH (construct_at p ctor) ;;
     try_catch
       (from <- begin this ;;
        to <- RawMemory_GetAddress new_data ;;
        liftH (UninitializedMoveOrCopy from (to_int (Z.of_nat distance)) to))
       (to <- RawMemory_GetAddress new_data ;;
        liftH (destroy_n (to +ₚ distance) 1) ;;
        throw) ;;
     try_catch
       (from <- begin this ;;
        n <- get_size this ;;
        to <- RawMemory_GetAddress new_data ;;
        liftH (UninitializedMoveOrCopy (from +ₚ distance)
                 (to_int (Z.of_nat n - Z.of_nat distance))
                 (to +ₚ distance +ₚ 1)))
       (to <- RawMemory_GetAddress new_data ;;
        liftH (destroy_n to (distance + 1)) ;;
        throw) ;;
     RawMemory_Swap this new_data ;;
     to <- RawMemory_GetAddress new_data ;;
     n <- get_size this ;;
     liftH (destroy_n to n))
    (RawMemory_dtor new_data).

Definition EmplaceWithoutReallocation (this : nat) (pos : ptr)
    (ctor : W -> W * option T) : Mo unit :=
  b <- begin this ;;
  distance <- liftH (std_distance b pos) ;;
  e <- end_ this ;;
  if decide (pos = e) then
    p <- RawMemory_GetAddress this ;;
    n <- get_size this ;;
    liftH (construct_at (p +ₚ n) ctor)
  else
    (* T tmp(args...) *)
    r <- liftH (on_world ctor) ;;
    match r with
    | None => throw
    | Some tmp =>
        try_catch
          (p <- RawMemory_GetAddress this ;;
           n <- get_size this ;;
           last <- liftH (ptr_sub (p +ₚ n) 1) ;;
           liftH (uninitialized_move_n last 1 (p +ₚ n)) ;;
           first <- RawMemory_plus this distance ;;
           e <- end_ this ;;
           e1 <- liftH (ptr_sub e 1) ;;
           liftH (move_backward first e1 e))
          (liftH (on_world (fun w => (dtor E tmp w, tt))) ;; throw) ;;
        (* data_[distance] = std::move(tmp), then tmp goes out of scope *)
        p <- RawMemory_index this distance ;;
        d <- liftH (read p) ;;
        a <- liftH (on_world (move_asg E d tmp)) ;;
        liftH (store_slot p (Some a.1.2)) ;;
        liftH (on_world (fun w => (dtor E a.2 w, tt))) ;;
        if a.1.1 then ret tt else throw
    end.

Definition Emplace (this : nat) (pos : ptr) (ctor : W -> W * option T) : Mo ptr :=
  b <- begin this ;;
  distance <- liftH (std_distance b pos) ;;
  n <- get_size this ;;
  c <- Capacity this ;;
  (if decide (n = c) then EmplaceWithReallocation this pos ctor
   else EmplaceWithoutReallocation this pos ctor) ;;
  (* ++size_ *)
  n <- get_size this ;;
  set_size this (n + 1) ;;
  b <- begin this ;;
  ret (b +ₚ distance).

(** [T(std::forward<V>(value))] for [V&&] bound to an lvalue or an rvalue
    of type [T] *)
Inductive forwarded : Type :=
| Lvalue (x : T)
| Rvalue (x : T).

Definition forward_ctor (v : forwarded) : W -> W * option T :=
  match v with
  | Lvalue x => copy_ctor E x
  | Rvalue x => fun w => let r := move_ctor E x w in (r.1, r.2.1)
  end.

(** [EmplaceBack(args...)]: the reference returned is the address of the
    new element *)
Definition EmplaceBack (this : nat) (ctor : W -> W * option T) : Mo ptr :=
  e <- end_ this ;;
  Emplace this e ctor.

Definition PushBack (this : nat) (value : forwarded) : Mo unit :=
  EmplaceBack this (forward_ctor value) ;;
  ret tt.

Definition Insert (this : nat) (pos : ptr) (value : forwarded) : Mo ptr :=
  Emplace this pos (forward_ctor value).

Definition Erase (this : nat) (pos : ptr) : Mo ptr :=
  b <- begin this ;;
  distance <- liftH (std_distance b pos) ;;
  b <- begin this ;;
  e <- end_ this ;;
  liftH (std_move (b +ₚ distance +ₚ 1) e (b +ₚ distance)) ;;
  PopBack this ;;
  b <- begin this ;;
  ret (b +ₚ distance).

End Model.

(** ** Sequences of calls *)

(** The value a forwarded argument carries. *)
Definition forwarded_value {T} (v : @forwarded T) : T :=
  match v with
  | Lvalue x => x
  | Rvalue x => x
  end.

(** [PushBack(v1); PushBack(v2); ...] *)
Fixpoint PushBack_all {T W} (E : Env T W) (this : nat) (vs : list (@forwarded T))
  : M (state T W) unit :=
  match vs with
  | [] => ret tt
  | v :: vs' => PushBack E this v ;; PushBack_all E this vs'
  end.

(** ** Specifications: weakest preconditions with an exceptional
    postcondition *)

(** [wpx u m s Q R]: from [s], if [m] returns [a] in [s'] then [Q a s'],
    if it throws in [s'] then [R s'], and if its behaviour is undefined then
    [u].  With [u := False] this is total correctness: the behaviour is
    defined. *)
Definition wpx {S A} (u : Prop) (m : M S A) (s : S)
    (Q : A -> S -> Prop) (R : S -> Prop) : Prop :=
  match m s with
  | Ret a s' => Q a s'
  | Throw s' => R s'
  | Undef => u
  end.

(** [m] never leaves by an exception. *)
Definition nothrow {S A} (m : M S A) : Prop :=
  forall s s', m s <> Throw s'.

(** ** Classes of element types *)

(** A regular element type ("side-effect free", such as [int]): nothing
    throws, and construction and assignment reproduce the value of their
    source.  Allocation succeeds. *)
Record Regular {T W} (E : Env T W) : Prop := {
  reg_new : forall n w, (operator_new E n w).2 = true;
  reg_value : forall w, (value_init E w).2 <> None;
  reg_copy : forall x w, (copy_ctor E x w).2 = Some x;
  reg_move : forall x w, (move_ctor E x w).2.1 = Some x;
  reg_copy_asg : forall d x w, (copy_asg E d x w).2 = (true, x);
  reg_move_asg : forall d x w, (move_asg E d x w).2.1 = (true, x)
}.

(** [is_nothrow_move_constructible] tells the truth. *)
Definition nothrow_move_sound {T W} (E : Env T W) : Prop :=
  is_nothrow_move_constructible E = true ->
  forall x w, (move_ctor E x w).2.1 <> None.

(** The transfer [UninitializedMoveOrCopy] chooses never loses an element:
    when it moves, the move constructor does not throw. *)
Definition transfer_safe {T W} (E : Env T W) : Prop :=
  is_nothrow_move_constructible E || negb (is_copy_constructible E) = true ->
  forall x w, (move_ctor E x w).2.1 <> None.

(** [y] is what copy or move construction makes of [x]. *)
Definition transferred {T W} (E : Env T W) (x y : T) : Prop :=
  (exists w, (copy_ctor E x w).2 = Some y) \/ (exists w, (move_ctor E x w).2.1 = Some y).

(** ** The representation invariant *)

(** [vec_rep s this b cap xs]: in [s], the vector at [this] owns the buffer
    [b] of [cap] slots; its [size_] is the length of [xs]; the first
    [size_] slots hold the objects [xs] and the other slots are raw. *)
Record vec_rep {T W} (s : state T W) (this : nat)
    (b : option nat) (cap : nat) (xs : list T) : Prop := {
  rep_raw : raw s !! this = Some (mkRawMemory b cap);
  rep_size : vsize s !! this = Some (length xs);
  rep_buf : match b with
            | Some a => heap (mem s) !! a
                        = Some ((Some <$> xs) ++ replicate (cap - length xs) None)
            | None => cap = 0
            end;
  rep_le : length xs <= cap
}.

(** The state with another world: what an exception that is rolled back
    leaves behind. *)
Definition with_world {T W} (w : W) (s : state T W) : state T W :=
  State (HState w (heap (mem s))) (raw s) (vsize s).

(** No object at [o]. *)
Definition unused {T W} (s : state T W) (o : nat) : Prop :=
  raw s !! o = None /\ vsize s !! o = None.

(** The copy constructor throws on some element of [xs]. *)
Definition copy_fails {T W} (E : Env T W) (xs : list T) : Prop :=
  exists x w, x ∈ xs /\ (copy_ctor E x w).2 = None.



(** [UninitializedMoveOrCopy] copies (rather than moves). *)
Definition copy_path {T W} (E : Env T W) : Prop :=
  is_nothrow_move_constructible E || negb (is_copy_constructible E) = false.

(** ** Concrete element types *)

(** [int]: nothing throws, every operation reproduces its source, a
    moved-from [int] keeps its value. *)
Definition int_env : Env Z unit := {|
  is_nothrow_move_constructible := true;
  is_copy_constructible := true;
  operator_new := fun _ w => (w, true);
  value_init := fun w => (w, Some 0%Z);
  copy_ctor := fun x w => (w, Some x);
  move_ctor := fun x w => (w, (Some x, x));
  copy_asg := fun _ x w => (w, (true, x));
  move_asg := fun _ x w => (w, (true, x, x));
  dtor := fun _ w => w
|}.

(** A copyable type whose move constructor may throw, so that
    reallocation copies.  Copying the value 13, or assigning from it,
    throws; the world counts the objects constructed and not destroyed. *)
Definition poison_env : Env Z Z := {|
  is_nothrow_move_constructible := false;
  is_copy_constructible := true;
  operator_new := fun _ w => (w, true);
  value_init := fun w => ((w + 1)%Z, Some 0%Z);
  copy_ctor := fun x w =>
    if (x =? 13)%Z then (w, None) else ((w + 1)%Z, Some x);
  move_ctor := fun x w => ((w + 1)%Z, (Some x, x));
  copy_asg := fun d x w =>
    if (x =? 13)%Z then (w, (false, d)) else (w, (true, x));
  move_asg := fun d x w =>
    if (x =? 13)%Z then (w, (false, d, x)) else (w, (true, x, x));
  dtor := fun _ w => (w - 1)%Z
|}.

(** The state with no object and an empty heap. *)
Definition empty_state {T W} (w : W) : state T W :=
  State (HState w ∅) ∅ ∅.

(** What [m] leaves behind, when it returns or throws. *)
Definition final_state {S A} (m : M S A) (s : S) : option S :=
  match m s with
  | Ret _ s' => Some s'
  | Throw s' => Some s'
  | Undef => None
  end.

(** A full vector of [int] at address 0: one element, capacity 1. *)
Definition full_int_vector : state Z unit :=
  State (HState tt {[1 := [Some 7%Z]]}) {[0 := mkRawMemory (Some 1) 1]} {[0 := 1]}.

(** A full vector at address 0 whose second element cannot be copied. *)
Definition full_poison_vector : state Z Z :=
  State (HState 2%Z {[1 := [Some 1%Z; Some 13%Z]]})
        {[0 := mkRawMemory (Some 1) 2]} {[0 := 2]}.

(** Two vectors of [int]: [[7]] at address 0 and [[1; 2]], of capacity 3,
    at address 1. *)
Definition two_int_vectors : state Z unit :=
  State (HState tt (<[2 := [Some 1%Z; Some 2%Z; None]]> {[1 := [Some 7%Z]]}))
        (<[1 := mkRawMemory (Some 2) 3]> {[0 := mkRawMemory (Some 1) 1]})
        (<[1 := 2]> {[0 := 1]}).

(** Capacities that doubling from an empty vector produces: 0 for no
    element, else the power of two with [cap / 2 < n <= cap]. *)
Definition doubling_capacity (n cap : nat) : Prop :=
  (n = 0 /\ cap = 0) \/ (exists k, cap = 2 ^ k /\ n <= cap /\ cap < 2 * n).

(** ** Vectors of 2^31 elements *)

(** 2^31, the first size that does not fit in [int] *)
Definition two31 : nat := Z.to_nat 2147483648.

(** A full vector of 2^31 [int]s, all 0, at address 0 *)
Definition huge_int_vector : state Z unit :=
  State (HState tt {[1 := replicate two31 (Some 0%Z)]})
        {[0 := mkRawMemory (Some 1) two31]} {[0 := two31]}.

(** A vector at address 0 holding [[7]], of capacity 2 *)
Definition room_poison_vector : state Z Z :=
  State (HState 1%Z {[1 := [Some 7%Z; None]]})
        {[0 := mkRawMemory (Some 1) 2]} {[0 := 1]}.

(** [huge_int_vector] once [Reserve(2^31 + 1)] has returned, with the new
    buffer at [b']: every slot of the new buffer is raw. *)
Definition reserved_huge (b' : nat) : state Z unit :=
  State (HState tt (<[b' := replicate (two31 + 1) None]>
                      (delete 1 {[1 := replicate two31 (Some 0%Z)]})))
        (<[0 := mkRawMemory (Some b') (two31 + 1)]> {[0 := mkRawMemory (Some 1) two31]})
        {[0 := two31]}.

(** [room_poison_vector] once an [Emplace] at [begin()] has thrown from the
    move assignment: two objects live, [size_] still 1. *)
Definition leaked_poison_vector : state Z Z :=
  State (HState 2%Z {[1 := [Some 7%Z; Some 7%Z]]})
        {[0 := mkRawMemory (Some 1) 2]} {[0 := 1]}.

(** Three vectors of the type of [poison_env]: [[7]] of capacity 2 at
    address 0, [[1; 13]] of capacity 2 at address 1 and [[9]] of capacity 1
    at address 2; four objects live. *)
Definition three_poison_vectors : state Z Z :=
  State (HState 4%Z (<[3 := [Some 9%Z]]> (<[2 := [Some 1%Z; Some 13%Z]]>
                       {[1 := [Some 7%Z; None]]})))
        (<[2 := mkRawMemory (Some 3) 1]> (<[1 := mkRawMemory (Some 2) 2]>
           {[0 := mkRawMemory (Some 1) 2]}))
        (<[2 := 1]> (<[1 := 2]> {[0 := 1]})).

(** * Proofs *)

(** ** Conversion to [int] *)

Lemma to_int_small z : (0 <= z < 2147483648)%Z -> to_int z = z.
Proof.
  intros Hz. unfold to_int. rewrite Z.mod_small by lia. lia.
Qed.

Lemma to_int_le z : (0 <= z)%Z -> (to_int z <= z)%Z.
Proof.
  intros Hz. unfold to_int.
  pose proof (Z.mod_le (z + 2147483648) 4294967296 ltac:(lia) ltac:(lia)). lia.
Qed.

Lemma to_int_nat_le n : Z.to_nat (to_int (Z.of_nat n)) <= n.
Proof. pose proof (to_int_le (Z.of_nat n) ltac:(lia)). lia. Qed.

(** ** Rules of the monad *)

Section Rules.
Variable u : Prop.
Context {S : Type}.
Implicit Types s : S.

Lemma wpx_ret {A} (a : A) s Q R : Q a s -> wpx u (ret a) s Q R.
Proof. done. Qed.

Lemma wpx_throw {A} s (Q : A -> S -> Prop) R : R s -> wpx u throw s Q R.
Proof. done. Qed.

Lemma wpx_bind {A B} (m : M S A) (k : A -> M S B) s Q R :
  wpx u m s (fun a s' => wpx u (k a) s' Q R) R -> wpx u (bind m k) s Q R.
Proof. unfold wpx, bind. by destruct (m s). Qed.

Lemma wpx_mono {A} (m : M S A) s (Q Q' : A -> S -> Prop) (R R' : S -> Prop) :
  wpx u m s Q R ->
  (forall a s', Q a s' -> Q' a s') ->
  (forall s', R s' -> R' s') ->
  wpx u m s Q' R'.
Proof. unfold wpx. destruct (m s); auto. Qed.

Lemma wpx_try_catch {A} (m h : M S A) s Q R :
  wpx u m s Q (fun s' => wpx u h s' Q R) -> wpx u (try_catch m h) s Q R.
Proof. unfold wpx, try_catch. by destruct (m s). Qed.

Lemma wpx_finally {A} (m : M S A) (c : M S unit) s Q R :
  wpx u m s (fun a s' => wpx u c s' (fun _ s'' => Q a s'') (fun _ => u))
            (fun s' => wpx u c s' (fun _ s'' => R s'') (fun _ => u)) ->
  wpx u (finally m c) s Q R.
Proof.
  unfold wpx, finally. destruct (m s) as [a s'|s'|]; [| |done];
    by destruct (c s').
Qed.

Lemma wpx_gets {A} (f : S -> A) s Q R : Q (f s) s -> wpx u (gets f) s Q R.
Proof. done. Qed.

Lemma wpx_modify (f : S -> S) s Q R : Q tt (f s) -> wpx u (modify f) s Q R.
Proof. done. Qed.

Lemma wpx_Ret {A} (m : M S A) s a s' (Q : A -> S -> Prop) R :
  m s = Ret a s' -> Q a s' -> wpx u m s Q R.
Proof. unfold wpx. by intros ->. Qed.

Lemma wpx_elim {A} (m : M S A) s Q R :
  wpx False m s Q R ->
  (exists a s', m s = Ret a s' /\ Q a s') \/ (exists s', m s = Throw s' /\ R s').
Proof. unfold wpx. destruct (m s); [left|right|done]; eauto. Qed.

Lemma wpx_returns {A} (m : M S A) s Q :
  wpx False m s Q (fun _ => False) -> exists a s', m s = Ret a s' /\ Q a s'.
Proof. intros H. destruct (wpx_elim _ _ _ _ H) as [?|(?&?&[])]. done. Qed.

Lemma wpx_Ret_inv {A} (m : M S A) s a s' Q R :
  wpx u m s Q R -> m s = Ret a s' -> Q a s'.
Proof. unfold wpx. intros H Hm. by rewrite Hm in H. Qed.

Lemma wpx_Throw_inv {A} (m : M S A) s s' Q R :
  wpx u m s Q R -> m s = Throw s' -> R s'.
Proof. unfold wpx. intros H Hm. by rewrite Hm in H. Qed.

Lemma wpx_defined {A} (m : M S A) s Q R :
  wpx False m s Q R -> m s <> Undef.
Proof. unfold wpx. by destruct (m s). Qed.

End Rules.

(** ** Running a sequence *)

Lemma run_bind {S A B} (m : M S A) (k : A -> M S B) s a s1 r :
  m s = Ret a s1 -> k a s1 = r -> bind m k s = r.
Proof. intros Hm Hk. unfold bind. by rewrite Hm. Qed.

Lemma run_bind_inv {S A B} (m : M S A) (k : A -> M S B) s b s' :
  bind m k s = Ret b s' -> exists a s1, m s = Ret a s1 /\ k a s1 = Ret b s'.
Proof. unfold bind. destruct (m s) as [a s1| |]; [eauto|done..]. Qed.

Lemma lookup_cons_S {A} (x : A) (l : list A) i : (x :: l) !! S i = l !! i.
Proof. reflexivity. Qed.

(** Taking one step of a computation. *)
Ltac wp_bind := eapply wpx_bind.

(** Lengths of the lists buffers are made of. *)
Ltac solve_len :=
  repeat first
    [ rewrite length_app | rewrite length_fmap | rewrite length_replicate
    | rewrite length_insert | rewrite length_take | rewrite length_drop
    | rewrite length_cons | progress simpl ];
  lia.

(** Appends associated to the right. *)
Ltac lnorm :=
  repeat first [ rewrite <- app_assoc | rewrite <- app_comm_cons
               | rewrite fmap_app | rewrite fmap_cons | progress cbn [app fmap list_fmap] ].
Ltac lnorm_in H :=
  repeat first [ rewrite <- app_assoc in H | rewrite <- app_comm_cons in H
               | rewrite fmap_app in H | rewrite fmap_cons in H
               | progress cbn [app fmap list_fmap] in H ].

(** Projections of states, without unfolding the program. *)
Ltac ssimpl :=
  unfold ptr_add;
  cbn [mem raw vsize heap world fst snd buffer_ capacity_].

(** ** Slots and operations on elements *)

Section Heap.
Variable u : Prop.
Context {T W : Type}.
Variable E : Env T W.
Implicit Types (w : W) (hp : gmap nat (list (option T))) (buf : list (option T)).

Lemma wpx_load_slot b i w hp buf sl Q R :
  hp !! b = Some buf -> buf !! i = Some sl ->
  Q sl (HState w hp) ->
  wpx u (load_slot (Some b, i)) (HState w hp) Q R.
Proof. intros Hb Hi HQ. unfold wpx, load_slot, slot_of. simpl. by rewrite Hb, Hi. Qed.

Lemma wpx_store_slot b i v w hp buf Q R :
  hp !! b = Some buf -> i < length buf ->
  Q tt (HState w (<[b := <[i := v]> buf]> hp)) ->
  wpx u (store_slot (Some b, i) v) (HState w hp) Q R.
Proof.
  intros Hb Hi HQ. unfold wpx, store_slot. simpl. rewrite Hb.
  by rewrite decide_True.
Qed.

Lemma wpx_read b i w hp buf x Q R :
  hp !! b = Some buf -> buf !! i = Some (Some x) ->
  Q x (HState w hp) ->
  wpx u (read (Some b, i)) (HState w hp) Q R.
Proof.
  intros Hb Hi HQ. unfold read. wp_bind.
  eapply wpx_load_slot; eauto.
Qed.

Lemma wpx_on_world {A} (f : W -> W * A) w hp Q R :
  Q (f w).2 (HState (f w).1 hp) ->
  wpx u (on_world f) (HState w hp) Q R.
Proof. done. Qed.

Lemma construct_at_spec b i ctor w hp buf Q R :
  hp !! b = Some buf -> i < length buf ->
  (forall x, (ctor w).2 = Some x ->
             Q tt (HState (ctor w).1 (<[b := <[i := Some x]> buf]> hp))) ->
  ((ctor w).2 = None -> R (HState (ctor w).1 hp)) ->
  wpx u (construct_at (Some b, i) ctor) (HState w hp) Q R.
Proof.
  intros Hb Hi HQ HR. unfold construct_at.
  destruct (lookup_lt_is_Some_2 buf i Hi) as [sl Hsl].
  wp_bind. eapply wpx_load_slot; eauto.
  wp_bind. apply wpx_on_world.
  destruct (ctor w).2 as [x|] eqn:Hc.
  - eapply wpx_store_slot; eauto.
  - apply wpx_throw. auto.
Qed.

Lemma copy_construct_at_spec b i b' j w hp sbuf dbuf x Q R :
  hp !! b = Some sbuf -> sbuf !! i = Some (Some x) ->
  hp !! b' = Some dbuf -> j < length dbuf ->
  (forall y, (copy_ctor E x w).2 = Some y ->
     Q tt (HState (copy_ctor E x w).1 (<[b' := <[j := Some y]> dbuf]> hp))) ->
  ((copy_ctor E x w).2 = None -> R (HState (copy_ctor E x w).1 hp)) ->
  wpx u (copy_construct_at E (Some b', j) (Some b, i)) (HState w hp) Q R.
Proof.
  intros Hb Hi Hb' Hj HQ HR. unfold copy_construct_at.
  wp_bind. eapply wpx_read; eauto.
  eapply construct_at_spec; eauto.
Qed.

Lemma destroy_at_spec b i w hp buf x Q R :
  hp !! b = Some buf -> buf !! i = Some (Some x) ->
  Q tt (HState (dtor E x w) (<[b := <[i := None]> buf]> hp)) ->
  wpx u (destroy_at E (Some b, i)) (HState w hp) Q R.
Proof.
  intros Hb Hi HQ. unfold destroy_at.
  wp_bind. eapply wpx_read; eauto.
  wp_bind. apply wpx_on_world. simpl.
  eapply wpx_store_slot; eauto. by eapply lookup_lt_Some.
Qed.

End Heap.

(** ** The algorithms *)

Section Algorithms.
Variable u : Prop.
Context {T W : Type}.
Variable E : Env T W.
Implicit Types (w : W) (hp : gmap nat (list (option T))) (buf : list (option T)).
Implicit Types (xs ys : list T).

Lemma insert_middle {A} (l1 l2 : list A) (x y : A) n :
  n = length l1 -> <[n := y]> (l1 ++ x :: l2) = l1 ++ y :: l2.
Proof.
  intros ->. rewrite insert_app_r_alt by lia.
  by replace (length l1 - length l1) with 0 by lia.
Qed.

Lemma lookup_middle {A} (l1 l2 : list A) (x : A) n :
  n = length l1 -> (l1 ++ x :: l2) !! n = Some x.
Proof. intros ->. by apply list_lookup_middle. Qed.

Lemma destroy_n_spec b xs :
  forall pre post o w hp Q R,
    hp !! b = Some (pre ++ (Some <$> xs) ++ post) ->
    o = length pre ->
    (forall w', Q tt (HState w' (<[b := pre ++ replicate (length xs) None ++ post]> hp))) ->
    wpx u (destroy_n E (Some b, o) (length xs)) (HState w hp) Q R.
Proof.
  induction xs as [|x xs IH]; intros pre post o w hp Q R Hb -> HQ; simpl.
  - apply wpx_ret. specialize (HQ w). simpl in HQ. by rewrite insert_id in HQ.
  - wp_bind. eapply destroy_at_spec; [done| |].
    { simpl. by apply lookup_middle. }
    simpl. rewrite insert_middle by done.
    unfold ptr_add; simpl.
    eapply (IH (pre ++ [None]) post); [| rewrite length_app; simpl; lia |].
    + rewrite lookup_insert_eq. by rewrite <- app_assoc.
    + intros w'. rewrite insert_insert_eq. specialize (HQ w').
      by rewrite <- app_assoc.
Qed.

(** One object destroyed. *)
Lemma destroy_1_spec b x pre post o w hp Q R :
  hp !! b = Some (pre ++ Some x :: post) ->
  o = length pre ->
  (forall w', Q tt (HState w' (<[b := pre ++ None :: post]> hp))) ->
  wpx u (destroy_n E (Some b, o) 1) (HState w hp) Q R.
Proof.
  intros Hb Ho HQ.
  eapply (destroy_n_spec b [x] pre post); eauto.
Qed.

(** [uninitialized_copy_n] between two buffers: either every object is
    copied, or the destination is raw again. *)
Lemma uninitialized_copy_loop_spec b b' fo to xs :
  forall spre spost dpre dpost done i w hp (Q : unit -> _ -> Prop) (R : _ -> Prop),
    b <> b' ->
    hp !! b = Some (spre ++ (Some <$> xs) ++ spost) ->
    length spre = fo + i ->
    hp !! b' = Some (dpre ++ (Some <$> done) ++ replicate (length xs) None ++ dpost) ->
    length dpre = to -> length done = i ->
    (forall w' ys, Forall2 (fun x y => exists w1, (copy_ctor E x w1).2 = Some y) xs ys ->
       Q tt (HState w' (<[b' := dpre ++ (Some <$> (done ++ ys)) ++ dpost]> hp))) ->
    (forall w', copy_fails E xs ->
       R (HState w' (<[b' := dpre ++ replicate (i + length xs) None ++ dpost]> hp))) ->
    wpx u (uninitialized_copy_loop E (Some b, fo) (Some b', to) i (length xs))
        (HState w hp) Q R.
Proof.
  induction xs as [|x xs IH];
    intros spre spost dpre dpost done i w hp Q R Hne Hb Hs Hb' Hd Hi HQ HR; simpl.
  - apply wpx_ret. specialize (HQ w [] ltac:(constructor)).
    rewrite app_nil_r in HQ. simpl in Hb'. by rewrite insert_id in HQ.
  - wp_bind. apply wpx_try_catch. unfold ptr_add; simpl.
    eapply copy_construct_at_spec; [exact Hb | | exact Hb' | | |].
    + apply lookup_middle. lia.
    + rewrite !length_app, length_fmap. simpl. lia.
    + intros y Hy.
      replace (dpre ++ (Some <$> done) ++ replicate (S (length xs)) None ++ dpost)
        with ((dpre ++ (Some <$> done)) ++ None :: replicate (length xs) None ++ dpost)
        by (by rewrite <- app_assoc).
      rewrite insert_middle by (rewrite length_app, length_fmap; lia).
      eapply (IH (spre ++ [Some x]) spost dpre dpost (done ++ [y]) (S i)); try done.
      * rewrite lookup_insert_ne by done. rewrite Hb. by rewrite <- app_assoc.
      * rewrite length_app. simpl. lia.
      * rewrite lookup_insert_eq. f_equal.
        rewrite fmap_app. simpl. by rewrite <- !app_assoc.
      * rewrite length_app. simpl. lia.
      * intros w' ys Hys. rewrite insert_insert_eq.
        specialize (HQ w' (y :: ys)). rewrite <- app_assoc. simpl. apply HQ.
        constructor; eauto.
      * intros w' (x0 & w0 & Hin & Hf). rewrite insert_insert_eq.
        replace (S i + length xs) with (i + S (length xs)) by lia.
        apply HR. exists x0, w0. split; [by right|done].
    + intros Hthrow. wp_bind.
      replace i with (length done) at 1 by done.
      eapply (destroy_n_spec b' done dpre); [exact Hb' | lia |].
      intros w'. apply wpx_throw.
      assert (Hcf : copy_fails E (x :: xs)) by (exists x, w; split; [by left|done]).
      specialize (HR w' Hcf). rewrite Hi.
      by rewrite replicate_add, <- app_assoc in HR.
Qed.

Lemma uninitialized_copy_n_spec b b' fo to xs spre spost dpre dpost w hp
    (Q : unit -> _ -> Prop) (R : _ -> Prop) :
  b <> b' ->
  hp !! b = Some (spre ++ (Some <$> xs) ++ spost) ->
  length spre = fo ->
  hp !! b' = Some (dpre ++ replicate (length xs) None ++ dpost) ->
  length dpre = to ->
  (forall w' ys, Forall2 (fun x y => exists w1, (copy_ctor E x w1).2 = Some y) xs ys ->
     Q tt (HState w' (<[b' := dpre ++ (Some <$> ys) ++ dpost]> hp))) ->
  (forall w', copy_fails E xs -> R (HState w' hp)) ->
  wpx u (uninitialized_copy_n E (Some b, fo) (length xs) (Some b', to))
      (HState w hp) Q R.
Proof.
  intros Hne Hb Hs Hb' Hd HQ HR. unfold uninitialized_copy_n.
  eapply (uninitialized_copy_loop_spec b b' fo to xs spre spost dpre dpost [] 0);
    try done; try lia.
  intros w'. simpl. rewrite insert_id by done. apply HR.
Qed.

Lemma move_construct_at_spec b i b' j w hp sbuf dbuf dbuf1 x Q R :
  hp !! b = Some sbuf -> sbuf !! i = Some (Some x) ->
  hp !! b' = Some dbuf -> j < length dbuf ->
  (<[b := <[i := Some (move_ctor E x w).2.2]> sbuf]> hp) !! b' = Some dbuf1 ->
  j < length dbuf1 ->
  (forall y, (move_ctor E x w).2.1 = Some y ->
     Q tt (HState (move_ctor E x w).1
             (<[b' := <[j := Some y]> dbuf1]>
                (<[b := <[i := Some (move_ctor E x w).2.2]> sbuf]> hp)))) ->
  ((move_ctor E x w).2.1 = None ->
     R (HState (move_ctor E x w).1
          (<[b := <[i := Some (move_ctor E x w).2.2]> sbuf]> hp))) ->
  wpx u (move_construct_at E (Some b', j) (Some b, i)) (HState w hp) Q R.
Proof.
  intros Hb Hi Hb' Hj Hb1 Hj1 HQ HR. unfold move_construct_at.
  wp_bind. eapply wpx_read; eauto.
  destruct (lookup_lt_is_Some_2 dbuf j Hj) as [sl Hsl].
  wp_bind. eapply wpx_load_slot; eauto.
  wp_bind. apply wpx_on_world. simpl.
  wp_bind. eapply wpx_store_slot; eauto. { by eapply lookup_lt_Some. }
  destruct (move_ctor E x w).2.1 as [y|] eqn:Hm.
  - eapply wpx_store_slot; eauto.
  - apply wpx_throw. auto.
Qed.

Lemma move_assign_at_spec b i b' j w hp sbuf dbuf dbuf1 x d Q R :
  hp !! b = Some sbuf -> sbuf !! i = Some (Some x) ->
  hp !! b' = Some dbuf -> dbuf !! j = Some (Some d) ->
  (<[b := <[i := Some (move_asg E d x w).2.2]> sbuf]> hp) !! b' = Some dbuf1 ->
  j < length dbuf1 ->
  ((move_asg E d x w).2.1.1 = true ->
     Q tt (HState (move_asg E d x w).1
             (<[b' := <[j := Some (move_asg E d x w).2.1.2]> dbuf1]>
                (<[b := <[i := Some (move_asg E d x w).2.2]> sbuf]> hp)))) ->
  ((move_asg E d x w).2.1.1 = false ->
     R (HState (move_asg E d x w).1
             (<[b' := <[j := Some (move_asg E d x w).2.1.2]> dbuf1]>
                (<[b := <[i := Some (move_asg E d x w).2.2]> sbuf]> hp)))) ->
  wpx u (move_assign_at E (Some b', j) (Some b, i)) (HState w hp) Q R.
Proof.
  intros Hb Hi Hb' Hj Hb1 Hj1 HQ HR. unfold move_assign_at.
  wp_bind. eapply wpx_read; eauto.
  wp_bind. eapply wpx_read; eauto.
  wp_bind. apply wpx_on_world. simpl.
  wp_bind. eapply wpx_store_slot; eauto. { by eapply lookup_lt_Some. }
  wp_bind. eapply wpx_store_slot; eauto.
  destruct (move_asg E d x w).2.1.1 eqn:Hm.
  - apply wpx_ret. auto.
  - apply wpx_throw. auto.
Qed.

Lemma copy_assign_at_spec b i b' j w hp sbuf dbuf x d Q R :
  hp !! b = Some sbuf -> sbuf !! i = Some (Some x) ->
  hp !! b' = Some dbuf -> dbuf !! j = Some (Some d) ->
  ((copy_asg E d x w).2.1 = true ->
     Q tt (HState (copy_asg E d x w).1
             (<[b' := <[j := Some (copy_asg E d x w).2.2]> dbuf]> hp))) ->
  ((copy_asg E d x w).2.1 = false ->
     R (HState (copy_asg E d x w).1
             (<[b' := <[j := Some (copy_asg E d x w).2.2]> dbuf]> hp))) ->
  wpx u (copy_assign_at E (Some b', j) (Some b, i)) (HState w hp) Q R.
Proof.
  intros Hb Hi Hb' Hj HQ HR. unfold copy_assign_at.
  wp_bind. eapply wpx_read; eauto.
  wp_bind. eapply wpx_read; eauto.
  wp_bind. apply wpx_on_world. simpl.
  wp_bind. eapply wpx_store_slot; eauto. { by eapply lookup_lt_Some. }
  destruct (copy_asg E d x w).2.1 eqn:Hm.
  - apply wpx_ret. auto.
  - apply wpx_throw. auto.
Qed.

Lemma insert2_absorb {A} (m : gmap nat A) b b' x y x' y' :
  b <> b' ->
  <[b' := y']> (<[b := x']> (<[b' := y]> (<[b := x]> m))) = <[b' := y']> (<[b := x']> m).
Proof.
  intros Hne. apply map_eq. intros k.
  destruct (decide (k = b')) as [->|]; [by rewrite !lookup_insert_eq|].
  destruct (decide (k = b)) as [->|]; by simplify_map_eq.
Qed.

(** [uninitialized_move_n] between two buffers, for a move constructor that
    does not throw: the sources stay alive, in the state the move
    constructor leaves them. *)
Lemma uninitialized_move_loop_spec b b' fo to xs :
  forall spre spost dpre dpost i w hp (Q : unit -> _ -> Prop) (R : _ -> Prop),
    b <> b' ->
    (forall x w, (move_ctor E x w).2.1 <> None) ->
    hp !! b = Some (spre ++ (Some <$> xs) ++ spost) ->
    length spre = fo + i ->
    hp !! b' = Some (dpre ++ replicate (length xs) None ++ dpost) ->
    length dpre = to + i ->
    (forall w' xs' ys, length xs' = length xs ->
       Forall2 (fun x y => exists w1, (move_ctor E x w1).2.1 = Some y) xs ys ->
       Q tt (HState w' (<[b' := dpre ++ (Some <$> ys) ++ dpost]>
                          (<[b := spre ++ (Some <$> xs') ++ spost]> hp)))) ->
    wpx u (uninitialized_move_loop E (Some b, fo) (Some b', to) i (length xs))
        (HState w hp) Q R.
Proof.
  induction xs as [|x xs IH];
    intros spre spost dpre dpost i w hp Q R Hne Hnt Hb Hs Hb' Hd HQ; simpl.
  - apply wpx_ret. specialize (HQ w [] [] eq_refl ltac:(constructor)).
    simpl in *. by rewrite !insert_id in HQ by (by rewrite ?insert_id).
  - simpl in Hb, Hb'.
    wp_bind. apply wpx_try_catch. unfold ptr_add; simpl.
    eapply move_construct_at_spec; [exact Hb | | exact Hb' | | | | |].
    + apply lookup_middle. lia.
    + solve_len.
    + by rewrite lookup_insert_ne.
    + solve_len.
    + intros y Hy.
      rewrite !insert_middle by lia.
      eapply (IH (spre ++ [Some (move_ctor E x w).2.2]) spost (dpre ++ [Some y]) dpost (S i)); try done.
      * rewrite lookup_insert_ne by done. rewrite lookup_insert_eq.
        by rewrite <- app_assoc.
      * rewrite length_app. simpl. lia.
      * rewrite lookup_insert_eq. by rewrite <- !app_assoc.
      * rewrite length_app. simpl. lia.
      * intros w' xs' ys Hlen Hys. rewrite insert2_absorb by done.
        specialize (HQ w' ((move_ctor E x w).2.2 :: xs') (y :: ys)).
        rewrite <- !app_assoc. simpl. apply HQ; [simpl; lia|].
        constructor; eauto.
    + intros Hthrow. by apply Hnt in Hthrow.
Qed.

Lemma Regular_transfer_safe : Regular E -> transfer_safe E.
Proof. intros HE _ x w. by rewrite (reg_move E HE). Qed.

Lemma Regular_transferred xs ys :
  Regular E -> Forall2 (transferred E) xs ys -> ys = xs.
Proof.
  intros HE H. induction H as [|x y xs ys Hxy _ IH]; [done|].
  f_equal; [|done].
  destruct Hxy as [[w Hw]|[w Hw]].
  - rewrite (reg_copy E HE) in Hw. congruence.
  - rewrite (reg_move E HE) in Hw. congruence.
Qed.

Lemma UninitializedMoveOrCopy_spec b b' fo to z xs spre spost dpre dpost w hp
    (Q : unit -> _ -> Prop) (R : _ -> Prop) :
  b <> b' ->
  transfer_safe E ->
  Z.to_nat z = length xs ->
  hp !! b = Some (spre ++ (Some <$> xs) ++ spost) ->
  length spre = fo ->
  hp !! b' = Some (dpre ++ replicate (length xs) None ++ dpost) ->
  length dpre = to ->
  (forall w' xs' ys, length xs' = length xs ->
     (copy_path E -> xs' = xs) ->
     Forall2 (transferred E) xs ys ->
     Q tt (HState w' (<[b' := dpre ++ (Some <$> ys) ++ dpost]>
                        (<[b := spre ++ (Some <$> xs') ++ spost]> hp)))) ->
  (copy_path E -> copy_fails E xs -> forall w', R (HState w' hp)) ->
  wpx u (UninitializedMoveOrCopy E (Some b, fo) z (Some b', to)) (HState w hp) Q R.
Proof.
  intros Hne Hsafe Hz Hb Hs Hb' Hd HQ HR. unfold UninitializedMoveOrCopy.
  rewrite Hz. unfold copy_path in *.
  destruct (is_nothrow_move_constructible E || negb (is_copy_constructible E)) eqn:Hc.
  - unfold uninitialized_move_n.
    eapply (uninitialized_move_loop_spec b b' fo to xs spre spost dpre dpost 0);
      try done; try lia.
    + by apply Hsafe.
    + intros w' xs' ys Hlen Hys. apply HQ; [done|done|].
      eapply Forall2_impl; [exact Hys|]. intros x y Hxy. by right.
  - eapply uninitialized_copy_n_spec; try done; [|intros; by apply HR].
    intros w' ys Hys. specialize (HQ w' xs ys eq_refl).
    rewrite (insert_id hp b) in HQ by done. apply HQ; [done|].
    eapply Forall2_impl; [exact Hys|]. intros x y Hxy. by left.
Qed.

(** A count that is not positive: nothing is read or written. *)
Lemma UninitializedMoveOrCopy_zero p z p' (h : hstate T W) (Q : unit -> _ -> Prop) R :
  Z.to_nat z = 0 -> Q tt h ->
  wpx u (UninitializedMoveOrCopy E p z p') h Q R.
Proof.
  intros Hz HQ. unfold UninitializedMoveOrCopy. rewrite Hz.
  by destruct (is_nothrow_move_constructible E || negb (is_copy_constructible E)).
Qed.

(** Where undefined behaviour is allowed for, [destroy_n] over slots of any
    kind: if it returns, the slots are raw. *)
Lemma destroy_n_partial b n :
  forall pre mid post o w hp (Q : unit -> _ -> Prop) (R : _ -> Prop),
    u ->
    hp !! b = Some (pre ++ mid ++ post) ->
    length mid = n ->
    o = length pre ->
    (forall w', Q tt (HState w' (<[b := pre ++ replicate n None ++ post]> hp))) ->
    wpx u (destroy_n E (Some b, o) n) (HState w hp) Q R.
Proof.
  induction n as [|n IH]; intros pre mid post o w hp Q R Hu Hb Hlen -> HQ.
  - destruct mid; [|done]. simpl. apply wpx_ret. specialize (HQ w).
    simpl in *. by rewrite insert_id in HQ.
  - destruct mid as [|sl mid]; [done|]. simpl in *.
    destruct sl as [x|].
    + wp_bind. eapply destroy_at_spec; [done| by apply lookup_middle |].
      rewrite insert_middle by done. unfold ptr_add; simpl.
      eapply (IH (pre ++ [None]) mid post); [done| | lia | solve_len |].
      * rewrite lookup_insert_eq. by rewrite <- app_assoc.
      * intros w'. rewrite insert_insert_eq. specialize (HQ w').
        by rewrite <- app_assoc.
    + unfold destroy_at, read, load_slot, slot_of, bind, wpx. simpl.
      rewrite Hb. by rewrite lookup_middle.
Qed.

Lemma insert_replicate_split {A} (x y : A) d m :
  d < m -> <[d := x]> (replicate m y) = replicate d y ++ x :: replicate (m - d - 1) y.
Proof.
  intros Hd. replace m with (d + S (m - d - 1)) at 1 by lia.
  rewrite replicate_add. simpl. apply insert_middle. by rewrite length_replicate.
Qed.

(** *** Within one buffer, for a regular element type *)

(** [std::move(p + 1, p + 1 + n, p)]: the elements move one slot down; the
    last source slot keeps a moved-from object. *)
Lemma move_loop_down_spec b xs :
  forall pre post d o w hp (Q : unit -> _ -> Prop) (R : _ -> Prop),
    Regular E ->
    hp !! b = Some (pre ++ Some d :: (Some <$> xs) ++ post) ->
    o = length pre ->
    (forall w' z, Q tt (HState w' (<[b := pre ++ (Some <$> xs) ++ Some z :: post]> hp))) ->
    wpx u (move_loop E (Some b, S o) (length xs) (Some b, o)) (HState w hp) Q R.
Proof.
  induction xs as [|x xs IH]; intros pre post d o w hp Q R HE Hb -> HQ; simpl.
  - apply wpx_ret. specialize (HQ w d). simpl in HQ. by rewrite insert_id in HQ.
  - simpl in Hb. wp_bind.
    pose proof (reg_move_asg E HE d x w) as Hr.
    eapply move_assign_at_spec; [exact Hb | | exact Hb | | | | |].
    + rewrite cons_middle, app_assoc. apply lookup_middle. solve_len.
    + by apply lookup_middle.
    + by rewrite lookup_insert_eq.
    + solve_len.
    + intros _. rewrite Hr. simpl. rewrite insert_insert_eq.
      rewrite (cons_middle (Some d)), app_assoc.
      rewrite insert_middle by solve_len.
      rewrite <- app_assoc. simpl. rewrite insert_middle by done.
      unfold ptr_add; simpl.
      replace (length pre + 1) with (S (length pre)) by lia.
      replace (S (length pre) + 1) with (S (S (length pre))) by lia.
      eapply (IH (pre ++ [Some x]) post (move_asg E d x w).2.2); [done| | solve_len |].
      * rewrite lookup_insert_eq. by rewrite <- app_assoc.
      * intros w' z. rewrite insert_insert_eq. specialize (HQ w' z).
        by rewrite <- app_assoc.
    + intros Hf. rewrite Hr in Hf. done.
Qed.

(** [std::move_backward(p, p + n, p + n + 1)]: the elements move one slot
    up; the first source slot keeps a moved-from object. *)
Lemma move_backward_loop_up_spec b xs :
  forall pre post d o w hp (Q : unit -> _ -> Prop) (R : _ -> Prop),
    Regular E ->
    hp !! b = Some (pre ++ (Some <$> xs) ++ Some d :: post) ->
    o = length pre ->
    (forall w' z, Q tt (HState w' (<[b := pre ++ Some z :: (Some <$> xs) ++ post]> hp))) ->
    wpx u (move_backward_loop E (Some b, o) (Some b, S o) (length xs)) (HState w hp) Q R.
Proof.
  induction xs as [|x xs IH] using rev_ind; intros pre post d o w hp Q R HE Hb -> HQ.
  - simpl. apply wpx_ret. specialize (HQ w d). simpl in *. by rewrite insert_id in HQ.
  - rewrite length_app. simpl. rewrite Nat.add_1_r. simpl.
    rewrite fmap_app in Hb. simpl in Hb.
    assert (Hb2 : hp !! b = Some ((pre ++ (Some <$> xs)) ++ Some x :: Some d :: post)).
    { rewrite Hb. by rewrite <- !app_assoc. }
    wp_bind.
    pose proof (reg_move_asg E HE d x w) as Hr.
    unfold ptr_add; simpl.
    eapply move_assign_at_spec; [exact Hb2 | | exact Hb2 | | | | |].
    + apply lookup_middle. solve_len.
    + rewrite (cons_middle (Some x)), app_assoc. apply lookup_middle. solve_len.
    + by rewrite lookup_insert_eq.
    + solve_len.
    + intros _. rewrite Hr. simpl. rewrite insert_insert_eq.
      rewrite insert_middle by solve_len.
      rewrite (cons_middle (Some _)), app_assoc.
      rewrite insert_middle by solve_len.
      eapply (IH pre (Some x :: post) (move_asg E d x w).2.2); [done| |done|].
      * rewrite lookup_insert_eq. by rewrite <- !app_assoc.
      * intros w' z. rewrite insert_insert_eq. specialize (HQ w' z).
        rewrite fmap_app in HQ. simpl in HQ.
        by rewrite <- !app_assoc in HQ.
    + intros Hf. rewrite Hr in Hf. done.
Qed.

(** [std::uninitialized_move_n(p, 1, p + 1)] *)
Lemma uninitialized_move_1_up_spec b x sl pre post o w hp
    (Q : unit -> _ -> Prop) (R : _ -> Prop) :
  Regular E ->
  hp !! b = Some (pre ++ Some x :: sl :: post) ->
  o = length pre ->
  (forall w' z, Q tt (HState w' (<[b := pre ++ Some z :: Some x :: post]> hp))) ->
  wpx u (uninitialized_move_n E (Some b, o) 1 (Some b, S o)) (HState w hp) Q R.
Proof.
  intros HE Hb -> HQ. unfold uninitialized_move_n. simpl.
  wp_bind. apply wpx_try_catch. unfold ptr_add; simpl.
  rewrite !Nat.add_0_r.
  pose proof (reg_move E HE x w) as Hr.
  eapply move_construct_at_spec; [exact Hb | | exact Hb | | | | |].
  - by apply lookup_middle.
  - solve_len.
  - by rewrite lookup_insert_eq.
  - solve_len.
  - intros y Hy. rewrite Hr in Hy. injection Hy as <-.
    apply wpx_ret. rewrite insert_insert_eq.
    rewrite insert_middle by done.
    rewrite (cons_middle (Some _)), app_assoc.
    rewrite insert_middle by solve_len.
    rewrite <- app_assoc. apply HQ.
  - intros Hf. rewrite Hr in Hf. done.
Qed.

(** [std::copy_n] between two buffers *)
Lemma copy_n_spec b b' xs :
  forall ds spre spost dpre dpost fo to w hp (Q : unit -> _ -> Prop) (R : _ -> Prop),
    Regular E ->
    b <> b' ->
    length ds = length xs ->
    hp !! b = Some (spre ++ (Some <$> xs) ++ spost) ->
    fo = length spre ->
    hp !! b' = Some (dpre ++ (Some <$> ds) ++ dpost) ->
    to = length dpre ->
    (forall w', Q tt (HState w' (<[b' := dpre ++ (Some <$> xs) ++ dpost]> hp))) ->
    wpx u (copy_n E (Some b, fo) (length xs) (Some b', to)) (HState w hp) Q R.
Proof.
  induction xs as [|x xs IH];
    intros ds spre spost dpre dpost fo to w hp Q R HE Hne Hlen Hb -> Hb' -> HQ.
  - destruct ds; [|done]. simpl. apply wpx_ret. specialize (HQ w).
    by rewrite insert_id in HQ.
  - destruct ds as [|d ds]; [done|]. simpl in *.
    wp_bind.
    pose proof (reg_copy_asg E HE d x w) as Hr.
    eapply copy_assign_at_spec; [exact Hb | | exact Hb' | | |].
    + by apply lookup_middle.
    + by apply lookup_middle.
    + intros _. rewrite Hr. simpl. rewrite insert_middle by done.
      unfold ptr_add; simpl.
      eapply (IH ds (spre ++ [Some x]) spost (dpre ++ [Some x]) dpost); try done.
      * lia.
      * rewrite lookup_insert_ne by done. rewrite Hb. by rewrite <- app_assoc.
      * solve_len.
      * rewrite lookup_insert_eq. by rewrite <- app_assoc.
      * solve_len.
      * intros w'. rewrite insert_insert_eq. specialize (HQ w').
        by rewrite <- app_assoc.
    + intros Hf. rewrite Hr in Hf. done.
Qed.

End Algorithms.

(** ** The object store and RawMemory *)

(** Equality of maps built from inserts and deletes, key by key. *)
Ltac map_ext :=
  apply map_eq; intros ?;
  repeat first [rewrite lookup_insert | rewrite lookup_delete];
  repeat case_decide; simplify_eq; try done; try congruence.

(** Looking an object or a block up in a store built from inserts. *)
Ltac lk :=
  simpl;
  repeat first [ rewrite lookup_insert_eq
               | rewrite lookup_insert_ne by congruence
               | rewrite lookup_delete_ne by congruence ];
  first [ done | eassumption | reflexivity ].

Section Objects.
Variable u : Prop.
Context {T W : Type}.
Variable E : Env T W.
Implicit Types (w : W) (hp : gmap nat (list (option T))).
Implicit Types (rw : gmap nat RawMemory) (vs : gmap nat nat).
Implicit Types (s : state T W) (h : hstate T W).

Lemma wpx_liftH {A} (m : M (hstate T W) A) s Q R :
  wpx u m (mem s) (fun a h => Q a (State h (raw s) (vsize s)))
                  (fun h => R (State h (raw s) (vsize s))) ->
  wpx u (liftH m) s Q R.
Proof. unfold wpx, liftH. by destruct (m (mem s)). Qed.

Lemma wpx_get_buffer o r s (Q : option nat -> _ -> Prop) R :
  raw s !! o = Some r -> Q (buffer_ r) s -> wpx u (get_buffer o) s Q R.
Proof. intros H HQ. unfold wpx, get_buffer. by rewrite H. Qed.

Lemma wpx_get_capacity o r s (Q : nat -> _ -> Prop) R :
  raw s !! o = Some r -> Q (capacity_ r) s -> wpx u (get_capacity o) s Q R.
Proof. intros H HQ. unfold wpx, get_capacity. by rewrite H. Qed.

Lemma wpx_set_buffer o r b s (Q : unit -> _ -> Prop) R :
  raw s !! o = Some r ->
  Q tt (State (mem s) (<[o := mkRawMemory b (capacity_ r)]> (raw s)) (vsize s)) ->
  wpx u (set_buffer o b) s Q R.
Proof. intros H HQ. unfold wpx, set_buffer. by rewrite H. Qed.

Lemma wpx_set_capacity o r c s (Q : unit -> _ -> Prop) R :
  raw s !! o = Some r ->
  Q tt (State (mem s) (<[o := mkRawMemory (buffer_ r) c]> (raw s)) (vsize s)) ->
  wpx u (set_capacity o c) s Q R.
Proof. intros H HQ. unfold wpx, set_capacity. by rewrite H. Qed.

Lemma wpx_get_size o n s (Q : nat -> _ -> Prop) R :
  vsize s !! o = Some n -> Q n s -> wpx u (get_size o) s Q R.
Proof. intros H HQ. unfold wpx, get_size. by rewrite H. Qed.

Lemma wpx_set_size o n k s (Q : unit -> _ -> Prop) R :
  vsize s !! o = Some k ->
  Q tt (State (mem s) (raw s) (<[o := n]> (vsize s))) ->
  wpx u (set_size o n) s Q R.
Proof. intros H HQ. unfold wpx, set_size. by rewrite H. Qed.

Lemma wpx_assert (c : Prop) `{Decision c} s (Q : unit -> state T W -> Prop) R :
  c -> Q tt s -> wpx u (assert c) s Q R.
Proof. intros Hc HQ. unfold assert. by rewrite decide_True. Qed.

Lemma wpx_fresh_object s (Q : nat -> _ -> Prop) R :
  (forall o, raw s !! o = None -> vsize s !! o = None -> Q o s) ->
  wpx u fresh_object s Q R.
Proof.
  intros HQ. apply wpx_gets.
  pose proof (is_fresh (dom (raw s) ∪ dom (vsize s))) as Hf.
  apply HQ; apply not_elem_of_dom; set_solver.
Qed.

Lemma Allocate_spec n w hp rw vs (Q : option nat -> _ -> Prop) R :
  (n = 0 -> Q None (State (HState w hp) rw vs)) ->
  (n <> 0 -> (operator_new E n w).2 = true ->
     forall b, hp !! b = None ->
       Q (Some b) (State (HState (operator_new E n w).1 (<[b := replicate n None]> hp)) rw vs)) ->
  (n <> 0 -> (operator_new E n w).2 = false ->
     R (State (HState (operator_new E n w).1 hp) rw vs)) ->
  wpx u (Allocate E n) (State (HState w hp) rw vs) Q R.
Proof.
  intros H0 Hok Hfail. unfold Allocate. case_decide as Hn.
  - apply wpx_liftH. simpl. unfold new_block. wp_bind. apply wpx_on_world.
    destruct (operator_new E n w).2 eqn:Hnew.
    + unfold wpx. simpl. apply Hok; [done..|].
      apply not_elem_of_dom, is_fresh.
    + apply wpx_throw. by apply Hfail.
  - apply wpx_ret. apply H0. lia.
Qed.

Lemma Deallocate_null w hp rw vs (Q : unit -> _ -> Prop) R :
  Q tt (State (HState w hp) rw vs) ->
  wpx u (Deallocate None) (State (HState w hp) rw vs) Q R.
Proof. intros HQ. by apply wpx_liftH. Qed.

Lemma Deallocate_block b buf w hp rw vs (Q : unit -> _ -> Prop) R :
  hp !! b = Some buf ->
  Q tt (State (HState w (delete b hp)) rw vs) ->
  wpx u (Deallocate (Some b)) (State (HState w hp) rw vs) Q R.
Proof.
  intros Hb HQ. apply wpx_liftH. unfold wpx, delete_block. simpl.
  by rewrite Hb.
Qed.

Lemma RawMemory_ctor_spec this n w hp rw vs (Q : unit -> _ -> Prop) R :
  (n = 0 -> Q tt (State (HState w hp) (<[this := mkRawMemory None 0]> rw) vs)) ->
  (n <> 0 -> (operator_new E n w).2 = true ->
     forall b, hp !! b = None ->
       Q tt (State (HState (operator_new E n w).1 (<[b := replicate n None]> hp))
               (<[this := mkRawMemory (Some b) n]> rw) vs)) ->
  (n <> 0 -> (operator_new E n w).2 = false ->
     R (State (HState (operator_new E n w).1 hp) rw vs)) ->
  wpx u (RawMemory_ctor E this n) (State (HState w hp) rw vs) Q R.
Proof.
  intros H0 Hok Hfail. unfold RawMemory_ctor. wp_bind.
  apply Allocate_spec.
  - intros ->. apply wpx_modify. simpl. by apply H0.
  - intros Hn Hnew b Hb. apply wpx_modify. simpl. by apply Hok.
  - done.
Qed.

Lemma RawMemory_GetAddress_spec this r s (Q : ptr -> _ -> Prop) R :
  raw s !! this = Some r -> Q (buffer_ r, 0) s ->
  wpx u (RawMemory_GetAddress this) s Q R.
Proof.
  intros Hr HQ. unfold RawMemory_GetAddress. wp_bind.
  eapply wpx_get_buffer; [done|]. by apply wpx_ret.
Qed.

Lemma RawMemory_plus_spec this offset r s (Q : ptr -> _ -> Prop) R :
  raw s !! this = Some r -> offset <= capacity_ r ->
  Q (buffer_ r, offset) s ->
  wpx u (RawMemory_plus this offset) s Q R.
Proof.
  intros Hr Hle HQ. unfold RawMemory_plus.
  wp_bind. eapply wpx_get_capacity; [done|].
  wp_bind. apply wpx_assert; [done|].
  wp_bind. eapply wpx_get_buffer; [done|]. by apply wpx_ret.
Qed.

Lemma RawMemory_index_spec this index r s (Q : ptr -> _ -> Prop) R :
  raw s !! this = Some r -> index < capacity_ r ->
  Q (buffer_ r, index) s ->
  wpx u (RawMemory_index this index) s Q R.
Proof.
  intros Hr Hle HQ. unfold RawMemory_index.
  wp_bind. eapply wpx_get_capacity; [done|].
  wp_bind. apply wpx_assert; [done|].
  wp_bind. eapply wpx_get_buffer; [done|]. by apply wpx_ret.
Qed.

Lemma RawMemory_Swap_spec this other r1 r2 h rw vs (Q : unit -> _ -> Prop) R :
  this <> other ->
  rw !! this = Some r1 -> rw !! other = Some r2 ->
  Q tt (State h (<[other := r1]> (<[this := r2]> rw)) vs) ->
  wpx u (RawMemory_Swap this other) (State h rw vs) Q R.
Proof.
  intros Hne H1 H2 HQ. unfold RawMemory_Swap.
  wp_bind. eapply wpx_get_buffer; [done|].
  wp_bind. eapply wpx_get_buffer; [done|].
  wp_bind. eapply wpx_set_buffer; [done|]. simpl.
  wp_bind. eapply wpx_set_buffer; [lk|]. simpl.
  wp_bind. eapply wpx_get_capacity; [lk|].
  wp_bind. eapply wpx_get_capacity; [lk|]. simpl.
  wp_bind. eapply wpx_set_capacity; [lk|].
  simpl.
  eapply wpx_set_capacity; [lk|].
  simpl. destruct r1, r2; simpl.
  match goal with |- Q _ (State _ ?m _) =>
    replace m with (<[other := mkRawMemory buffer_0 capacity_0]>
                      (<[this := mkRawMemory buffer_1 capacity_1]> rw))
  end; [done|]. map_ext.
Qed.

(** Move assignment between two objects; the buffer the target owned is
    released, its slots untouched. *)
Lemma RawMemory_move_assign_spec this rhs r1 r2 w hp rw vs (Q : unit -> _ -> Prop) R :
  this <> rhs ->
  rw !! this = Some r1 -> rw !! rhs = Some r2 ->
  (buffer_ r1 = None \/ exists b buf, buffer_ r1 = Some b /\ hp !! b = Some buf) ->
  Q tt (State (HState w (match buffer_ r1 with Some b => delete b hp | None => hp end))
          (<[this := r2]> (<[rhs := mkRawMemory None 0]> rw)) vs) ->
  wpx u (RawMemory_move_assign this rhs) (State (HState w hp) rw vs) Q R.
Proof.
  intros Hne H1 H2 Hbuf HQ. unfold RawMemory_move_assign.
  rewrite decide_True by done.
  wp_bind. eapply wpx_get_buffer; [done|].
  wp_bind.
  assert (Hcont : forall hp',
    hp' = match buffer_ r1 with Some b => delete b hp | None => hp end ->
    wpx u (old <- get_buffer rhs ;;
         set_buffer rhs nullptr ;;
         set_buffer this old ;;
         old0 <- get_capacity rhs ;;
         set_capacity rhs 0 ;;
         set_capacity this old0) (State (HState w hp') rw vs) Q R).
  { intros hp' ->.
    wp_bind. eapply wpx_get_buffer; [done|].
    wp_bind. eapply wpx_set_buffer; [done|]. simpl.
    wp_bind. eapply wpx_set_buffer; [lk|]. simpl.
    wp_bind. eapply wpx_get_capacity; [lk|].
    simpl.
    wp_bind. eapply wpx_set_capacity; [lk|].
    simpl.
    eapply wpx_set_capacity; [lk|].
    simpl. destruct r2; simpl.
    match goal with |- Q _ (State _ ?m _) =>
      replace m with (<[this := mkRawMemory buffer_0 capacity_0]>
                        (<[rhs := mkRawMemory None 0]> rw))
    end; [done|]. unfold nullptr. map_ext. }
  destruct Hbuf as [Hn|(b & buf & Hb & Hbuf)].
  - rewrite Hn in *. apply Deallocate_null. by apply Hcont.
  - rewrite Hb in *. eapply Deallocate_block; [done|]. by apply Hcont.
Qed.

Lemma RawMemory_move_assign_self this s (Q : unit -> _ -> Prop) R :
  Q tt s -> wpx u (RawMemory_move_assign this this) s Q R.
Proof.
  intros HQ. unfold RawMemory_move_assign. rewrite decide_False by auto.
  by apply wpx_ret.
Qed.

Lemma RawMemory_dtor_spec this r w hp rw vs (Q : unit -> _ -> Prop) R :
  rw !! this = Some r ->
  (buffer_ r = None \/ exists b buf, buffer_ r = Some b /\ hp !! b = Some buf) ->
  Q tt (State (HState w (match buffer_ r with Some b => delete b hp | None => hp end))
          (delete this rw) vs) ->
  wpx u (RawMemory_dtor this) (State (HState w hp) rw vs) Q R.
Proof.
  intros Hr Hbuf HQ. unfold RawMemory_dtor.
  wp_bind. eapply wpx_get_buffer; [done|].
  wp_bind.
  destruct Hbuf as [Hn|(b & buf & Hb & Hbuf)].
  - rewrite Hn in *. apply Deallocate_null. by apply wpx_modify.
  - rewrite Hb in *. eapply Deallocate_block; [done|]. by apply wpx_modify.
Qed.

End Objects.

(** ** Vector: observers, Swap and moves *)

Section VectorBasics.
Variable u : Prop.
Context {T W : Type}.
Variable E : Env T W.
Implicit Types (w : W) (hp : gmap nat (list (option T))).
Implicit Types (rw : gmap nat RawMemory) (vs : gmap nat nat).
Implicit Types (s : state T W) (h : hstate T W) (xs : list T).

Lemma vec_rep_null s this cap xs : vec_rep s this None cap xs -> cap = 0 /\ xs = [].
Proof.
  intros [_ _ Hc Hle]. split; [done|]. subst. destruct xs; [done|simpl in Hle; lia].
Qed.

Lemma Size_spec s this b cap xs :
  vec_rep s this b cap xs -> Size this s = Ret (length xs) s.
Proof. intros [_ Hs _ _]. unfold Size, get_size. by rewrite Hs. Qed.

Lemma Capacity_spec s this b cap xs :
  vec_rep s this b cap xs -> Capacity this s = Ret cap s.
Proof.
  intros [Hr _ _ _]. unfold Capacity, RawMemory_Capacity, get_capacity.
  by rewrite Hr.
Qed.

Lemma at_spec s this b cap xs i x :
  vec_rep s this b cap xs -> xs !! i = Some x -> at_ this i s = Ret x s.
Proof.
  intros [Hr Hs Hb Hle] Hi.
  pose proof (lookup_lt_Some _ _ _ Hi) as Hlt.
  destruct s as [[w hp] rw vs]; simpl in *.
  assert (Hwp : wpx False (at_ this i) (State (HState w hp) rw vs)
                  (fun a s' => a = x /\ s' = State (HState w hp) rw vs)
                  (fun _ => False)).
  { unfold at_.
    wp_bind. eapply wpx_get_size; [done|].
    wp_bind. apply wpx_assert; [done|].
    wp_bind. eapply RawMemory_index_spec; [done|simpl; lia|]. simpl.
    apply wpx_liftH. simpl.
    destruct b as [a|]; [|lia].
    eapply wpx_read; [done| |done].
    rewrite lookup_app_l by solve_len. by rewrite list_lookup_fmap, Hi. }
  apply wpx_returns in Hwp as (a & s' & -> & -> & ->). done.
Qed.

(** [std::swap] on the [data_] members of two vectors, which may be the
    same vector *)
Lemma std_swap_RawMemory_spec a b ra rb w hp rw vs (Q : unit -> _ -> Prop) R :
  rw !! a = Some ra -> rw !! b = Some rb ->
  Q tt (State (HState w hp) (<[b := ra]> (<[a := rb]> rw)) vs) ->
  wpx u (std_swap_RawMemory a b) (State (HState w hp) rw vs) Q R.
Proof.
  intros Ha Hb HQ. unfold std_swap_RawMemory.
  wp_bind. apply wpx_fresh_object. simpl. intros tmp Htmp _.
  assert (tmp <> a) by congruence. assert (tmp <> b) by congruence.
  wp_bind. unfold RawMemory_move_ctor.
  wp_bind. apply wpx_modify. simpl.
  eapply RawMemory_Swap_spec; [done|lk|lk|].
  destruct (decide (a = b)) as [->|Hab].
  - assert (ra = rb) by congruence. subst rb.
    wp_bind. apply RawMemory_move_assign_self.
    wp_bind. eapply RawMemory_move_assign_spec; [congruence|lk|lk|by left|]. simpl.
    eapply RawMemory_dtor_spec; [lk|by left|]. simpl.
    match goal with |- Q _ (State _ ?m _) =>
      replace m with (<[b := ra]> (<[b := ra]> rw)) end; [done|].
    map_ext.
  - wp_bind. eapply RawMemory_move_assign_spec; [done|lk|lk|by left|]. simpl.
    wp_bind. eapply RawMemory_move_assign_spec; [congruence|lk|lk|by left|]. simpl.
    eapply RawMemory_dtor_spec; [lk|by left|]. simpl.
    match goal with |- Q _ (State _ ?m _) =>
      replace m with (<[b := ra]> (<[a := rb]> rw)) end; [done|].
    map_ext.
Qed.

Lemma Swap_spec a b ra rb na nb w hp rw vs (Q : unit -> _ -> Prop) R :
  rw !! a = Some ra -> rw !! b = Some rb ->
  vs !! a = Some na -> vs !! b = Some nb ->
  Q tt (State (HState w hp) (<[b := ra]> (<[a := rb]> rw)) (<[b := na]> (<[a := nb]> vs))) ->
  wpx u (Swap a b) (State (HState w hp) rw vs) Q R.
Proof.
  intros Ha Hb Hna Hnb HQ. unfold Swap.
  wp_bind. eapply std_swap_RawMemory_spec; [done..|].
  wp_bind. eapply wpx_get_size; [done|].
  wp_bind. eapply wpx_get_size; [done|].
  wp_bind. eapply wpx_set_size; [done|]. simpl.
  eapply wpx_set_size.
  { simpl. destruct (decide (a = b)) as [->|]; lk. }
  done.
Qed.

Lemma end_spec s this b cap xs :
  vec_rep s this b cap xs -> end_ this s = Ret (b, length xs) s.
Proof.
  intros [Hr Hs _ _]. unfold end_, RawMemory_GetAddress, bind, get_buffer, get_size, ret.
  by rewrite Hr, Hs.
Qed.

Lemma begin_spec s this b cap xs :
  vec_rep s this b cap xs -> begin this s = Ret (b, 0) s.
Proof.
  intros [Hr Hs _ _]. unfold begin, RawMemory_GetAddress, bind, get_buffer, ret.
  by rewrite Hr.
Qed.

Lemma sound_transfer_safe :
  nothrow_move_sound E ->
  is_nothrow_move_constructible E || is_copy_constructible E = true ->
  transfer_safe E.
Proof.
  intros Hs Hc Hm. apply Hs.
  destruct (is_nothrow_move_constructible E), (is_copy_constructible E); done.
Qed.

Lemma vec_rep_with_world s this b cap xs w :
  vec_rep s this b cap xs -> vec_rep (with_world w s) this b cap xs.
Proof. intros [? ? ? ?]. by split. Qed.

End VectorBasics.

(** ** Insertion with reallocation *)

Section Emplace.
Variable u : Prop.
Context {T W : Type}.
Variable E : Env T W.
Implicit Types (w : W) (hp : gmap nat (list (option T))).
Implicit Types (rw : gmap nat RawMemory) (vs : gmap nat nat).
Implicit Types (s : state T W) (h : hstate T W) (xs : list T).

(** The reallocation path on a full vector holding [xs].  [k1] and [k2]
    are the numbers of elements the two transfers are asked for once the
    counts have gone through [int].  Either the call throws and leaves
    everything but the world as it was, or the vector owns a new buffer
    with the new element at [d], [k1] elements transferred before it and
    [k2] after it, and the old buffer has been released.  Undefined
    behaviour is possible only when the first count was truncated and a
    later copy throws. *)
Lemma EmplaceWithReallocation_spec this b xs d ctor w hp rw vs
    (Q : unit -> _ -> Prop) R :
  let n := length xs in
  let newcap := if decide (n = 0) then 1 else n * 2 in
  let k1 := Z.to_nat (to_int (Z.of_nat d)) in
  let k2 := Z.to_nat (to_int (Z.of_nat n - Z.of_nat d)) in
  vec_rep (State (HState w hp) rw vs) this b n xs ->
  d <= n ->
  transfer_safe E ->
  (k1 <> d -> copy_path E -> u) ->
  (forall w' b' v ys1 ys2,
      hp !! b' = None ->
      (exists w1, (ctor w1).2 = Some v) ->
      Forall2 (transferred E) (take k1 xs) ys1 ->
      Forall2 (transferred E) (take k2 (drop d xs)) ys2 ->
      Q tt (State (HState w'
                     (<[b' := (Some <$> ys1) ++ replicate (d - k1) None ++
                              Some v :: (Some <$> ys2) ++
                              replicate (newcap - d - 1 - k2) None]>
                        (match b with Some a => delete a hp | None => hp end)))
              (<[this := mkRawMemory (Some b') newcap]> rw) vs)) ->
  (forall w',
      (operator_new E newcap w).2 = false \/ (exists w1, (ctor w1).2 = None) \/
      (copy_path E /\ copy_fails E xs) ->
      R (State (HState w' hp) rw vs)) ->
  wpx u (EmplaceWithReallocation E this (b, d) ctor) (State (HState w hp) rw vs) Q R.
Proof.
  intros n newcap k1 k2 Hrep Hd Hsafe Hu HQ HR.
  pose proof Hrep as [Hr Hs Hb Hle]. simpl in *.
  assert (Hk1 : k1 <= d) by apply to_int_nat_le.
  assert (Hk2 : k2 <= n - d).
  { unfold k2. pose proof (to_int_le (Z.of_nat n - Z.of_nat d) ltac:(lia)). lia. }
  assert (Hnc : n < newcap) by (unfold newcap; case_decide; lia).
  unfold EmplaceWithReallocation.
  wp_bind. unfold begin. eapply RawMemory_GetAddress_spec; [lk|]. ssimpl.
  wp_bind. apply wpx_liftH. unfold std_distance. ssimpl.
  rewrite decide_True by (split; [done|lia]). apply wpx_ret. ssimpl.
  rewrite Nat.sub_0_r.
  wp_bind. eapply wpx_get_size; [lk|].
  wp_bind. apply wpx_fresh_object. ssimpl. intros nd Hnd _.
  assert (nd <> this) by congruence.
  fold n. fold newcap.
  wp_bind. apply RawMemory_ctor_spec.
  { intros ?. lia. }
  2: { intros _ Hfail. apply HR. by left. }
  intros _ Hnew b' Hb'. apply wpx_finally.
  assert (Hdone : forall w'' m buf,
    (exists w1, (ctor w1).2 = None) \/ (copy_path E /\ copy_fails E xs) ->
    m !! b' = Some buf -> delete b' m = hp ->
    wpx u (RawMemory_dtor nd)
      (State (HState w'' m) (<[nd := mkRawMemory (Some b') newcap]> rw) vs)
      (fun _ s'' => R s'') (fun _ => u)).
  { intros w'' m buf Hcause Hm Hdel.
    eapply RawMemory_dtor_spec; [lk | right; eexists _, _; split; [done|lk] |].
    ssimpl. rewrite Hdel, delete_insert_id by done. apply HR. by right. }
  assert (Hsub1 : copy_fails E (take k1 xs) -> copy_fails E xs).
  { intros (x & w1 & Hin & Hf). exists x, w1. split; [|done].
    rewrite <- (take_drop k1 xs). apply elem_of_app. by left. }
  assert (Hsub2 : copy_fails E (take k2 (drop d xs)) -> copy_fails E xs).
  { intros (x & w1 & Hin & Hf). exists x, w1. split; [|done].
    rewrite <- (take_drop d xs). apply elem_of_app. right.
    rewrite <- (take_drop k2 (drop d xs)). apply elem_of_app. by left. }
  wp_bind. eapply RawMemory_plus_spec; [lk | simpl; lia |]. ssimpl.
  wp_bind. apply wpx_liftH. ssimpl.
  eapply construct_at_spec; [lk | solve_len | | ].
  2: { intros Hthrow. eapply Hdone; [left; eauto|lk|]. by rewrite delete_insert_id. }
  intros v Hv. rewrite insert_insert_eq.
  rewrite insert_replicate_split by lia.
  set (w2 := (ctor (operator_new E newcap w).1).1). clearbody w2.
  destruct b as [a|].
  - (* the vector owns a buffer *)
    unfold n in Hb. rewrite Nat.sub_diag in Hb. simpl in Hb. rewrite app_nil_r in Hb.
    assert (Hab : a <> b') by congruence.
    assert (Hlen1 : length (take k1 xs) = k1) by (rewrite length_take; lia).
    assert (Hlen2 : length (take k2 (drop d xs)) = k2)
      by (rewrite length_take, length_drop; lia).
    set (mid := take (d - k1) (drop k1 xs)).
    set (tl := drop k2 (drop d xs)).
    assert (Hmid : length mid = d - k1)
      by (unfold mid; rewrite length_take, length_drop; lia).
    assert (Hsplit : drop k1 xs = mid ++ take k2 (drop d xs) ++ tl).
    { unfold mid, tl. rewrite take_drop.
      replace (drop d xs) with (drop (d - k1) (drop k1 xs))
        by (rewrite drop_drop; f_equal; lia).
      by rewrite take_drop. }
    (* the prefix *)
    wp_bind. apply wpx_try_catch.
    wp_bind. eapply RawMemory_GetAddress_spec; [lk|]. ssimpl.
    wp_bind. eapply RawMemory_GetAddress_spec; [lk|]. ssimpl.
    apply wpx_liftH. ssimpl.
    eapply (UninitializedMoveOrCopy_spec u E a b' 0 0 _ (take k1 xs)
              [] (Some <$> drop k1 xs) []
              (replicate (d - k1) None ++ Some v :: replicate (newcap - d - 1) None));
      [done | done | by rewrite Hlen1 | | done | | done | |].
    { rewrite lookup_insert_ne by done. rewrite Hb. simpl.
      by rewrite <- fmap_app, take_drop. }
    { rewrite lookup_insert_eq. simpl. rewrite Hlen1.
      rewrite app_assoc, <- replicate_add.
      by replace (k1 + (d - k1)) with d by lia. }
    2: { (* a copy of the prefix throws *)
      intros Hcp Hcf w'. wp_bind.
      eapply RawMemory_GetAddress_spec; [lk|]. ssimpl.
      wp_bind. apply wpx_liftH. ssimpl.
      eapply (destroy_1_spec u E b' v (replicate d None)); [lk | solve_len |].
      intros w''. apply wpx_throw.
      eapply Hdone; [right; auto|lk|]. by rewrite insert_insert_eq, delete_insert_id. }
    intros w3 xs1' ys1 Hl1 Hcp1 Hys1. simpl app.
    assert (Hly1 : length ys1 = k1).
    { apply Forall2_length in Hys1. lia. }
    (* the suffix *)
    wp_bind. apply wpx_try_catch.
    wp_bind. eapply RawMemory_GetAddress_spec; [lk|]. ssimpl.
    wp_bind. eapply wpx_get_size; [lk|].
    wp_bind. eapply RawMemory_GetAddress_spec; [lk|]. ssimpl.
    apply wpx_liftH. ssimpl. fold n.
    eapply (UninitializedMoveOrCopy_spec u E a b' (0 + d) (0 + d + 1) _
              (take k2 (drop d xs))
              (Some <$> (xs1' ++ mid)) (Some <$> tl)
              ((Some <$> ys1) ++ replicate (d - k1) None ++ [Some v])
              (replicate (newcap - d - 1 - k2) None));
      [done | done | by rewrite Hlen2 | | solve_len | | solve_len | |].
    { rewrite lookup_insert_ne by done. rewrite lookup_insert_eq. f_equal.
      rewrite Hsplit, !fmap_app. by rewrite <- !app_assoc. }
    { rewrite lookup_insert_eq. f_equal. rewrite Hlen2.
      rewrite <- !app_assoc. simpl. do 3 f_equal.
      rewrite <- replicate_add. f_equal. lia. }
    2: { (* a copy of the suffix throws *)
      intros Hcp Hcf w'. wp_bind.
      eapply RawMemory_GetAddress_spec; [lk|]. ssimpl.
      wp_bind. apply wpx_liftH. ssimpl.
      assert (Hdel : forall buf buf1 buf2,
        delete b' (<[b' := buf]> (<[b' := buf1]> (<[a := [] ++ (Some <$> xs1') ++ (Some <$> drop k1 xs)]>
                     (<[b' := buf2]> hp)))) = hp).
      { intros buf buf1 buf2. rewrite (Hcp1 Hcp). simpl.
        rewrite <- fmap_app, take_drop.
        apply map_eq. intros i.
        destruct (decide (i = b')) as [->|]; [by rewrite lookup_delete_eq|].
        rewrite lookup_delete_ne, !(lookup_insert_ne _ b') by congruence.
        destruct (decide (i = a)) as [->|]; [by rewrite lookup_insert_eq|].
        rewrite !lookup_insert_ne by congruence. done. }
      destruct (decide (k1 = d)) as [Hkd|Hkd].
      - replace (d - k1) with 0 by lia. simpl replicate. simpl app.
        replace (d + 1) with (length (ys1 ++ [v])) by solve_len.
        eapply (destroy_n_spec u E b' (ys1 ++ [v]) [] (replicate (newcap - d - 1) None));
          [ | done | ].
        { rewrite lookup_insert_eq. f_equal. simpl.
          rewrite fmap_app. by rewrite <- app_assoc. }
        intros w''. apply wpx_throw.
        eapply Hdone; [right; auto|lk|]. apply Hdel.
      - eapply (destroy_n_partial u E b' (d + 1) []
                  ((Some <$> ys1) ++ replicate (d - k1) None ++ [Some v])
                  (replicate (newcap - d - 1) None));
          [by apply Hu | | solve_len | done |].
        { rewrite lookup_insert_eq. f_equal. simpl. by rewrite <- !app_assoc. }
        intros w''. apply wpx_throw.
        eapply Hdone; [right; auto|lk|]. apply Hdel. }
    intros w4 xs2' ys2 Hl2 Hcp2 Hys2.
    assert (Hly2 : length ys2 = k2).
    { apply Forall2_length in Hys2. lia. }
    rewrite insert2_absorb by done.
    wp_bind. eapply RawMemory_Swap_spec; [congruence|lk|lk|].
    wp_bind. eapply RawMemory_GetAddress_spec; [lk|]. ssimpl.
    wp_bind. eapply wpx_get_size; [lk|].
    apply wpx_liftH. ssimpl.
    replace (length xs) with (length (xs1' ++ mid ++ xs2' ++ tl)).
    2: { rewrite !length_app, Hl1, Hlen1, Hmid, Hl2, Hlen2. unfold tl.
         rewrite !length_drop. fold n. lia. }
    eapply (destroy_n_spec u E a (xs1' ++ mid ++ xs2' ++ tl) [] []); [ | done | ].
    { rewrite lookup_insert_ne by done. rewrite lookup_insert_eq. f_equal.
      simpl. rewrite app_nil_r, !fmap_app. by rewrite <- !app_assoc. }
    intros w5.
    eapply RawMemory_dtor_spec; [lk | right; eexists _, _; split; [done|lk] |].
    ssimpl.
    specialize (HQ w5 b' v ys1 ys2 Hb' ltac:(eauto) Hys1 Hys2).
    match goal with |- Q _ (State (HState _ ?m) ?r _) =>
      match type of HQ with Q _ (State (HState _ ?m') ?r' _) =>
        replace m with m'; [replace r with r'|] end end; [done| |].
    + map_ext.
    + rewrite <- !app_assoc. simpl. map_ext.
  - (* the vector is empty and owns no buffer *)
    assert (n = 0) by done. assert (d = 0) by lia.
    assert (Hxs : xs = []) by (by destruct xs).
    assert (k1 = 0) by lia. assert (k2 = 0) by lia.
    wp_bind. apply wpx_try_catch.
    wp_bind. eapply RawMemory_GetAddress_spec; [lk|]. ssimpl.
    wp_bind. eapply RawMemory_GetAddress_spec; [lk|]. ssimpl.
    apply wpx_liftH. ssimpl.
    apply UninitializedMoveOrCopy_zero; [done|].
    wp_bind. apply wpx_try_catch.
    wp_bind. eapply RawMemory_GetAddress_spec; [lk|]. ssimpl.
    wp_bind. eapply wpx_get_size; [lk|].
    wp_bind. eapply RawMemory_GetAddress_spec; [lk|]. ssimpl.
    apply wpx_liftH. ssimpl.
    apply UninitializedMoveOrCopy_zero; [done|].
    wp_bind. eapply RawMemory_Swap_spec; [congruence|lk|lk|].
    wp_bind. eapply RawMemory_GetAddress_spec; [lk|]. ssimpl.
    wp_bind. eapply wpx_get_size; [lk|].
    apply wpx_liftH. ssimpl. rewrite Hxs. simpl length. apply wpx_ret.
    eapply RawMemory_dtor_spec; [lk | by left |].
    ssimpl.
    specialize (HQ w2 b' v [] [] Hb' ltac:(eauto)).
    rewrite Hxs in HQ. rewrite drop_nil, !take_nil in HQ.
    specialize (HQ ltac:(constructor) ltac:(constructor)).
    match goal with |- Q _ (State (HState _ ?m) ?r _) =>
      match type of HQ with Q _ (State (HState _ ?m') ?r' _) =>
        replace m with m'; [replace r with r'|] end end; [done| |].
    + map_ext.
    + replace (d - k1) with 0 by lia.
      replace (newcap - d - 1 - k2) with (newcap - d - 1) by lia.
      by replace d with 0 by lia.
Qed.

Lemma Emplace_full_spec this b xs d ctor w hp rw vs (Q : ptr -> _ -> Prop) R :
  let n := length xs in
  let newcap := if decide (n = 0) then 1 else n * 2 in
  let k1 := Z.to_nat (to_int (Z.of_nat d)) in
  let k2 := Z.to_nat (to_int (Z.of_nat n - Z.of_nat d)) in
  vec_rep (State (HState w hp) rw vs) this b n xs ->
  d <= n ->
  transfer_safe E ->
  (k1 <> d -> copy_path E -> u) ->
  (forall w' b' v ys1 ys2,
      hp !! b' = None ->
      (exists w1, (ctor w1).2 = Some v) ->
      Forall2 (transferred E) (take k1 xs) ys1 ->
      Forall2 (transferred E) (take k2 (drop d xs)) ys2 ->
      Q (Some b', d)
        (State (HState w'
                  (<[b' := (Some <$> ys1) ++ replicate (d - k1) None ++
                           Some v :: (Some <$> ys2) ++
                           replicate (newcap - d - 1 - k2) None]>
                     (match b with Some a => delete a hp | None => hp end)))
           (<[this := mkRawMemory (Some b') newcap]> rw)
           (<[this := n + 1]> vs))) ->
  (forall w',
      (operator_new E newcap w).2 = false \/ (exists w1, (ctor w1).2 = None) \/
      (copy_path E /\ copy_fails E xs) ->
      R (State (HState w' hp) rw vs)) ->
  wpx u (Emplace E this (b, d) ctor) (State (HState w hp) rw vs) Q R.
Proof.
  intros n newcap k1 k2 Hrep Hd Hsafe Hu HQ HR.
  pose proof Hrep as [Hr Hs Hb Hle]. simpl in Hr, Hs.
  unfold Emplace.
  wp_bind. unfold begin. eapply RawMemory_GetAddress_spec; [lk|]. ssimpl.
  wp_bind. apply wpx_liftH. unfold std_distance. ssimpl.
  rewrite decide_True by (split; [done|lia]). apply wpx_ret. ssimpl.
  rewrite Nat.sub_0_r.
  wp_bind. eapply wpx_get_size; [lk|].
  wp_bind. unfold Capacity, RawMemory_Capacity. eapply wpx_get_capacity; [lk|].
  ssimpl. rewrite decide_True by done.
  wp_bind. eapply EmplaceWithReallocation_spec; try done.
  intros w' b' v ys1 ys2 Hb' Hv Hys1 Hys2.
  wp_bind. eapply wpx_get_size; [lk|].
  wp_bind. eapply wpx_set_size; [lk|]. ssimpl.
  wp_bind. eapply RawMemory_GetAddress_spec; [lk|]. ssimpl.
  apply wpx_ret. by apply HQ.
Qed.

End Emplace.

(** ** What holds whatever the element type does *)

Section Frames.
Context {T W : Type}.
Variable E : Env T W.
Implicit Types (w : W) (hp : gmap nat (list (option T))).
Implicit Types (rw : gmap nat RawMemory) (vs : gmap nat nat).
Implicit Types (s : state T W) (h : hstate T W) (xs : list T).

Lemma wpx_liftH_frame {A} (m : M (hstate T W) A) s (Q : A -> _ -> Prop) R :
  (forall a h, Q a (State h (raw s) (vsize s))) ->
  (forall h, R (State h (raw s) (vsize s))) ->
  wpx True (liftH m) s Q R.
Proof. intros HQ HR. unfold wpx, liftH. destruct (m (mem s)); auto. Qed.

Lemma RawMemory_ctor_frame this n s (Q : unit -> _ -> Prop) R :
  (forall h b, Q tt (State h (<[this := mkRawMemory b n]> (raw s)) (vsize s))) ->
  (forall h, R (State h (raw s) (vsize s))) ->
  wpx True (RawMemory_ctor E this n) s Q R.
Proof.
  intros HQ HR. unfold RawMemory_ctor. wp_bind. unfold Allocate.
  case_decide.
  - apply wpx_liftH_frame; [|done]. intros b h. apply wpx_modify. apply HQ.
  - apply wpx_ret. apply wpx_modify. destruct s. apply HQ.
Qed.

Lemma Deallocate_frame buf s (Q : unit -> _ -> Prop) R :
  (forall h, Q tt (State h (raw s) (vsize s))) ->
  wpx True (@Deallocate T W buf) s Q R.
Proof.
  intros HQ. unfold wpx, Deallocate, liftH, delete_block.
  destruct buf as [b|]; simpl; [|apply HQ].
  destruct (heap (mem s) !! b); [apply HQ|done].
Qed.

Lemma RawMemory_dtor_frame this r s (Q : unit -> _ -> Prop) R :
  raw s !! this = Some r ->
  (forall h, Q tt (State h (delete this (raw s)) (vsize s))) ->
  wpx True (RawMemory_dtor this) s Q R.
Proof.
  intros Hr HQ. unfold RawMemory_dtor.
  wp_bind. eapply wpx_get_buffer; [done|].
  wp_bind. apply Deallocate_frame.
  intros h. apply wpx_modify. apply HQ.
Qed.

Lemma RawMemory_plus_frame this offset r s (Q : ptr -> _ -> Prop) R :
  raw s !! this = Some r ->
  (forall p, Q p s) ->
  wpx True (RawMemory_plus this offset) s Q R.
Proof.
  intros Hr HQ. unfold RawMemory_plus.
  wp_bind. eapply wpx_get_capacity; [done|].
  wp_bind. unfold assert. case_decide; [|done]. apply wpx_ret.
  wp_bind. eapply wpx_get_buffer; [done|]. apply wpx_ret. apply HQ.
Qed.

(** Whatever the element type does, an insertion into a full vector that
    returns has made the capacity [max 1 (2 * n)]. *)
Lemma Emplace_full_capacity this pos ctor r n h0 rw vs :
  rw !! this = Some r -> capacity_ r = n -> vs !! this = Some n ->
  wpx True (Emplace E this pos ctor) (State h0 rw vs)
    (fun _ s' => Capacity this s' = Ret (1 `max` (2 * n)) s')
    (fun _ => True).
Proof.
  intros Hr Hc Hs. unfold Emplace.
  wp_bind. unfold begin. eapply RawMemory_GetAddress_spec; [lk|].
  wp_bind. apply wpx_liftH_frame; [|done]. intros distance h1. ssimpl.
  wp_bind. eapply wpx_get_size; [lk|].
  wp_bind. unfold Capacity, RawMemory_Capacity. eapply wpx_get_capacity; [lk|].
  rewrite Hc. rewrite decide_True by done.
  wp_bind. unfold EmplaceWithReallocation.
  wp_bind. unfold begin. eapply RawMemory_GetAddress_spec; [lk|].
  wp_bind. apply wpx_liftH_frame; [|done]. intros distance' h2. ssimpl.
  wp_bind. eapply wpx_get_size; [lk|].
  wp_bind. apply wpx_fresh_object. ssimpl. intros nd Hnd _.
  assert (nd <> this) by congruence.
  wp_bind. apply RawMemory_ctor_frame; [|done]. intros h3 b'. ssimpl.
  apply wpx_finally.
  assert (Hfin : forall s', raw s' !! nd <> None ->
            wpx True (RawMemory_dtor nd) s' (fun _ _ => True) (fun _ => True)).
  { intros s' Hs'. destruct (raw s' !! nd) eqn:Hl; [|done].
    eapply RawMemory_dtor_frame; done. }
  assert (Hfin' : forall h r' rw', wpx True (RawMemory_dtor nd) (State h (<[nd := r']> rw') vs)
                      (fun _ _ => True) (fun _ => True)).
  { intros. apply Hfin. ssimpl. by rewrite lookup_insert_eq. }
  wp_bind. eapply RawMemory_plus_frame; [lk|]. intros p.
  wp_bind. apply wpx_liftH_frame; [|intros; by apply Hfin']. intros _ h4. ssimpl.
  wp_bind. apply wpx_try_catch.
  wp_bind. eapply RawMemory_GetAddress_spec; [lk|].
  wp_bind. eapply RawMemory_GetAddress_spec; [lk|].
  apply wpx_liftH_frame.
  2: { intros h. wp_bind. eapply RawMemory_GetAddress_spec; [lk|].
       wp_bind. apply wpx_liftH_frame; [|intros; by apply Hfin'].
       intros _ h'. apply wpx_throw. by apply Hfin'. }
  intros _ h5. ssimpl.
  wp_bind. apply wpx_try_catch.
  wp_bind. eapply RawMemory_GetAddress_spec; [lk|].
  wp_bind. eapply wpx_get_size; [lk|].
  wp_bind. eapply RawMemory_GetAddress_spec; [lk|].
  apply wpx_liftH_frame.
  2: { intros h. wp_bind. eapply RawMemory_GetAddress_spec; [lk|].
       wp_bind. apply wpx_liftH_frame; [|intros; by apply Hfin'].
       intros _ h'. apply wpx_throw. by apply Hfin'. }
  intros _ h6. ssimpl.
  wp_bind. eapply RawMemory_Swap_spec; [congruence|lk|lk|].
  wp_bind. eapply RawMemory_GetAddress_spec; [lk|].
  wp_bind. eapply wpx_get_size; [lk|].
  apply wpx_liftH_frame.
  2: { intros h. apply Hfin'. }
  intros _ h7. ssimpl.
  eapply RawMemory_dtor_frame; [lk|]. intros h8. ssimpl.
  wp_bind. eapply wpx_get_size; [lk|].
  wp_bind. eapply wpx_set_size; [lk|]. ssimpl.
  wp_bind. eapply RawMemory_GetAddress_spec; [lk|].
  apply wpx_ret.
  unfold Capacity, RawMemory_Capacity, get_capacity. ssimpl.
  rewrite lookup_delete_ne by congruence.
  rewrite lookup_insert_ne by congruence.
  rewrite lookup_insert_eq. ssimpl.
  do 2 f_equal. case_decide; lia.
Qed.

End Frames.

(** ** Regular element types: insertion, erasure *)

Section Regular.
Variable u : Prop.
Context {T W : Type}.
Variable E : Env T W.
Hypothesis HE : Regular E.
Implicit Types (w : W) (hp : gmap nat (list (option T))).
Implicit Types (rw : gmap nat RawMemory) (vs : gmap nat nat).
Implicit Types (s : state T W) (h : hstate T W) (xs : list T).

Lemma wpx_end this r n s (Q : ptr -> _ -> Prop) R :
  raw s !! this = Some r -> vsize s !! this = Some n ->
  Q (buffer_ r, 0 + n) s ->
  wpx u (end_ this) s Q R.
Proof.
  intros Hr Hn HQ. unfold end_.
  wp_bind. eapply RawMemory_GetAddress_spec; [done|].
  wp_bind. eapply wpx_get_size; [done|]. by apply wpx_ret.
Qed.

Lemma wpx_ptr_sub (p : ptr) k (h : hstate T W) (Q : ptr -> _ -> Prop) R :
  k <= p.2 -> Q (p.1, p.2 - k) h -> wpx u (ptr_sub p k) h Q R.
Proof. intros Hk HQ. unfold ptr_sub. rewrite decide_True by done. by apply wpx_ret. Qed.

Lemma wpx_std_distance (b : option nat) d (h : hstate T W) (Q : nat -> _ -> Prop) R :
  Q d h -> wpx u (std_distance (b, 0) (b, d)) h Q R.
Proof.
  intros HQ. unfold std_distance. ssimpl.
  rewrite decide_True by (split; [done|lia]). apply wpx_ret.
  by rewrite Nat.sub_0_r.
Qed.

Lemma vec_rep_some s this b cap xs :
  vec_rep s this b cap xs -> 0 < cap -> exists a, b = Some a.
Proof. intros [_ _ Hb _] Hc. destruct b; [eauto|lia]. Qed.

(** Insertion where there is room *)
Lemma EmplaceWithoutReallocation_spec this a cap xs d ctor v w hp rw vs
    (Q : unit -> _ -> Prop) R :
  vec_rep (State (HState w hp) rw vs) this (Some a) cap xs ->
  length xs < cap ->
  d <= length xs ->
  (forall w, (ctor w).2 = Some v) ->
  (forall w', Q tt (State (HState w'
                     (<[a := (Some <$> (take d xs ++ v :: drop d xs)) ++
                             replicate (cap - length xs - 1) None]> hp)) rw vs)) ->
  wpx u (EmplaceWithoutReallocation E this (Some a, d) ctor)
      (State (HState w hp) rw vs) Q R.
Proof.
  intros Hrep Hroom Hd Hctor HQ.
  pose proof Hrep as [Hr Hs Hb Hle]. simpl in Hr, Hs, Hb.
  set (n := length xs) in *.
  unfold EmplaceWithoutReallocation.
  wp_bind. unfold begin. eapply RawMemory_GetAddress_spec; [lk|]. ssimpl.
  wp_bind. apply wpx_liftH. apply wpx_std_distance. ssimpl.
  wp_bind. eapply wpx_end; [lk|lk|]. ssimpl.
  replace (cap - n) with (S (cap - n - 1)) in Hb by lia. simpl in Hb.
  destruct (decide (d = n)) as [->|Hdn].
  - rewrite decide_True by done.
    wp_bind. eapply RawMemory_GetAddress_spec; [lk|]. ssimpl.
    wp_bind. eapply wpx_get_size; [lk|].
    apply wpx_liftH. ssimpl.
    eapply construct_at_spec; [done | solve_len | |].
    + intros x Hx. rewrite Hctor in Hx. injection Hx as <-.
      rewrite insert_middle by solve_len.
      specialize (HQ (ctor w).1). unfold n in HQ.
      rewrite firstn_all, drop_all in HQ.
      rewrite fmap_app in HQ. simpl in HQ. by rewrite <- app_assoc in HQ.
    + intros Hx. by rewrite Hctor in Hx.
  - rewrite decide_False by (intros [= ?]; lia).
    wp_bind. apply wpx_liftH. apply wpx_on_world. ssimpl.
    rewrite Hctor.
    destruct (exists_last (l := drop d xs)) as (ms & l & Hdrop).
    { intros Hnil. apply (f_equal length) in Hnil. rewrite length_drop in Hnil.
      simpl in Hnil. lia. }
    assert (Hxs : xs = take d xs ++ ms ++ [l]) by (by rewrite <- Hdrop, take_drop).
    assert (Hlp : length (take d xs) = d) by (rewrite length_take; lia).
    assert (Hlm : n = S (d + length ms)).
    { unfold n. rewrite Hxs at 1. rewrite !length_app, Hlp. simpl. lia. }
    set (pre := take d xs) in *.
    assert (Hb1 : hp !! a = Some (((Some <$> pre) ++ (Some <$> ms)) ++
                      Some l :: None :: replicate (cap - n - 1) None)).
    { rewrite Hb. f_equal. rewrite Hxs at 1. rewrite !fmap_app. simpl.
      by rewrite <- !app_assoc. }
    wp_bind. apply wpx_try_catch.
    wp_bind. eapply RawMemory_GetAddress_spec; [lk|]. ssimpl.
    wp_bind. eapply wpx_get_size; [lk|].
    wp_bind. apply wpx_liftH. apply wpx_ptr_sub; [ssimpl; lia|]. ssimpl.
    wp_bind. apply wpx_liftH. ssimpl.
    replace (0 + n - 1) with (d + length ms) by lia.
    replace (0 + n) with (S (d + length ms)) by lia.
    eapply uninitialized_move_1_up_spec; [done | exact Hb1 | solve_len |].
    intros w1 z.
    wp_bind. eapply RawMemory_plus_spec; [lk | ssimpl; lia |]. ssimpl.
    wp_bind. eapply wpx_end; [lk|lk|]. ssimpl.
    wp_bind. apply wpx_liftH. apply wpx_ptr_sub; [ssimpl; lia|]. ssimpl.
    apply wpx_liftH. ssimpl. unfold move_backward. ssimpl.
    rewrite decide_True by (split_and!; [done|lia|lia]).
    replace (0 + n - (0 + n - 1 - d)) with (S d) by lia.
    replace (0 + n - 1 - d) with (length ms) by lia.
    eapply (move_backward_loop_up_spec u E a ms (Some <$> pre)
              (Some l :: replicate (cap - n - 1) None) z d); [done | | solve_len |].
    { rewrite lookup_insert_eq. by rewrite <- !app_assoc. }
    intros w2 z'. rewrite insert_insert_eq.
    wp_bind. eapply RawMemory_index_spec; [lk | ssimpl; lia |]. ssimpl.
    wp_bind. apply wpx_liftH. ssimpl.
    eapply wpx_read; [lk | by apply lookup_middle; solve_len |].
    wp_bind. apply wpx_liftH. apply wpx_on_world. ssimpl.
    wp_bind. apply wpx_liftH. ssimpl.
    eapply wpx_store_slot; [lk | solve_len |].
    wp_bind. apply wpx_liftH. apply wpx_on_world. ssimpl.
    rewrite (reg_move_asg E HE). ssimpl. apply wpx_ret.
    rewrite insert_insert_eq. rewrite insert_middle by solve_len.
    match goal with |- Q _ (State (HState ?w' _) _ _) => specialize (HQ w') end.
    rewrite Hdrop in HQ. lnorm_in HQ. by lnorm.
Qed.

Lemma Regular_not_copy_fails xs : ~ copy_fails E xs.
Proof. intros (x & w & _ & Hf). by rewrite (reg_copy E HE) in Hf. Qed.

(** Insertion into a vector that is not full: same buffer, same capacity *)
Lemma Emplace_room_spec this b cap xs d ctor v w hp rw vs (Q : ptr -> _ -> Prop) R :
  vec_rep (State (HState w hp) rw vs) this b cap xs ->
  length xs < cap ->
  d <= length xs ->
  (forall w, (ctor w).2 = Some v) ->
  (forall w' s',
     s' = State (HState w' (match b with
                            | Some a => <[a := (Some <$> (take d xs ++ v :: drop d xs)) ++
                                               replicate (cap - length xs - 1) None]> hp
                            | None => hp
                            end)) rw (<[this := length xs + 1]> vs) ->
     vec_rep s' this b cap (take d xs ++ v :: drop d xs) ->
     Q (b, d) s') ->
  wpx u (Emplace E this (b, d) ctor) (State (HState w hp) rw vs) Q R.
Proof.
  intros Hrep Hroom Hd Hctor HQ.
  destruct (vec_rep_some _ _ _ _ _ Hrep ltac:(lia)) as [a ->].
  pose proof Hrep as [Hr Hs Hb Hle]. simpl in Hr, Hs, Hb.
  unfold Emplace.
  wp_bind. unfold begin. eapply RawMemory_GetAddress_spec; [lk|]. ssimpl.
  wp_bind. apply wpx_liftH. apply wpx_std_distance. ssimpl.
  wp_bind. eapply wpx_get_size; [lk|].
  wp_bind. unfold Capacity, RawMemory_Capacity. eapply wpx_get_capacity; [lk|].
  ssimpl. rewrite decide_False by lia.
  wp_bind. eapply EmplaceWithoutReallocation_spec; try done.
  intros w'.
  wp_bind. eapply wpx_get_size; [lk|].
  wp_bind. eapply wpx_set_size; [lk|]. ssimpl.
  wp_bind. eapply RawMemory_GetAddress_spec; [lk|]. ssimpl.
  apply wpx_ret. eapply HQ; [done|].
  assert (Hlen : length (take d xs ++ v :: drop d xs) = length xs + 1).
  { rewrite length_app, length_cons, length_take, length_drop. lia. }
  split; simpl.
  - done.
  - rewrite lookup_insert_eq. by rewrite Hlen.
  - rewrite lookup_insert_eq. rewrite Hlen. do 3 f_equal. lia.
  - rewrite Hlen. lia.
Qed.

(** Insertion into a full vector of fewer than 2^31 elements: a new buffer
    of twice the capacity *)
Lemma Emplace_full_regular_spec this b xs d ctor v w hp rw vs (Q : ptr -> _ -> Prop) R :
  vec_rep (State (HState w hp) rw vs) this b (length xs) xs ->
  d <= length xs ->
  (Z.of_nat (length xs) < 2147483648)%Z ->
  (forall w, (ctor w).2 = Some v) ->
  (forall w' b' s',
     hp !! b' = None ->
     s' = State (HState w' (<[b' := (Some <$> (take d xs ++ v :: drop d xs)) ++
                                   replicate (1 `max` (2 * length xs) - length xs - 1) None]>
                              (match b with Some a => delete a hp | None => hp end)))
                (<[this := mkRawMemory (Some b') (1 `max` (2 * length xs))]> rw)
                (<[this := length xs + 1]> vs) ->
     vec_rep s' this (Some b') (1 `max` (2 * length xs)) (take d xs ++ v :: drop d xs) ->
     Q (Some b', d) s') ->
  wpx u (Emplace E this (b, d) ctor) (State (HState w hp) rw vs) Q R.
Proof.
  intros Hrep Hd Hsmall Hctor HQ.
  eapply Emplace_full_spec; try done.
  - by apply Regular_transfer_safe.
  - intros Hk. exfalso. apply Hk. rewrite to_int_small by lia. lia.
  - rewrite !to_int_small by lia. rewrite Nat2Z.id.
    replace (Z.to_nat (Z.of_nat (length xs) - Z.of_nat d)) with (length xs - d) by lia.
    intros w' b' v' ys1 ys2 Hb' [w1 Hv] Hys1 Hys2.
    rewrite Hctor in Hv. injection Hv as <-.
    apply (Regular_transferred E) in Hys1, Hys2; [|done..]. subst ys1 ys2.
    rewrite take_ge with (n := length xs - d) by (rewrite length_drop; lia).
    replace (d - d) with 0 by lia. simpl replicate. simpl app.
    assert (Hcap : (if decide (length xs = 0) then 1 else length xs * 2)
                   = 1 `max` (2 * length xs)) by (case_decide; lia).
    rewrite Hcap.
    assert (Hlen : length (take d xs ++ v :: drop d xs) = length xs + 1).
    { rewrite length_app, length_cons, length_take, length_drop. lia. }
    assert (Hbuf : (Some <$> take d xs) ++ Some v :: (Some <$> drop d xs) ++
                   replicate (1 `max` (2 * length xs) - d - 1 - (length xs - d)) None
                 = (Some <$> (take d xs ++ v :: drop d xs)) ++
                   replicate (1 `max` (2 * length xs) - length xs - 1) None).
    { lnorm. do 4 f_equal. lia. }
    rewrite Hbuf.
    eapply HQ; [done|done|].
    split; simpl.
    + by rewrite lookup_insert_eq.
    + rewrite lookup_insert_eq. by rewrite Hlen.
    + rewrite lookup_insert_eq. rewrite Hlen. do 3 f_equal. lia.
    + rewrite Hlen. lia.
  - intros w' [Hf|[[w1 Hf]|[_ Hf]]].
    + by rewrite (reg_new E HE) in Hf.
    + by rewrite Hctor in Hf.
    + by apply Regular_not_copy_fails in Hf.
Qed.

Lemma PopBack_spec this b cap xs l w hp rw vs (Q : unit -> _ -> Prop) R :
  vec_rep (State (HState w hp) rw vs) this b cap (xs ++ [l]) ->
  (forall w' s',
     s' = State (HState w' (match b with
                            | Some a => <[a := (Some <$> xs) ++ replicate (cap - length xs) None]> hp
                            | None => hp
                            end)) rw (<[this := length xs]> vs) ->
     vec_rep s' this b cap xs -> Q tt s') ->
  wpx u (PopBack E this) (State (HState w hp) rw vs) Q R.
Proof.
  intros Hrep HQ.
  assert (Hn : length (xs ++ [l]) = S (length xs)) by solve_len.
  destruct (vec_rep_some _ _ _ _ _ Hrep) as [a ->].
  { destruct Hrep as [_ _ _ Hle]. lia. }
  pose proof Hrep as [Hr Hs Hb Hle]. simpl in Hr, Hs, Hb. rewrite Hn in *.
  unfold PopBack.
  wp_bind. eapply RawMemory_GetAddress_spec; [lk|]. ssimpl.
  wp_bind. eapply wpx_get_size; [lk|].
  wp_bind. apply wpx_liftH. apply wpx_ptr_sub; [ssimpl; lia|]. ssimpl.
  wp_bind. apply wpx_liftH. ssimpl.
  eapply (destroy_1_spec u E a l (Some <$> xs) (replicate (cap - S (length xs)) None));
    [ | solve_len | ].
  { rewrite Hb. f_equal. by lnorm. }
  intros w'.
  wp_bind. eapply wpx_get_size; [lk|].
  eapply wpx_set_size; [lk|]. ssimpl.
  replace (S (length xs) - 1) with (length xs) by lia.
  assert (Hbuf : (Some <$> xs) ++ None :: replicate (cap - S (length xs)) None
               = (Some <$> xs) ++ replicate (cap - length xs) None).
  { f_equal. replace (cap - length xs) with (S (cap - S (length xs))) by lia. done. }
  rewrite Hbuf.
  eapply HQ; [done|]. split; simpl.
  - done.
  - by rewrite lookup_insert_eq.
  - by rewrite lookup_insert_eq.
  - lia.
Qed.

Lemma Erase_spec this b cap xs d w hp rw vs (Q : ptr -> _ -> Prop) R :
  vec_rep (State (HState w hp) rw vs) this b cap xs ->
  d < length xs ->
  (forall w' s',
     s' = State (HState w' (match b with
                            | Some a => <[a := (Some <$> (take d xs ++ drop (S d) xs)) ++
                                               replicate (cap - (length xs - 1)) None]> hp
                            | None => hp
                            end)) rw (<[this := length xs - 1]> vs) ->
     vec_rep s' this b cap (take d xs ++ drop (S d) xs) ->
     Q (b, d) s') ->
  wpx u (Erase E this (b, d)) (State (HState w hp) rw vs) Q R.
Proof.
  intros Hrep Hd HQ.
  destruct (vec_rep_some _ _ _ _ _ Hrep) as [a ->].
  { destruct Hrep as [_ _ _ Hle]. lia. }
  pose proof Hrep as [Hr Hs Hb Hle]. simpl in Hr, Hs, Hb.
  destruct (lookup_lt_is_Some_2 xs d Hd) as [x Hx].
  pose proof (take_drop_middle xs d x Hx) as Hxs.
  set (pre := take d xs) in *. set (tl := drop (S d) xs) in *.
  assert (Hlp : length pre = d) by (unfold pre; rewrite length_take; lia).
  assert (Hlt : length tl = length xs - S d) by (unfold tl; by rewrite length_drop).
  unfold Erase.
  wp_bind. unfold begin. eapply RawMemory_GetAddress_spec; [lk|]. ssimpl.
  wp_bind. apply wpx_liftH. apply wpx_std_distance. ssimpl.
  wp_bind. eapply RawMemory_GetAddress_spec; [lk|]. ssimpl.
  wp_bind. eapply wpx_end; [lk|lk|]. ssimpl.
  wp_bind. apply wpx_liftH. ssimpl. unfold std_move. ssimpl.
  rewrite decide_True by (split; [done|lia]).
  replace (0 + d + 1) with (S d) by lia.
  replace (0 + length xs - S d) with (length tl) by lia.
  replace (0 + d) with d by lia.
  eapply (move_loop_down_spec u E a tl (Some <$> pre)
            (replicate (cap - length xs) None) x d); [done | | solve_len |].
  { rewrite Hb. f_equal. rewrite <- Hxs. by lnorm. }
  intros w1 z.
  wp_bind. eapply (PopBack_spec this (Some a) cap (pre ++ tl) z).
  { split; simpl.
    - done.
    - rewrite Hs. f_equal. solve_len.
    - rewrite lookup_insert_eq. f_equal. lnorm. do 3 f_equal.
      f_equal. solve_len.
    - solve_len. }
  intros w' s' -> Hrep'. rewrite insert_insert_eq in *.
  wp_bind. eapply RawMemory_GetAddress_spec; [lk|]. ssimpl.
  apply wpx_ret.
  eapply HQ; [|done].
  do 2 f_equal.
  - do 3 f_equal. solve_len.
  - f_equal. solve_len.
Qed.

End Regular.

(** ** Reserve *)

Section Reserve.
Variable u : Prop.
Context {T W : Type}.
Variable E : Env T W.
Implicit Types (w : W) (hp : gmap nat (list (option T))).
Implicit Types (rw : gmap nat RawMemory) (vs : gmap nat nat).
Implicit Types (s : state T W) (h : hstate T W) (xs : list T).

Lemma Reserve_noop this r new_capacity s :
  raw s !! this = Some r -> new_capacity <= capacity_ r ->
  Reserve E this new_capacity s = Ret tt s.
Proof.
  intros Hr Hle. unfold Reserve, bind, RawMemory_Capacity, get_capacity.
  rewrite Hr. by rewrite decide_True.
Qed.

(** [Reserve] beyond the capacity.  [k] is the number of elements the
    transfer is asked for once the size has gone through [int]. *)
Lemma Reserve_spec this b cap xs new_capacity w hp rw vs (Q : unit -> _ -> Prop) R :
  let n := length xs in
  let k := Z.to_nat (to_int (Z.of_nat n)) in
  vec_rep (State (HState w hp) rw vs) this b cap xs ->
  cap < new_capacity ->
  transfer_safe E ->
  (forall w' b' ys,
      hp !! b' = None ->
      Forall2 (transferred E) (take k xs) ys ->
      Q tt (State (HState w'
                     (<[b' := (Some <$> ys) ++ replicate (new_capacity - k) None]>
                        (match b with Some a => delete a hp | None => hp end)))
              (<[this := mkRawMemory (Some b') new_capacity]> rw) vs)) ->
  (forall w',
      (operator_new E new_capacity w).2 = false \/ (copy_path E /\ copy_fails E xs) ->
      R (State (HState w' hp) rw vs)) ->
  wpx u (Reserve E this new_capacity) (State (HState w hp) rw vs) Q R.
Proof.
  intros n k Hrep Hcap Hsafe HQ HR.
  pose proof Hrep as [Hr Hs Hb Hle]. simpl in Hr, Hs, Hb. fold n in Hs, Hb, Hle.
  assert (Hk : k <= n) by apply to_int_nat_le.
  unfold Reserve.
  wp_bind. unfold RawMemory_Capacity. eapply wpx_get_capacity; [lk|]. ssimpl.
  rewrite decide_False by lia.
  wp_bind. apply wpx_fresh_object. ssimpl. intros nd Hnd _.
  assert (nd <> this) by congruence.
  wp_bind. apply RawMemory_ctor_spec.
  { intros ?. lia. }
  2: { intros _ Hfail. apply HR. by left. }
  intros _ Hnew b' Hb'. apply wpx_finally.
  set (w2 := (operator_new E new_capacity w).1). clearbody w2.
  wp_bind. eapply RawMemory_GetAddress_spec; [lk|]. ssimpl.
  wp_bind. eapply wpx_get_size; [lk|].
  wp_bind. eapply RawMemory_GetAddress_spec; [lk|]. ssimpl.
  destruct b as [a|].
  - assert (Hab : a <> b') by congruence.
    assert (Hlen : length (take k xs) = k) by (rewrite length_take; lia).
    wp_bind. apply wpx_liftH. ssimpl.
    eapply (UninitializedMoveOrCopy_spec u E a b' 0 0 _ (take k xs)
              [] ((Some <$> drop k xs) ++ replicate (cap - n) None) []
              (replicate (new_capacity - k) None));
      [done | done | by rewrite Hlen | | done | | done | |].
    { rewrite lookup_insert_ne by done. rewrite Hb. f_equal. simpl.
      rewrite app_assoc, <- fmap_app. by rewrite take_drop. }
    { rewrite lookup_insert_eq. f_equal. simpl. rewrite Hlen.
      rewrite <- replicate_add. f_equal. lia. }
    2: { intros Hcp Hcf w'.
         eapply RawMemory_dtor_spec; [lk | right; eexists _, _; split; [done|lk] |].
         ssimpl. rewrite !delete_insert_id by done. apply HR. right. split; [done|].
         destruct Hcf as (x & w1 & Hin & Hf). exists x, w1. split; [|done].
         rewrite <- (take_drop k xs). apply elem_of_app. by left. }
    intros w3 xs' ys Hl Hcp Hys. simpl app.
    wp_bind. apply wpx_liftH. ssimpl.
    replace n with (length (xs' ++ drop k xs)).
    2: { rewrite length_app, Hl, Hlen, length_drop. fold n. lia. }
    eapply (destroy_n_spec u E a (xs' ++ drop k xs) [] (replicate (cap - n) None));
      [ | done | ].
    { rewrite lookup_insert_ne by done. rewrite lookup_insert_eq. f_equal. lnorm.
      do 3 f_equal. rewrite length_app, Hl, Hlen, length_drop. fold n. lia. }
    intros w4.
    eapply RawMemory_Swap_spec; [congruence|lk|lk|].
    eapply RawMemory_dtor_spec; [lk | right; eexists _, _; split; [done|lk] |].
    ssimpl.
    specialize (HQ w4 b' ys Hb' Hys).
    match goal with |- Q _ (State (HState _ ?m) ?r _) =>
      match type of HQ with Q _ (State (HState _ ?m') ?r' _) =>
        replace m with m'; [replace r with r'|] end end; [done| |].
    + map_ext.
    + map_ext.
  - assert (cap = 0) by done. assert (n = 0) by lia.
    assert (Hxs : xs = []) by (by destruct xs).
    assert (k = 0) by lia.
    wp_bind. apply wpx_liftH. ssimpl.
    apply UninitializedMoveOrCopy_zero; [done|].
    wp_bind. apply wpx_liftH. ssimpl. replace n with 0 by lia. apply wpx_ret.
    eapply RawMemory_Swap_spec; [congruence|lk|lk|].
    eapply RawMemory_dtor_spec; [lk | by left |].
    ssimpl.
    specialize (HQ w2 b' [] Hb'). rewrite Hxs, take_nil in HQ.
    specialize (HQ ltac:(constructor)).
    match goal with |- Q _ (State (HState _ ?m) ?r _) =>
      match type of HQ with Q _ (State (HState _ ?m') ?r' _) =>
        replace m with m'; [replace r with r'|] end end; [done| |].
    + map_ext.
    + simpl. by replace (new_capacity - k) with new_capacity by lia.
Qed.

End Reserve.

(** ** Copy construction, destruction, copy assignment *)

Section Copy.
Variable u : Prop.
Context {T W : Type}.
Variable E : Env T W.
Hypothesis HE : Regular E.
Implicit Types (w : W) (hp : gmap nat (list (option T))).
Implicit Types (rw : gmap nat RawMemory) (vs : gmap nat nat).
Implicit Types (s : state T W) (h : hstate T W) (xs : list T).

Lemma Regular_copied xs ys :
  Forall2 (fun x y => exists w1, (copy_ctor E x w1).2 = Some y) xs ys -> ys = xs.
Proof.
  intros H. induction H as [|x y xs ys [w Hw] _ IH]; [done|].
  rewrite (reg_copy E HE) in Hw. congruence.
Qed.

(** Copy construction of [this] from [other] *)
Lemma Vector_copy_spec this other b cap xs w hp rw vs (Q : unit -> _ -> Prop) R :
  vec_rep (State (HState w hp) rw vs) other b cap xs ->
  this <> other ->
  (forall w' b' hp',
     match b' with
     | Some blk => hp !! blk = None /\ hp' = <[blk := Some <$> xs]> hp
     | None => xs = [] /\ hp' = hp
     end ->
     Q tt (State (HState w' hp') (<[this := mkRawMemory b' (length xs)]> rw)
             (<[this := length xs]> vs))) ->
  wpx u (Vector_copy E this other) (State (HState w hp) rw vs) Q R.
Proof.
  intros Hrep Hne HQ.
  pose proof Hrep as [Hr Hs Hb Hle]. simpl in Hr, Hs, Hb.
  unfold Vector_copy.
  wp_bind. eapply wpx_get_size; [lk|].
  wp_bind. apply RawMemory_ctor_spec.
  - intros Hn. wp_bind. apply wpx_modify. ssimpl.
    apply wpx_try_catch.
    wp_bind. eapply RawMemory_GetAddress_spec; [lk|]. ssimpl.
    wp_bind. eapply wpx_get_size; [lk|].
    wp_bind. eapply RawMemory_GetAddress_spec; [lk|]. ssimpl.
    apply wpx_liftH. ssimpl. rewrite Hn. apply wpx_ret.
    rewrite <- Hn. apply (HQ w None hp). split; [by destruct xs|done].
  - intros Hn _ b' Hb'. wp_bind. apply wpx_modify. ssimpl.
    destruct b as [a|]; [|lia].
    assert (a <> b') by congruence.
    apply wpx_try_catch.
    wp_bind. eapply RawMemory_GetAddress_spec; [lk|]. ssimpl.
    wp_bind. eapply wpx_get_size; [lk|].
    wp_bind. eapply RawMemory_GetAddress_spec; [lk|]. ssimpl.
    apply wpx_liftH. ssimpl.
    eapply (uninitialized_copy_n_spec u E a b' 0 0 xs [] (replicate (cap - length xs) None) [] []);
      [done | | done | | done | |].
    + by rewrite lookup_insert_ne.
    + rewrite lookup_insert_eq. by rewrite app_nil_r.
    + intros w' ys Hys. apply Regular_copied in Hys. subst ys.
      rewrite insert_insert_eq. simpl. rewrite app_nil_r.
      apply (HQ w' (Some b')). done.
    + intros w' Hcf. by apply (Regular_not_copy_fails E HE) in Hcf.
  - intros _ Hf. by rewrite (reg_new E HE) in Hf.
Qed.

(** Destruction *)
Lemma Vector_dtor_spec this b cap xs w hp rw vs (Q : unit -> _ -> Prop) R :
  vec_rep (State (HState w hp) rw vs) this b cap xs ->
  (forall w',
     Q tt (State (HState w' (match b with Some a => delete a hp | None => hp end))
             (delete this rw) (delete this vs))) ->
  wpx u (Vector_dtor E this) (State (HState w hp) rw vs) Q R.
Proof.
  intros Hrep HQ.
  pose proof Hrep as [Hr Hs Hb Hle]. simpl in Hr, Hs, Hb.
  unfold Vector_dtor.
  wp_bind. eapply RawMemory_GetAddress_spec; [lk|]. ssimpl.
  wp_bind. eapply wpx_get_size; [lk|].
  destruct b as [a|].
  - wp_bind. apply wpx_liftH. ssimpl.
    eapply (destroy_n_spec u E a xs [] (replicate (cap - length xs) None)); [done|done|].
    intros w'. unfold destroy_members.
    wp_bind. apply wpx_modify. ssimpl.
    eapply RawMemory_dtor_spec; [lk | right; eexists _, _; split; [done|lk] |].
    ssimpl. rewrite delete_insert_eq. apply HQ.
  - assert (Hxs : xs = []) by (destruct xs; [done|simpl in Hle; lia]).
    wp_bind. apply wpx_liftH. ssimpl. rewrite Hxs. apply wpx_ret.
    unfold destroy_members.
    wp_bind. apply wpx_modify. ssimpl.
    eapply RawMemory_dtor_spec; [lk | by left |].
    ssimpl. apply HQ.
Qed.

(** The three steps of copy assignment in place: assign over the common
    prefix, then destroy the excess or construct what is missing *)
Lemma assign_in_place_spec {A} at' ct xt br cr xr w hp rw vs (k : M (state T W) A)
    (Q : A -> _ -> Prop) R :
  hp !! at' = Some ((Some <$> xt) ++ replicate (ct - length xt) None) ->
  match br with
  | Some ar => ar <> at' /\ hp !! ar = Some ((Some <$> xr) ++ replicate (cr - length xr) None)
  | None => xr = []
  end ->
  length xr <= ct -> length xt <= ct ->
  (forall w', wpx u k (State (HState w'
       (<[at' := (Some <$> xr) ++ replicate (ct - length xr) None]> hp)) rw vs) Q R) ->
  wpx u (liftH (copy_n E (br, 0) (length xt `min` length xr) (Some at', 0)) ;;
         (if decide (length xr < length xt)
          then liftH (destroy_n E ((Some at', 0) +ₚ length xr) (length xt - length xr))
          else liftH (uninitialized_copy_n E ((br, 0) +ₚ length xt) (length xr - length xt)
                 ((Some at', 0) +ₚ length xt))) ;;
         k)
      (State (HState w hp) rw vs) Q R.
Proof.
  intros Hat Hbr Hrn Hn HQ.
  set (n := length xt) in *. set (rn := length xr) in *.
  destruct br as [ar|].
  - destruct Hbr as [Hne Har].
    set (m := n `min` rn).
    assert (Hlm : length (take m xr) = m) by (rewrite length_take; lia).
    wp_bind. apply wpx_liftH. ssimpl.
    replace m with (length (take m xr)) at 1 by done.
    eapply (copy_n_spec u E ar at' (take m xr) (take m xt) []
              ((Some <$> drop m xr) ++ replicate (cr - rn) None) []
              ((Some <$> drop m xt) ++ replicate (ct - n) None));
      [done | done | rewrite !length_take; lia | | done | | done |].
    { rewrite Har. f_equal. simpl. rewrite app_assoc, <- fmap_app. by rewrite take_drop. }
    { rewrite Hat. f_equal. simpl. rewrite app_assoc, <- fmap_app. by rewrite take_drop. }
    intros w1. simpl app. ssimpl.
    wp_bind. case_decide as Hlt.
    + assert (m = rn) by lia.
      apply wpx_liftH. ssimpl.
      replace (n - rn) with (length (drop rn xt)) by (rewrite length_drop; lia).
      eapply (destroy_n_spec u E at' (drop rn xt) (Some <$> xr) (replicate (ct - n) None));
        [ | solve_len | ].
      { rewrite lookup_insert_eq. f_equal.
        replace m with rn by lia. by rewrite take_ge by (unfold rn; lia). }
      intros w2. rewrite insert_insert_eq.
      specialize (HQ w2).
      replace ((Some <$> xr) ++ replicate (length (drop rn xt)) None ++ replicate (ct - n) None)
        with ((Some <$> xr) ++ replicate (ct - rn) None); [done|].
      f_equal. rewrite <- replicate_add. f_equal. rewrite length_drop. lia.
    + assert (Hm : m = n) by lia.
      apply wpx_liftH. ssimpl.
      replace (rn - n) with (length (drop n xr)) by (rewrite length_drop; lia).
      eapply (uninitialized_copy_n_spec u E ar at' (0 + n) (0 + n) (drop n xr)
                (Some <$> take n xr) (replicate (cr - rn) None)
                (Some <$> take n xr) (replicate (ct - rn) None));
        [done | | solve_len | | solve_len | |].
      * rewrite lookup_insert_ne by done. rewrite Har. f_equal.
        rewrite app_assoc, <- fmap_app. by rewrite take_drop.
      * rewrite lookup_insert_eq. f_equal. rewrite Hm.
        rewrite drop_ge by lia. simpl. f_equal.
        rewrite <- replicate_add. f_equal. rewrite length_drop. lia.
      * intros w2 ys Hys. apply Regular_copied in Hys. subst ys.
        rewrite insert_insert_eq. specialize (HQ w2).
        by rewrite app_assoc, <- fmap_app, take_drop.
      * intros w' Hcf. by apply (Regular_not_copy_fails E HE) in Hcf.
  - assert (rn = 0) by (unfold rn; by rewrite Hbr).
    replace (n `min` rn) with 0 by lia.
    wp_bind. apply wpx_liftH. apply wpx_ret. ssimpl.
    wp_bind. case_decide as Hlt.
    + apply wpx_liftH. ssimpl. replace (0 + rn) with 0 by lia.
      replace (n - rn) with (length xt) by (unfold n; lia).
      eapply (destroy_n_spec u E at' xt [] (replicate (ct - n) None)); [done|done|].
      intros w2. specialize (HQ w2). rewrite Hbr in HQ. simpl in *.
      replace (ct - rn) with (n + (ct - n)) in HQ by lia.
      by rewrite replicate_add in HQ.
    + replace (rn - n) with 0 by lia. apply wpx_liftH. apply wpx_ret. ssimpl.
      specialize (HQ w). rewrite insert_id in HQ; [done|].
      rewrite Hat. f_equal. rewrite Hbr.
      assert (Hxt : xt = []) by (apply nil_length_inv; fold n; lia).
      f_equal; [by rewrite Hxt | f_equal; lia].
Qed.

(** Copy assignment between two vectors *)
Lemma Vector_copy_assign_spec this rhs bt ct xt br cr xr w hp rw vs
    (Q : unit -> _ -> Prop) R :
  this <> rhs ->
  vec_rep (State (HState w hp) rw vs) this bt ct xt ->
  vec_rep (State (HState w hp) rw vs) rhs br cr xr ->
  (forall blk, bt = Some blk -> br <> Some blk) ->
  (forall s' b' c',
     vec_rep s' this b' c' xr ->
     vec_rep s' rhs br cr xr ->
     (ct < length xr ->
        c' = length xr /\ (forall blk, b' = Some blk -> hp !! blk = None)) ->
     (length xr <= ct -> b' = bt /\ c' = ct) ->
     raw s' = <[this := mkRawMemory b' c']> rw ->
     vsize s' = <[this := length xr]> vs ->
     Q tt s') ->
  wpx u (Vector_copy_assign E this rhs) (State (HState w hp) rw vs) Q R.
Proof.
  intros Hne Hthis Hrhs Hdisj HQ.
  pose proof Hthis as [Htr Hts Htb Htle]. simpl in Htr, Hts, Htb.
  pose proof Hrhs as [Hrr Hrs Hrb Hrle]. simpl in Hrr, Hrs, Hrb.
  unfold Vector_copy_assign. rewrite decide_True by done.
  wp_bind. eapply wpx_get_size; [lk|].
  wp_bind. unfold RawMemory_Capacity. eapply wpx_get_capacity; [lk|]. ssimpl.
  case_decide as Hbig.
  - (* a copy, swapped in *)
    wp_bind. apply wpx_fresh_object. ssimpl. intros tmp Htmp1 Htmp2.
    assert (tmp <> this) by congruence. assert (tmp <> rhs) by congruence.
    wp_bind. eapply Vector_copy_spec; [done|done|].
    intros w' b' hp' Hb'.
    apply wpx_finally.
    eapply Swap_spec; [lk|lk|lk|lk|].
    assert (Hold : match bt with
                   | Some a => hp' !! a = Some ((Some <$> xt) ++ replicate (ct - length xt) None)
                   | None => ct = 0
                   end).
    { destruct bt as [a|]; [|done]. destruct b' as [blk|].
      - destruct Hb' as [Hfresh ->]. rewrite lookup_insert_ne by congruence. done.
      - by destruct Hb' as [_ ->]. }
    eapply (Vector_dtor_spec tmp bt ct xt).
    { split; simpl; [lk|lk|done|done]. }
    intros w''.
    eapply (HQ _ b' (length xr)).
    + split; simpl; [lk|lk| |lia].
      destruct b' as [blk|]; [|by destruct Hb' as [-> _]].
      destruct Hb' as [Hfresh ->].
      rewrite Nat.sub_diag. simpl. rewrite app_nil_r.
      destruct bt as [a|]; [|lk].
      rewrite lookup_delete_ne by congruence. lk.
    + split; simpl; [lk|lk| |done].
      destruct br as [ar|]; [|done].
      assert (hp' !! ar = hp !! ar) as Hsame.
      { destruct b' as [blk|].
        - destruct Hb' as [Hfresh ->]. rewrite lookup_insert_ne by congruence. done.
        - by destruct Hb' as [_ ->]. }
      destruct bt as [a|]; [|by rewrite Hsame].
      rewrite lookup_delete_ne; [by rewrite Hsame|]. intros ->. by eapply Hdisj.
    + intros _. split; [done|]. intros blk ->. by destruct Hb'.
    + intros Hle. lia.
    + simpl. map_ext.
    + simpl. map_ext.
  - (* in place *)
    wp_bind. eapply RawMemory_GetAddress_spec; [lk|]. ssimpl.
    wp_bind. eapply wpx_get_size; [lk|].
    wp_bind. eapply RawMemory_GetAddress_spec; [lk|]. ssimpl.
    assert (Hrhs' : forall w' hp',
              match br with Some ar => hp' !! ar = hp !! ar | None => True end ->
              vec_rep (State (HState w' hp') rw
                         (<[this := length xr]> vs)) rhs br cr xr).
    { intros w' hp' Hsame. split; simpl; [lk|lk| |done].
      destruct br as [ar|]; [|done]. by rewrite Hsame. }
    destruct bt as [at'|].
    + assert (Hbr : match br with
                    | Some ar => ar <> at' /\
                        hp !! ar = Some ((Some <$> xr) ++ replicate (cr - length xr) None)
                    | None => xr = []
                    end).
      { destruct br as [ar|].
        - split; [|done]. intros ->. by eapply Hdisj.
        - destruct xr; [done|simpl in *; lia]. }
      eapply assign_in_place_spec; [done|done|lia|done|].
      intros w1.
      eapply wpx_set_size; [lk|]. ssimpl.
      eapply (HQ _ (Some at') ct).
      * split; simpl; [lk|lk|by rewrite lookup_insert_eq|lia].
      * apply Hrhs'. destruct br as [ar|]; [|done].
        destruct Hbr as [Hn' _]. by rewrite lookup_insert_ne.
      * intros ?. lia.
      * done.
      * simpl. by rewrite insert_id.
      * done.
    + (* no buffer: both vectors are empty *)
      assert (ct = 0) by done.
      assert (Hlr : length xr = 0) by lia. assert (Hlt : length xt = 0) by lia.
      replace (length xt `min` length xr) with 0 by lia.
      wp_bind. apply wpx_liftH. apply wpx_ret. ssimpl.
      wp_bind. rewrite decide_False by lia.
      replace (length xr - length xt) with 0 by lia.
      apply wpx_liftH. apply wpx_ret. ssimpl.
      eapply wpx_set_size; [lk|]. ssimpl.
      eapply (HQ _ None ct).
      * split; simpl; [lk|by rewrite lookup_insert_eq|done|lia].
      * apply Hrhs'. by destruct br.
      * intros ?. lia.
      * done.
      * simpl. by rewrite insert_id.
      * done.
Qed.

End Copy.

(** ** Sequences of PushBack *)

Section Push.
Variable u : Prop.
Context {T W : Type}.
Variable E : Env T W.
Hypothesis HE : Regular E.
Implicit Types (w : W) (hp : gmap nat (list (option T))).
Implicit Types (rw : gmap nat RawMemory) (vs : gmap nat nat).
Implicit Types (s : state T W) (h : hstate T W) (xs : list T).

Lemma forward_ctor_regular v w : (forward_ctor E v w).2 = Some (forwarded_value v).
Proof.
  destruct v as [x|x]; simpl.
  - apply (reg_copy E HE).
  - apply (reg_move E HE).
Qed.

Lemma doubling_capacity_step n cap :
  doubling_capacity n cap ->
  doubling_capacity (n + 1) (if decide (n = cap) then 1 `max` (2 * cap) else cap).
Proof.
  intros [[-> ->]|(k & -> & Hle & Hlt)].
  - rewrite decide_True by done. right. exists 0. simpl. lia.
  - right. case_decide as Hfull.
    + exists (S k). rewrite Nat.pow_succ_r'. lia.
    + exists k. lia.
Qed.

Lemma PushBack_regular_spec this b cap xs v s (Q : unit -> _ -> Prop) R :
  vec_rep s this b cap xs ->
  (Z.of_nat (length xs) < 2147483648)%Z ->
  (forall s' b',
     vec_rep s' this b' (if decide (length xs = cap) then 1 `max` (2 * cap) else cap)
       (xs ++ [forwarded_value v]) ->
     Q tt s') ->
  wpx u (PushBack E this v) s Q R.
Proof.
  intros Hrep Hsmall HQ. destruct s as [[w hp] rw vs].
  pose proof Hrep as [Hr Hs Hb Hle]. simpl in Hr, Hs, Hb.
  assert (Hxs : take (length xs) xs ++ forwarded_value v :: drop (length xs) xs
                = xs ++ [forwarded_value v]).
  { by rewrite firstn_all, drop_all. }
  unfold PushBack, EmplaceBack.
  wp_bind. wp_bind. eapply wpx_end; [lk|lk|]. ssimpl.
  change (0 + length xs) with (length xs).
  destruct (decide (length xs = cap)) as [Hfull|Hroom].
  - subst cap.
    eapply Emplace_full_regular_spec; try done.
    { apply forward_ctor_regular. }
    intros w' b' s' Hb' _ Hrep'. apply wpx_ret.
    rewrite Hxs in Hrep'. by eapply HQ.
  - eapply Emplace_room_spec; try done.
    { lia. }
    { apply forward_ctor_regular. }
    intros w' s' _ Hrep'. apply wpx_ret.
    rewrite Hxs in Hrep'. by eapply HQ.
Qed.

Lemma PushBack_all_spec this vals :
  forall s b cap xs (Q : unit -> _ -> Prop) R,
    vec_rep s this b cap xs ->
    (Z.of_nat (length xs + length vals) <= 2147483648)%Z ->
    doubling_capacity (length xs) cap ->
    (forall s' b' cap',
       vec_rep s' this b' cap' (xs ++ (forwarded_value <$> vals)) ->
       doubling_capacity (length xs + length vals) cap' ->
       Q tt s') ->
    wpx u (PushBack_all E this vals) s Q R.
Proof.
  induction vals as [|v vals IH]; intros s b cap xs Q R Hrep Hsmall Hcap HQ.
  - simpl. apply wpx_ret. eapply HQ.
    + by rewrite app_nil_r.
    + by rewrite Nat.add_0_r.
  - simpl. wp_bind. simpl in Hsmall.
    eapply PushBack_regular_spec; [done|lia|].
    intros s' b' Hrep'.
    eapply IH; [exact Hrep'| | |].
    + rewrite length_app. simpl. lia.
    + rewrite length_app. simpl. by apply doubling_capacity_step.
    + intros s'' b'' cap'' Hrep'' Hcap''. eapply HQ.
      * rewrite <- app_assoc in Hrep''. exact Hrep''.
      * rewrite length_app in Hcap''. simpl in *.
        by replace (length xs + S (length vals)) with (length xs + 1 + length vals) by lia.
Qed.

Lemma Vector_default_spec this s :
  exists s', @Vector_default T W this s = Ret tt s' /\ vec_rep s' this None 0 [] /\
             mem s' = mem s.
Proof.
  eexists. split; [reflexivity|]. split; [|done].
  split; simpl; [by rewrite lookup_insert_eq..|done|done].
Qed.

Lemma PushBack_all_app this vals1 vals2 s :
  PushBack_all E this (vals1 ++ vals2) s
  = (PushBack_all E this vals1 ;; PushBack_all E this vals2) s.
Proof.
  revert s. induction vals1 as [|v vals1 IH]; intros s; simpl.
  - done.
  - unfold bind. destruct (PushBack E this v s) as [[] s1|s1|]; [|done..].
    rewrite IH. done.
Qed.

End Push.

(** ** Undefined behaviour on raw slots *)

Section Undefined.
Context {T W : Type}.
Variable E : Env T W.
Implicit Types (s : state T W).

Lemma wpx_undefined {S A} (m : M S A) (s : S) :
  wpx True m s (fun _ _ => False) (fun _ => False) -> m s = Undef.
Proof. unfold wpx. by destruct (m s). Qed.

(** Reading a raw slot through [operator[]] *)
Lemma at_raw_Undef s this r n i blk buf :
  raw s !! this = Some r -> vsize s !! this = Some n ->
  i < n -> i < capacity_ r ->
  buffer_ r = Some blk ->
  heap (mem s) !! blk = Some buf -> buf !! i = Some None ->
  at_ this i s = Undef.
Proof.
  intros Hr Hn Hi Hc Hb Hbuf Hsl. apply wpx_undefined.
  unfold at_.
  wp_bind. eapply wpx_get_size; [done|].
  wp_bind. apply wpx_assert; [done|].
  wp_bind. eapply RawMemory_index_spec; [done..|].
  apply wpx_liftH. rewrite Hb. unfold read.
  wp_bind. destruct s as [[w hp] rw vs]. simpl in *.
  eapply wpx_load_slot; [done..|]. done.
Qed.

(** Erasing an element whose successor slot is raw *)
Lemma Erase_raw_next_Undef s this r n d blk buf x :
  raw s !! this = Some r -> vsize s !! this = Some n ->
  S d < n -> d <= capacity_ r ->
  buffer_ r = Some blk ->
  heap (mem s) !! blk = Some buf ->
  buf !! d = Some (Some x) -> buf !! (S d) = Some None ->
  Erase E this (Some blk, d) s = Undef.
Proof.
  intros Hr Hn Hd Hc Hb Hbuf Hx Hnext. apply wpx_undefined.
  destruct s as [[w hp] rw vs]. simpl in *.
  unfold Erase.
  wp_bind. unfold begin. eapply RawMemory_GetAddress_spec; [done|]. rewrite Hb.
  wp_bind. apply wpx_liftH. apply wpx_std_distance. ssimpl.
  wp_bind. eapply RawMemory_GetAddress_spec; [done|]. rewrite Hb.
  wp_bind. eapply wpx_end; [done|done|]. rewrite Hb. ssimpl.
  wp_bind. apply wpx_liftH. ssimpl. unfold std_move. ssimpl.
  rewrite decide_True by (split; [done|lia]).
  replace (0 + n - (0 + d + 1)) with (S (n - d - 2)) by lia.
  cbn [move_loop]. wp_bind. unfold move_assign_at.
  replace (0 + d + 1) with (S d) by lia. replace (0 + d) with d by lia.
  wp_bind. eapply wpx_read; [done..|].
  wp_bind. unfold read. wp_bind. eapply wpx_load_slot; [done..|]. done.
Qed.

End Undefined.

(** * Properties of the container *)

Section Properties.
Context {T W : Type}.
Variable E : Env T W.
Implicit Types (w : W) (hp : gmap nat (list (option T))).
Implicit Types (rw : gmap nat RawMemory) (vs : gmap nat nat).
Implicit Types (s : state T W) (h : hstate T W) (xs : list T).

(** C10. [a.Swap(b)] returns normally and exchanges the two vectors: [a]
    then has the buffer, capacity, size and elements [b] had, and [b] has
    those of [a]; nothing else changes, and a second [Swap] gives back the
    state before the first. *)
Theorem Swap_exchanges s a b ba ca xa bb cb xb :
  vec_rep s a ba ca xa ->
  vec_rep s b bb cb xb ->
  exists s',
    Swap a b s = Ret tt s' /\
    vec_rep s' a bb cb xb /\ vec_rep s' b ba ca xa /\
    Size a s' = Ret (length xb) s' /\ Capacity a s' = Ret cb s' /\
    Size b s' = Ret (length xa) s' /\ Capacity b s' = Ret ca s' /\
    mem s' = mem s /\
    Swap a b s' = Ret tt s.
Proof.
  intros Ha Hb. destruct s as [[w hp] rw vs].
  pose proof Ha as [Har Has Hab Hale]. pose proof Hb as [Hbr Hbs Hbb Hble].
  simpl in *.
  set (s1 := State (HState w hp)
               (<[b := mkRawMemory ba ca]> (<[a := mkRawMemory bb cb]> rw))
               (<[b := length xa]> (<[a := length xb]> vs))).
  assert (H1 : Swap a b (State (HState w hp) rw vs) = Ret tt s1).
  { assert (Hwp : wpx False (Swap a b) (State (HState w hp) rw vs)
                    (fun _ s' => s' = s1) (fun _ => False)).
    { eapply Swap_spec; done. }
    apply wpx_returns in Hwp as ([] & s' & -> & ->). done. }
  assert (Ha' : vec_rep s1 a bb cb xb).
  { destruct (decide (a = b)) as [->|Hne].
    - assert (ba = bb /\ ca = cb /\ length xa = length xb) as (-> & -> & Hl)
        by (split_and!; congruence).
      split; simpl; [lk| rewrite Hl; lk | done | done].
    - split; simpl; [lk|lk|done|done]. }
  assert (Hb' : vec_rep s1 b ba ca xa).
  { split; simpl; [lk|lk|done|done]. }
  exists s1. split_and!; try done.
  - by eapply Size_spec.
  - by eapply Capacity_spec.
  - by eapply Size_spec.
  - by eapply Capacity_spec.
  - assert (Hwp : wpx False (Swap a b) s1
                    (fun _ s' => s' = State (HState w hp) rw vs) (fun _ => False)).
    { eapply Swap_spec; [apply Ha' | apply Hb' | apply Ha' | apply Hb' |].
      f_equal; map_ext. }
    apply wpx_returns in Hwp as ([] & s' & -> & ->). done.
Qed.

(** X24. Move assignment of a vector to itself changes nothing: [RawMemory]'s
    operator tests for it, and [size_] is exchanged with itself. *)
Lemma move_assign_self s a b cap xs :
  vec_rep s a b cap xs -> Vector_move_assign a a s = Ret tt s.
Proof.
  intros [Hr Hs _ _]. destruct s as [[w hp] rw vs]. simpl in *.
  assert (Hwp : wpx False (Vector_move_assign a a) (State (HState w hp) rw vs)
            (fun _ s' => s' = State (HState w hp) rw vs) (fun _ => False)).
  { unfold Vector_move_assign.
    wp_bind. apply RawMemory_move_assign_self.
    wp_bind. eapply wpx_get_size; [lk|].
    wp_bind. eapply wpx_set_size; [lk|]. simpl.
    eapply wpx_set_size; [lk|]. simpl. f_equal. map_ext. }
  apply wpx_returns in Hwp as ([] & s' & -> & ->). done.
Qed.

(** C4. Move construction of [this] from [a], and move assignment of [a]
    to another vector [this], return normally; afterwards [a] is empty, with
    no buffer, size 0 and capacity 0, and [this] owns the buffer [a] owned,
    with the capacity, the size and the elements [a] had. *)
Theorem move_empties_source s this a b cap xs :
  vec_rep s a b cap xs ->
  (unused s this ->
   exists s',
     Vector_move this a s = Ret tt s' /\
     vec_rep s' this b cap xs /\ vec_rep s' a None 0 [] /\
     Size a s' = Ret 0 s' /\ Capacity a s' = Ret 0 s') /\
  (forall b0 cap0 xs0,
     this <> a ->
     vec_rep s this b0 cap0 xs0 ->
     (forall blk, b0 = Some blk -> b <> Some blk) ->
     exists s',
       Vector_move_assign this a s = Ret tt s' /\
       vec_rep s' this b cap xs /\ vec_rep s' a None 0 [] /\
       Size a s' = Ret 0 s' /\ Capacity a s' = Ret 0 s').
Proof.
  intros Ha. destruct s as [[w hp] rw vs].
  pose proof Ha as [Har Has Hab Hale]. simpl in *.
  split.
  - intros [Hu1 Hu2]. simpl in *.
    assert (this <> a) by congruence.
    set (s1 := State (HState w hp)
                 (<[this := mkRawMemory b cap]> (<[a := mkRawMemory None 0]>
                    (<[this := mkRawMemory None 0]> rw)))
                 (<[this := length xs]> (<[a := 0]> (<[this := 0]> vs)))).
    assert (H1 : Vector_move this a (State (HState w hp) rw vs) = Ret tt s1).
    { assert (Hwp : wpx False (Vector_move this a) (State (HState w hp) rw vs)
                      (fun _ s' => s' = s1) (fun _ => False)).
      { unfold Vector_move, Vector_default.
        wp_bind. wp_bind. apply wpx_modify. apply wpx_modify. simpl.
        wp_bind. eapply RawMemory_move_assign_spec; [done|lk|lk|by left|]. simpl.
        wp_bind. eapply wpx_get_size; [lk|].
        wp_bind. eapply wpx_set_size; [lk|]. simpl.
        eapply wpx_set_size; [lk|]. done. }
      apply wpx_returns in Hwp as ([] & s' & -> & ->). done. }
    assert (Ha' : vec_rep s1 a None 0 []) by (split; simpl; [lk|lk|done|done]).
    exists s1. split_and!; try done.
    + split; simpl; [lk|lk| |done]. destruct b; done.
    + by eapply Size_spec in Ha'.
    + by eapply Capacity_spec in Ha'.
  - intros b0 cap0 xs0 Hne Hthis Hdisj.
    pose proof Hthis as [Htr Hts Htb Htle]. simpl in *.
    set (s1 := State (HState w (match b0 with Some blk => delete blk hp | None => hp end))
                 (<[this := mkRawMemory b cap]> (<[a := mkRawMemory None 0]> rw))
                 (<[this := length xs]> (<[a := 0]> vs))).
    assert (H1 : Vector_move_assign this a (State (HState w hp) rw vs) = Ret tt s1).
    { assert (Hwp : wpx False (Vector_move_assign this a) (State (HState w hp) rw vs)
                      (fun _ s' => s' = s1) (fun _ => False)).
      { unfold Vector_move_assign.
        wp_bind. eapply RawMemory_move_assign_spec; [done|lk|lk| |].
        { simpl. destruct b0; eauto. }
        simpl.
        wp_bind. eapply wpx_get_size; [lk|].
        wp_bind. eapply wpx_set_size; [lk|]. simpl.
        eapply wpx_set_size; [lk|]. done. }
      apply wpx_returns in Hwp as ([] & s' & -> & ->). done. }
    assert (Ha' : vec_rep s1 a None 0 []) by (split; simpl; [lk|lk|done|done]).
    exists s1. split_and!; try done.
    + split; simpl; [lk|lk| |done].
      destruct b as [blk|]; [|done].
      destruct b0 as [blk0|]; [|done].
      rewrite lookup_delete_ne; [done|]. intros ->. by eapply Hdisj.
    + by eapply Size_spec in Ha'.
    + by eapply Capacity_spec in Ha'.
Qed.

(** C3. On a vector whose size equals its capacity [n], an insertion
    ([Emplace], [Insert], [EmplaceBack], [PushBack]) that returns leaves the
    capacity [max 1 (2 * n)], whatever the element type. *)
Theorem insertion_on_full_doubles s this n :
  Size this s = Ret n s ->
  Capacity this s = Ret n s ->
  (forall pos ctor p s',
     Emplace E this pos ctor s = Ret p s' ->
     Capacity this s' = Ret (1 `max` (2 * n)) s') /\
  (forall pos v p s',
     Insert E this pos v s = Ret p s' ->
     Capacity this s' = Ret (1 `max` (2 * n)) s') /\
  (forall ctor p s',
     EmplaceBack E this ctor s = Ret p s' ->
     Capacity this s' = Ret (1 `max` (2 * n)) s') /\
  (forall v s',
     PushBack E this v s = Ret tt s' ->
     Capacity this s' = Ret (1 `max` (2 * n)) s').
Proof.
  intros Hs Hc.
  unfold Size, get_size in Hs. destruct (vsize s !! this) as [n'|] eqn:Hvs; [|done].
  assert (n' = n) by congruence. subst n'.
  unfold Capacity, RawMemory_Capacity, get_capacity in Hc.
  destruct (raw s !! this) as [r|] eqn:Hrw; [|done].
  assert (capacity_ r = n) by congruence.
  assert (HE : forall pos ctor p s',
     Emplace E this pos ctor s = Ret p s' ->
     Capacity this s' = Ret (1 `max` (2 * n)) s').
  { intros pos ctor p s' Hrun. destruct s as [h rw vs].
    exact (wpx_Ret_inv _ _ _ _ _ _ _
             (Emplace_full_capacity E this pos ctor r n h rw vs Hrw H Hvs) Hrun). }
  assert (HB : forall ctor p s',
     EmplaceBack E this ctor s = Ret p s' ->
     Capacity this s' = Ret (1 `max` (2 * n)) s').
  { intros ctor p s'. unfold EmplaceBack, bind, end_, RawMemory_GetAddress, bind,
      get_buffer, get_size, ret. rewrite Hrw, Hvs. apply HE. }
  split_and!; try done.
  - intros pos v p s'. apply HE.
  - intros v s'. unfold PushBack, bind.
    destruct (EmplaceBack E this (forward_ctor E v) s) as [p s1| |] eqn:Hrun; [|done..].
    unfold ret. intros [= <-]. by eapply HB.
Qed.

(** C2. For an element type with a non-throwing move constructor or a copy
    constructor: if an insertion ([Emplace], [Insert], [PushBack]) into a
    full vector, which reallocates, throws, then the call leaves the state
    it found but for the world: same buffer, size, capacity and elements.
    Below 2^31 elements the call has defined behaviour. *)
Theorem realloc_insertion_rolls_back s this b xs d ctor :
  vec_rep s this b (length xs) xs ->
  d <= length xs ->
  nothrow_move_sound E ->
  is_nothrow_move_constructible E || is_copy_constructible E = true ->
  (forall s', Emplace E this (b, d) ctor s = Throw s' ->
     s' = with_world (world (mem s')) s /\
     vec_rep s' this b (length xs) xs /\
     Size this s' = Ret (length xs) s' /\
     Capacity this s' = Ret (length xs) s') /\
  (forall v s', Insert E this (b, d) v s = Throw s' ->
     s' = with_world (world (mem s')) s /\
     vec_rep s' this b (length xs) xs /\
     Size this s' = Ret (length xs) s' /\
     Capacity this s' = Ret (length xs) s') /\
  (forall v s', PushBack E this v s = Throw s' ->
     s' = with_world (world (mem s')) s /\
     vec_rep s' this b (length xs) xs /\
     Size this s' = Ret (length xs) s' /\
     Capacity this s' = Ret (length xs) s') /\
  ((Z.of_nat (length xs) < 2147483648)%Z ->
     Emplace E this (b, d) ctor s <> Undef).
Proof.
  intros Hrep Hd Hsound Hflags.
  pose proof (sound_transfer_safe E Hsound Hflags) as Hsafe.
  destruct s as [[w hp] rw vs].
  assert (HE : forall d ctor s', d <= length xs ->
     Emplace E this (b, d) ctor (State (HState w hp) rw vs) = Throw s' ->
     s' = with_world (world (mem s')) (State (HState w hp) rw vs) /\
     vec_rep s' this b (length xs) xs /\
     Size this s' = Ret (length xs) s' /\
     Capacity this s' = Ret (length xs) s').
  { intros d' ctor' s' Hd' Hrun.
    assert (Hwp : wpx True (Emplace E this (b, d') ctor') (State (HState w hp) rw vs)
              (fun _ _ => True)
              (fun s' => s' = with_world (world (mem s')) (State (HState w hp) rw vs))).
    { eapply Emplace_full_spec; try done. }
    pose proof (wpx_Throw_inv _ _ _ _ _ _ Hwp Hrun) as Heq.
    assert (Hrep' : vec_rep s' this b (length xs) xs).
    { rewrite Heq. by apply vec_rep_with_world. }
    split_and!; try done.
    - by eapply Size_spec.
    - by eapply Capacity_spec. }
  split_and!.
  - intros s'. by apply HE.
  - intros v s'. by apply HE.
  - intros v s'. unfold PushBack, EmplaceBack. unfold bind at 1 2.
    rewrite (end_spec _ _ _ _ _ Hrep).
    destruct (Emplace E this (b, length xs) (forward_ctor E v) _) as [p s1|s1|] eqn:Hrun;
      [done| |done].
    intros [= <-]. exact (HE _ _ _ (le_n _) Hrun).
  - intros Hsmall.
    eapply (wpx_defined _ _ (fun _ _ => True) (fun _ => True)).
    eapply Emplace_full_spec; try done.
    intros Hk. exfalso. apply Hk. rewrite to_int_small by lia. lia.
Qed.

(** C7. For a regular element type, [Erase(pos)] on a valid position of a
    non-empty vector returns; the size is one less, the capacity and the
    buffer are the same, the elements before [pos] are unchanged, each
    element after [pos] has moved one slot down, and the iterator returned
    is [pos], which is [end()] when the last element was erased. *)
Theorem Erase_shifts_tail s this b cap xs d :
  Regular E ->
  vec_rep s this b cap xs ->
  d < length xs ->
  exists s',
    Erase E this (b, d) s = Ret (b, d) s' /\
    vec_rep s' this b cap (take d xs ++ drop (S d) xs) /\
    Size this s' = Ret (length xs - 1) s' /\
    Capacity this s' = Ret cap s' /\
    (forall i x, i < d -> xs !! i = Some x -> at_ this i s' = Ret x s') /\
    (forall i x, d <= i -> xs !! (S i) = Some x -> at_ this i s' = Ret x s') /\
    (S d = length xs -> end_ this s' = Ret (b, d) s').
Proof.
  intros HE Hrep Hd. destruct s as [[w hp] rw vs].
  assert (Hwp : wpx False (Erase E this (b, d)) (State (HState w hp) rw vs)
            (fun p s' => p = (b, d) /\ vec_rep s' this b cap (take d xs ++ drop (S d) xs))
            (fun _ => False)).
  { eapply Erase_spec; try done. }
  apply wpx_returns in Hwp as (p & s' & Hrun & -> & Hrep').
  assert (Hlen : length (take d xs ++ drop (S d) xs) = length xs - 1).
  { rewrite length_app, length_take, length_drop. lia. }
  exists s'. split_and!; try done.
  - rewrite <- Hlen. by eapply Size_spec.
  - by eapply Capacity_spec.
  - intros i x Hi Hx. eapply at_spec; [done|].
    rewrite lookup_app_l by (rewrite length_take; lia).
    by rewrite lookup_take_lt.
  - intros i x Hi Hx. eapply at_spec; [done|].
    rewrite lookup_app_r by (rewrite length_take; lia).
    rewrite length_take, lookup_drop. rewrite <- Hx. f_equal. lia.
  - intros Hlast. rewrite (end_spec _ _ _ _ _ Hrep'). rewrite Hlen.
    do 2 f_equal. lia.
Qed.

(** X23. [Insert] at a position and [Erase] at the iterator it returns, for
    a regular element type and fewer than 2^31 elements: both return, and
    the vector has the elements and the size it had before, whether the
    insertion reallocated or not. *)
Lemma Insert_Erase_roundtrip_small s this b cap xs d v :
  Regular E ->
  vec_rep s this b cap xs ->
  d <= length xs ->
  (Z.of_nat (length xs) < 2147483648)%Z ->
  exists p s1 s2 b' cap',
    Insert E this (b, d) v s = Ret p s1 /\
    Erase E this p s1 = Ret p s2 /\
    vec_rep s2 this b' cap' xs /\
    Size this s2 = Ret (length xs) s2.
Proof.
  intros HE Hrep Hd Hsmall. destruct s as [[w hp] rw vs].
  set (ys := take d xs ++ forwarded_value v :: drop d xs).
  assert (Hys : take d ys ++ drop (S d) ys = xs).
  { unfold ys. rewrite take_app_length' by (rewrite length_take; lia).
    rewrite cons_middle, app_assoc.
    rewrite drop_app_length' by (rewrite length_app, length_take; simpl; lia).
    apply take_drop. }
  assert (Hly : d < length ys).
  { unfold ys. rewrite length_app, length_take. simpl. lia. }
  assert (Hwp : wpx False (Insert E this (b, d) v) (State (HState w hp) rw vs)
            (fun p s1 => exists b' cap', p = (b', d) /\ vec_rep s1 this b' cap' ys)
            (fun _ => False)).
  { unfold Insert. destruct (decide (length xs = cap)) as [<-|Hroom].
    - eapply Emplace_full_regular_spec; try done.
      { by apply forward_ctor_regular. }
      intros w' b' s' _ _ Hrep'. eauto.
    - destruct Hrep as [Hr Hs Hb Hle]. eapply Emplace_room_spec; try done.
      { lia. }
      { by apply forward_ctor_regular. }
      intros w' s' _ Hrep'. eauto. }
  apply wpx_returns in Hwp as (p & s1 & Hrun1 & b' & cap' & -> & Hrep1).
  assert (Hwp : wpx False (Erase E this (b', d)) s1
            (fun p s2 => p = (b', d) /\ vec_rep s2 this b' cap' (take d ys ++ drop (S d) ys))
            (fun _ => False)).
  { destruct s1 as [[w1 hp1] rw1 vs1]. eapply Erase_spec; try done. }
  apply wpx_returns in Hwp as (p & s2 & Hrun2 & -> & Hrep2).
  rewrite Hys in Hrep2.
  exists (b', d), s1, s2, b', cap'. split_and!; try done.
  by eapply Size_spec.
Qed.

(** X25. Copy assignment within the capacity writes [size_] last: when it
    throws, whatever the element type, [size_] and the buffer are the
    ones it found. *)
Lemma copy_assign_in_place_size_last (s : state T W) this rhs bt ct xt br cr xr s' :
  this <> rhs ->
  vec_rep s this bt ct xt ->
  vec_rep s rhs br cr xr ->
  length xr <= ct ->
  Vector_copy_assign E this rhs s = Throw s' ->
  raw s' = raw s /\ vsize s' = vsize s.
Proof.
  intros Hne [Htr Hts _ _] [Hrr Hrs _ _] Hle Hrun.
  assert (Hwp : wpx True (Vector_copy_assign E this rhs) s (fun _ _ => True)
            (fun s1 => raw s1 = raw s /\ vsize s1 = vsize s)).
  { unfold Vector_copy_assign. rewrite decide_True by done.
    wp_bind. eapply wpx_get_size; [done|].
    wp_bind. unfold RawMemory_Capacity. eapply wpx_get_capacity; [done|]. cbn [capacity_].
    rewrite decide_False by lia.
    wp_bind. eapply RawMemory_GetAddress_spec; [done|].
    wp_bind. eapply wpx_get_size; [done|].
    wp_bind. eapply RawMemory_GetAddress_spec; [done|].
    wp_bind. apply wpx_liftH_frame; [|done].
    intros _ h. wp_bind.
    assert (Hset : forall h',
      wpx True (set_size this (length xr)) (State h' (raw s) (vsize s))
        (fun _ _ => True) (fun s1 : state T W => raw s1 = raw s /\ vsize s1 = vsize s)).
    { intros h'. eapply wpx_set_size; [done|]. done. }
    case_decide; (apply wpx_liftH_frame; [|done]); intros _ h'; apply Hset. }
  exact (wpx_Throw_inv _ _ _ _ _ _ Hwp Hrun).
Qed.

(** C5. For a regular element type, copy assignment [this = rhs] between
    two vectors returns; [this] then holds the elements of [rhs], and [rhs]
    is unchanged.  When [rhs] is larger than the capacity of [this], [this]
    owns a newly allocated buffer of capacity [rhs.size_]; otherwise it
    keeps its buffer and its capacity.  Self-assignment changes nothing. *)
Theorem copy_assign_copies s this rhs bt ct xt br cr xr :
  Regular E ->
  vec_rep s this bt ct xt ->
  vec_rep s rhs br cr xr ->
  (this <> rhs -> forall blk, bt = Some blk -> br <> Some blk) ->
  (this <> rhs ->
   exists s' b' c',
     Vector_copy_assign E this rhs s = Ret tt s' /\
     vec_rep s' this b' c' xr /\
     vec_rep s' rhs br cr xr /\
     Size this s' = Ret (length xr) s' /\
     (ct < length xr ->
        c' = length xr /\ (forall blk, b' = Some blk -> heap (mem s) !! blk = None)) /\
     (length xr <= ct -> b' = bt /\ c' = ct)) /\
  (this = rhs -> Vector_copy_assign E this rhs s = Ret tt s).
Proof.
  intros HE Hthis Hrhs Hdisj. split.
  - intros Hne. destruct s as [[w hp] rw vs].
    assert (Hwp : wpx False (Vector_copy_assign E this rhs) (State (HState w hp) rw vs)
              (fun _ s' => exists b' c',
                 vec_rep s' this b' c' xr /\ vec_rep s' rhs br cr xr /\
                 (ct < length xr ->
                    c' = length xr /\ (forall blk, b' = Some blk -> hp !! blk = None)) /\
                 (length xr <= ct -> b' = bt /\ c' = ct))
              (fun _ => False)).
    { eapply Vector_copy_assign_spec; try done; [by apply Hdisj|].
      intros s' b' c' H1 H2 H3 H4 _ _. eauto 10. }
    apply wpx_returns in Hwp as ([] & s' & Hrun & b' & c' & H1 & H2 & H3 & H4).
    exists s', b', c'. split_and!; try done.
    by eapply Size_spec.
  - intros ->. unfold Vector_copy_assign. by rewrite decide_False by auto.
Qed.


Lemma PushBack_sequence_small s this vals :
  Regular E ->
  (Z.of_nat (length vals) <= 2147483648)%Z ->
  exists s' b cap,
    (Vector_default this ;; PushBack_all E this vals) s = Ret tt s' /\
    vec_rep s' this b cap (forwarded_value <$> vals) /\
    doubling_capacity (length vals) cap /\
    Size this s' = Ret (length vals) s' /\
    (forall i v, vals !! i = Some v -> at_ this i s' = Ret (forwarded_value v) s').
Proof.
  intros HE Hsmall.
  destruct (Vector_default_spec this s) as (s0 & Hrun0 & Hrep0 & _).
  assert (Hwp : wpx False (PushBack_all E this vals) s0
            (fun _ s' => exists b cap,
               vec_rep s' this b cap (forwarded_value <$> vals) /\
               doubling_capacity (length vals) cap)
            (fun _ => False)).
  { eapply (PushBack_all_spec False E HE this vals s0 None 0 []); [done| | |].
    - simpl. lia.
    - by left.
    - intros s' b' cap' Hrep' Hcap'. eauto. }
  apply wpx_returns in Hwp as ([] & s' & Hrun & b & cap & Hrep & Hcap).
  exists s', b, cap. split_and!; try done.
  - unfold bind. by rewrite Hrun0.
  - erewrite Size_spec by done. by rewrite length_fmap.
  - intros i v Hv. eapply at_spec; [done|]. by rewrite list_lookup_fmap, Hv.
Qed.

End Properties.

(** * Instances *)

(** ** 2^31 elements *)


Lemma two31_Z : Z.of_nat two31 = 2147483648%Z.
Proof. unfold two31. by rewrite Z2Nat.id. Qed.

Lemma two31_pos : 0 < two31.
Proof. pose proof two31_Z. lia. Qed.

Global Opaque two31.

Lemma to_int_two31 : Z.to_nat (to_int (Z.of_nat two31)) = 0.
Proof. rewrite two31_Z. reflexivity. Qed.

Lemma Regular_int_env : Regular int_env.
Proof. by split. Qed.

Lemma doubling_capacity_two31 cap : doubling_capacity two31 cap -> cap = two31.
Proof.
  intros [[H _]|(k & -> & Hle & Hlt)].
  - pose proof two31_pos. lia.
  - pose proof two31_Z as HZ.
    assert (Hk : Z.of_nat (2 ^ k) = (2 ^ Z.of_nat k)%Z) by (by rewrite Nat2Z.inj_pow).
    assert (H1 : (2 ^ 31 <= 2 ^ Z.of_nat k)%Z) by (change (2 ^ 31)%Z with 2147483648%Z; lia).
    assert (H2 : (2 ^ Z.of_nat k < 2 ^ 32)%Z) by (change (2 ^ 32)%Z with 4294967296%Z; lia).
    apply Z.pow_le_mono_r_iff in H1; [|lia..].
    apply Z.pow_lt_mono_r_iff in H2; [|lia..].
    assert (Z.of_nat k = 31%Z) as Hk31 by lia.
    rewrite Hk31 in Hk. change (2 ^ 31)%Z with 2147483648%Z in Hk. lia.
Qed.

Lemma huge_int_vector_rep :
  vec_rep huge_int_vector 0 (Some 1) two31 (replicate two31 0%Z).
Proof.
  split; unfold huge_int_vector; cbn [raw vsize mem heap].
  - apply lookup_singleton_eq.
  - rewrite length_replicate. apply lookup_singleton_eq.
  - rewrite lookup_singleton_eq, length_replicate, Nat.sub_diag, fmap_replicate.
    by rewrite app_nil_r.
  - by rewrite length_replicate.
Qed.

Lemma huge_int_vector_full :
  vec_rep huge_int_vector 0 (Some 1) (length (replicate two31 0%Z)) (replicate two31 0%Z).
Proof. rewrite length_replicate. apply huge_int_vector_rep. Qed.

Lemma int_env_no_cause n w (ctor : unit -> unit * option Z) xs :
  (forall w, (ctor w).2 <> None) ->
  (operator_new int_env n w).2 = false \/ (exists w1, (ctor w1).2 = None) \/
  (copy_path int_env /\ copy_fails int_env xs) -> False.
Proof.
  intros Hc [Hf|[[w1 Hf]|[Hf _]]].
  - discriminate Hf.
  - by apply Hc in Hf.
  - discriminate Hf.
Qed.


Lemma Reserve_huge_run :
  exists b', Reserve int_env 0 (two31 + 1) huge_int_vector = Ret tt (reserved_huge b').
Proof.
  assert (Hwp : wpx False (Reserve int_env 0 (two31 + 1)) huge_int_vector
            (fun _ s' => exists b', s' = reserved_huge b')
            (fun _ => False)).
  { unfold huge_int_vector.
    eapply (Reserve_spec False int_env 0 (Some 1) two31 (replicate two31 0%Z));
      [apply huge_int_vector_rep | lia | apply Regular_transfer_safe, Regular_int_env | |].
    - rewrite length_replicate, to_int_two31. intros [] b' ys Hb' Hys.
      rewrite take_0 in Hys. apply Forall2_nil_inv_l in Hys. subst ys.
      rewrite fmap_nil, app_nil_l, Nat.sub_0_r. by exists b'.
    - intros w' [Hf|[Hf _]]; discriminate Hf. }
  apply wpx_returns in Hwp as ([] & s' & Hrun & b' & ->). by exists b'.
Qed.

Lemma reserved_huge_raw b' :
  raw (reserved_huge b') !! 0 = Some (mkRawMemory (Some b') (two31 + 1)).
Proof. apply lookup_insert_eq. Qed.

Lemma reserved_huge_size b' : vsize (reserved_huge b') !! 0 = Some two31.
Proof. apply lookup_singleton_eq. Qed.

Lemma reserved_huge_heap b' :
  heap (mem (reserved_huge b')) !! b' = Some (replicate (two31 + 1) None).
Proof. apply lookup_insert_eq. Qed.

Lemma PushBack_at_two31 s1 b :
  vec_rep s1 0 b two31 (replicate two31 0%Z) ->
  wpx False (PushBack int_env 0 (Lvalue 0%Z)) s1
    (fun _ s' => Size 0 s' = Ret (two31 + 1) s' /\ at_ 0 0 s' = Undef)
    (fun _ => False).
Proof.
  intros Hrep1.
  assert (Hfull : vec_rep s1 0 b (length (replicate two31 0%Z)) (replicate two31 0%Z))
    by (by rewrite length_replicate).
  destruct s1 as [[w hp] rw vs]. unfold PushBack, EmplaceBack.
  wp_bind. wp_bind.
  pose proof Hrep1 as [Hr Hs _ _]. cbn [raw vsize] in Hr, Hs.
  eapply wpx_end; [exact Hr|exact Hs|].
  cbn [buffer_]. rewrite length_replicate. change (0 + two31) with two31.
  rewrite <- (length_replicate two31 0%Z) at 1.
  eapply (Emplace_full_spec False int_env 0 b (replicate two31 0%Z));
    [exact Hfull | lia | apply Regular_transfer_safe, Regular_int_env
    | intros _ Hf; discriminate Hf | |].
  - rewrite !length_replicate, Z.sub_diag, to_int_two31.
    change (Z.to_nat (to_int 0)) with 0.
    intros w' b' v ys1 ys2 Hb' [w1 Hv] Hys1 Hys2.
    rewrite take_0 in Hys1, Hys2.
    apply Forall2_nil_inv_l in Hys1, Hys2. subst ys1 ys2.
    rewrite fmap_nil, !app_nil_l.
    apply wpx_ret. split.
    + unfold Size, get_size. cbn [vsize]. by rewrite lookup_insert_eq.
    + pose proof two31_pos as Hpos.
      eapply (at_raw_Undef _ 0 _ (two31 + 1) 0 b').
      * cbn [raw]. apply lookup_insert_eq.
      * cbn [vsize]. apply lookup_insert_eq.
      * lia.
      * cbn [capacity_]. case_decide; lia.
      * reflexivity.
      * cbn [mem heap]. apply lookup_insert_eq.
      * rewrite lookup_app_l by (rewrite length_replicate; lia).
        apply lookup_replicate_2. lia.
  - intros w'. apply int_env_no_cause. intros w0 Hf. discriminate Hf.
Qed.

Lemma PushBack_upto_two31 :
  exists s1 b,
    (Vector_default 0 ;; PushBack_all int_env 0 (replicate two31 (Lvalue 0%Z)))
      (empty_state tt) = Ret tt s1 /\
    vec_rep s1 0 b two31 (replicate two31 0%Z).
Proof.
  destruct (PushBack_sequence_small int_env (empty_state tt) 0
              (replicate two31 (Lvalue 0%Z)) Regular_int_env)
    as (s1 & b & cap & Hrun1 & Hrep1 & Hcap & _).
  { rewrite length_replicate, two31_Z. lia. }
  rewrite length_replicate in Hcap. apply doubling_capacity_two31 in Hcap. subst cap.
  rewrite fmap_replicate in Hrep1.
  exists s1, b. split; [exact Hrun1|exact Hrep1].
Qed.

Lemma PushBack_all_one {T W} (E : Env T W) this (v : @forwarded T) s :
  PushBack_all E this (replicate 1 v) s = (PushBack E this v ;; ret tt) s.
Proof. reflexivity. Qed.

(** ** Witnesses *)

Lemma nothrow_move_sound_poison : nothrow_move_sound poison_env.
Proof. intros Hf. discriminate Hf. Defined.

Lemma insertion_on_full_doubles_witness :
  exists s',
    PushBack int_env 0 (Lvalue 8%Z) full_int_vector = Ret tt s' /\
    Capacity 0 s' = Ret 2 s'.
Proof.
  destruct (PushBack int_env 0 (Lvalue 8%Z) full_int_vector) as [[] s'| |] eqn:Hrun;
    [| vm_compute in Hrun; discriminate..].
  exists s'. split; [reflexivity|].
  apply (proj2 (proj2 (proj2
    (insertion_on_full_doubles int_env full_int_vector 0 1 eq_refl eq_refl)))
    (Lvalue 8%Z) s' Hrun).
Defined.

Lemma realloc_insertion_rolls_back_witness :
  exists s',
    Insert poison_env 0 (Some 1, 0) (Lvalue 5%Z) full_poison_vector = Throw s' /\
    s' = with_world (world (mem s')) full_poison_vector /\
    vec_rep s' 0 (Some 1) 2 [1%Z; 13%Z] /\
    Size 0 s' = Ret 2 s' /\ Capacity 0 s' = Ret 2 s'.
Proof.
  destruct (Insert poison_env 0 (Some 1, 0) (Lvalue 5%Z) full_poison_vector)
    as [p s'|s'|] eqn:Hrun;
    [vm_compute in Hrun; discriminate | | vm_compute in Hrun; discriminate].
  exists s'. split; [reflexivity|].
  refine (proj1 (proj2 (realloc_insertion_rolls_back poison_env full_poison_vector
           0 (Some 1) [1%Z; 13%Z] 0 (fun w => (w, None)) _ _
           nothrow_move_sound_poison eq_refl))
           (Lvalue 5%Z) s' Hrun).
  - split; reflexivity || (simpl; lia).
  - simpl; lia.
Defined.

Lemma two_int_vectors_0 : vec_rep two_int_vectors 0 (Some 1) 1 [7%Z].
Proof. split; reflexivity || (simpl; lia). Defined.

Lemma two_int_vectors_1 : vec_rep two_int_vectors 1 (Some 2) 3 [1%Z; 2%Z].
Proof. split; reflexivity || (simpl; lia). Defined.

Lemma Swap_exchanges_witness :
  exists s',
    Swap 0 1 two_int_vectors = Ret tt s' /\
    vec_rep s' 0 (Some 2) 3 [1%Z; 2%Z] /\ vec_rep s' 1 (Some 1) 1 [7%Z] /\
    Size 0 s' = Ret 2 s' /\ Capacity 0 s' = Ret 3 s' /\
    Size 1 s' = Ret 1 s' /\ Capacity 1 s' = Ret 1 s' /\
    mem s' = mem two_int_vectors /\
    Swap 0 1 s' = Ret tt two_int_vectors.
Proof.
  exact (Swap_exchanges two_int_vectors 0 1 _ _ _ _ _ _
           two_int_vectors_0 two_int_vectors_1).
Defined.

Lemma move_empties_source_witness :
  (exists s',
     Vector_move 5 1 two_int_vectors = Ret tt s' /\
     vec_rep s' 5 (Some 2) 3 [1%Z; 2%Z] /\ vec_rep s' 1 None 0 [] /\
     Size 1 s' = Ret 0 s' /\ Capacity 1 s' = Ret 0 s') /\
  (exists s',
     Vector_move_assign 0 1 two_int_vectors = Ret tt s' /\
     vec_rep s' 0 (Some 2) 3 [1%Z; 2%Z] /\ vec_rep s' 1 None 0 [] /\
     Size 1 s' = Ret 0 s' /\ Capacity 1 s' = Ret 0 s').
Proof.
  pose proof (move_empties_source two_int_vectors 5 1 _ _ _ two_int_vectors_1) as [H1 _].
  pose proof (move_empties_source two_int_vectors 0 1 _ _ _ two_int_vectors_1) as [_ H2].
  split.
  - apply H1. split; reflexivity.
  - apply (H2 _ _ _ ltac:(lia) two_int_vectors_0). intros blk [= <-]. discriminate.
Defined.

Lemma copy_assign_copies_witness :
  (exists s' b' c',
     Vector_copy_assign int_env 0 1 two_int_vectors = Ret tt s' /\
     vec_rep s' 0 b' c' [1%Z; 2%Z] /\
     vec_rep s' 1 (Some 2) 3 [1%Z; 2%Z] /\
     Size 0 s' = Ret 2 s' /\
     (1 < 2 ->
        c' = 2 /\ (forall blk, b' = Some blk -> heap (mem two_int_vectors) !! blk = None)) /\
     (2 <= 1 -> b' = Some 1 /\ c' = 1)) /\
  (exists s' b' c',
     Vector_copy_assign int_env 1 0 two_int_vectors = Ret tt s' /\
     vec_rep s' 1 b' c' [7%Z] /\
     vec_rep s' 0 (Some 1) 1 [7%Z] /\
     Size 1 s' = Ret 1 s' /\
     (3 < 1 ->
        c' = 1 /\ (forall blk, b' = Some blk -> heap (mem two_int_vectors) !! blk = None)) /\
     (1 <= 3 -> b' = Some 2 /\ c' = 3)) /\
  Vector_copy_assign int_env 1 1 two_int_vectors = Ret tt two_int_vectors.
Proof.
  split_and!.
  - refine (proj1 (copy_assign_copies int_env two_int_vectors 0 1 _ _ _ _ _ _
             Regular_int_env two_int_vectors_0 two_int_vectors_1 _) _); [|lia].
    intros _ blk [= <-]. discriminate.
  - refine (proj1 (copy_assign_copies int_env two_int_vectors 1 0 _ _ _ _ _ _
             Regular_int_env two_int_vectors_1 two_int_vectors_0 _) _); [|lia].
    intros _ blk [= <-]. discriminate.
  - refine (proj2 (copy_assign_copies int_env two_int_vectors 1 1 _ _ _ _ _ _
             Regular_int_env two_int_vectors_1 two_int_vectors_1 _) eq_refl).
    intros Hne. by destruct Hne.
Defined.

Lemma Erase_shifts_tail_witness :
  exists s',
    Erase int_env 1 (Some 2, 0) two_int_vectors = Ret (Some 2, 0) s' /\
    vec_rep s' 1 (Some 2) 3 [2%Z] /\
    Size 1 s' = Ret 1 s' /\
    Capacity 1 s' = Ret 3 s' /\
    at_ 1 0 s' = Ret 2%Z s'.
Proof.
  destruct (Erase_shifts_tail int_env two_int_vectors 1 (Some 2) 3 [1%Z; 2%Z] 0
              Regular_int_env two_int_vectors_1 ltac:(simpl; lia))
    as (s' & Hrun & Hrep & Hsize & Hcap & _ & Hafter & _).
  exists s'. split_and!; [exact Hrun | exact Hrep | exact Hsize | exact Hcap |].
  apply (Hafter 0 2%Z); [lia | reflexivity].
Defined.

(** ** Beyond 2^31 elements, and when an assignment throws *)

(** C1. Pushed values are not all read back from 2^31 + 1 values on.
    Pushing 2^31 + 1 [int]s into a
    default-constructed vector returns, and [Size()] is then 2^31 + 1; but
    the last [PushBack] reallocates a full vector of 2^31 elements, the
    element count 2^31 becomes negative as an [int], and no element is
    transferred: slot 0 of the new buffer is raw, and [operator[](0)] reads
    an object that was never constructed. *)
Theorem PushBack_sequence_loses_elements :
  exists s',
    (Vector_default 0 ;; PushBack_all int_env 0 (replicate (two31 + 1) (Lvalue 0%Z)))
      (empty_state tt) = Ret tt s' /\
    Size 0 s' = Ret (two31 + 1) s' /\
    at_ 0 0 s' = Undef.
Proof.
  destruct PushBack_upto_two31 as (s1 & b & Hrun1 & Hrep1).
  apply run_bind_inv in Hrun1 as (a & s0 & Hrun0 & Hrun1).
  destruct (wpx_returns _ _ _ (PushBack_at_two31 s1 b Hrep1))
    as ([] & s' & Hrun2 & H1 & H2).
  exists s'. split_and!; [|exact H1|exact H2].
  eapply run_bind; [exact Hrun0|].
  rewrite replicate_add, PushBack_all_app.
  eapply run_bind; [exact Hrun1|].
  rewrite PushBack_all_one.
  eapply run_bind; [exact Hrun2|reflexivity].
Qed.


(** C6. [Reserve] does not keep the elements of a vector of 2^31
    elements.  On a vector of 2^31 [int]s,
    [Reserve(2^31 + 1)] returns with [Size()] still 2^31 and [Capacity()]
    2^31 + 1, but the element sequence is lost: the size, 2^31, becomes
    negative as an [int], nothing is transferred to the new buffer, and
    [operator[](0)], which returned 0 before the call, then reads a raw
    slot. *)
Theorem Reserve_loses_elements :
  exists s',
    Reserve int_env 0 (two31 + 1) huge_int_vector = Ret tt s' /\
    Size 0 s' = Ret two31 s' /\
    Capacity 0 s' = Ret (two31 + 1) s' /\
    at_ 0 0 huge_int_vector = Ret 0%Z huge_int_vector /\
    at_ 0 0 s' = Undef.
Proof.
  destruct Reserve_huge_run as [b' Hrun].
  pose proof two31_pos as Hpos.
  exists (reserved_huge b'). split_and!.
  - exact Hrun.
  - unfold Size, get_size. by rewrite reserved_huge_size.
  - unfold Capacity, RawMemory_Capacity, get_capacity. by rewrite reserved_huge_raw.
  - eapply at_spec; [apply huge_int_vector_rep|].
    apply lookup_replicate_2, two31_pos.
  - eapply (at_raw_Undef _ 0 _ two31 0 b');
      [apply reserved_huge_raw | apply reserved_huge_size | exact Hpos
      | cbn [capacity_]; lia | reflexivity | apply reserved_huge_heap |].
    apply lookup_replicate_2. lia.
Qed.

(** C8. [Insert] then [Erase] does not restore a full vector of 2^31
    elements.  On a full vector of 2^31
    [int]s, [Insert(begin(), 5)] returns an iterator [p] to the new
    element, but the suffix count 2^31 becomes negative as an [int] and the
    old elements are not transferred; [Erase(p)] then move-assigns from
    the raw slot after [p]: the round trip has undefined behaviour rather
    than restoring the sequence. *)
Theorem Insert_Erase_loses_elements :
  exists p s1,
    Insert int_env 0 (Some 1, 0) (Lvalue 5%Z) huge_int_vector = Ret p s1 /\
    Erase int_env 0 p s1 = Undef.
Proof.
  assert (Hwp : wpx False (Insert int_env 0 (Some 1, 0) (Lvalue 5%Z)) huge_int_vector
            (fun p s1 => Erase int_env 0 p s1 = Undef)
            (fun _ => False)).
  { unfold huge_int_vector, Insert.
    eapply (Emplace_full_spec False int_env 0 (Some 1) (replicate two31 0%Z) 0);
      [apply huge_int_vector_full | lia | apply Regular_transfer_safe, Regular_int_env
      | intros _ Hf; discriminate Hf | |].
    - rewrite length_replicate, two31_Z.
      change (Z.to_nat (to_int (Z.of_nat 0))) with 0.
      change (Z.to_nat (to_int (2147483648 - Z.of_nat 0))) with 0.
      intros w' b' v ys1 ys2 Hb' [w1 Hv] Hys1 Hys2.
      rewrite take_0 in Hys1, Hys2.
      apply Forall2_nil_inv_l in Hys1, Hys2. subst ys1 ys2.
      cbn [fmap list_fmap app Nat.sub replicate].
      pose proof two31_pos as Hpos.
      rewrite decide_False by lia.
      eapply (Erase_raw_next_Undef int_env _ 0 _ (two31 + 1) 0 b' _ v).
      + cbn [raw]. apply lookup_insert_eq.
      + cbn [vsize]. apply lookup_insert_eq.
      + lia.
      + cbn [capacity_]. lia.
      + done.
      + cbn [mem heap]. apply lookup_insert_eq.
      + done.
      + rewrite lookup_cons_S. apply lookup_replicate_2. lia.
    - intros w'. apply int_env_no_cause. intros w Hf. discriminate Hf. }
  apply wpx_returns in Hwp as (p & s1 & Hrun & H1).
  exists p, s1. split; [exact Hrun|exact H1].
Qed.


(** C9. The invariant is not preserved by every operation.  First, an
    [Emplace] at [begin()] of the vector [[7]] of capacity 2 whose move
    assignment throws leaves by the exception with [size_] 1 and two live
    slots: slot 1, move-constructed from slot 0, is never destroyed.
    Second, [Reserve(2^31 + 1)] on a vector of 2^31 [int]s returns with
    [size_] 2^31 and every slot of the new buffer raw.  In both final
    states no buffer, capacity and element sequence satisfy [vec_rep]. *)
Theorem invariant_broken :
  (vec_rep room_poison_vector 0 (Some 1) 2 [7%Z] /\
   Emplace poison_env 0 (Some 1, 0) (fun w => ((w + 1)%Z, Some 13%Z)) room_poison_vector
   = Throw leaked_poison_vector /\
   Size 0 leaked_poison_vector = Ret 1 leaked_poison_vector /\
   heap (mem leaked_poison_vector) !! 1 = Some [Some 7%Z; Some 7%Z] /\
   ~ exists b cap xs, vec_rep leaked_poison_vector 0 b cap xs) /\
  (vec_rep huge_int_vector 0 (Some 1) two31 (replicate two31 0%Z) /\
   exists s',
     Reserve int_env 0 (two31 + 1) huge_int_vector = Ret tt s' /\
     ~ exists b cap xs, vec_rep s' 0 b cap xs).
Proof.
  split.
  - split_and!.
    + split; reflexivity || (simpl; lia).
    + vm_compute. reflexivity.
    + reflexivity.
    + reflexivity.
    + intros (b & cap & xs & [Hr Hs Hb _]).
      vm_compute in Hr. injection Hr as <- <-.
      vm_compute in Hs. injection Hs as Hlen.
      destruct xs as [|x [|??]]; try discriminate Hlen.
      vm_compute in Hb. discriminate Hb.
  - split; [apply huge_int_vector_rep|].
    destruct Reserve_huge_run as [b' Hrun].
    exists (reserved_huge b'). split; [exact Hrun|].
    intros (b & cap & xs & [Hr Hs Hb _]).
    rewrite reserved_huge_raw in Hr. apply (inj Some) in Hr.
    pose proof (f_equal buffer_ Hr) as Hbuf. pose proof (f_equal capacity_ Hr) as Hcap.
    cbn [buffer_ capacity_] in Hbuf, Hcap. subst b cap. clear Hr.
    rewrite reserved_huge_size in Hs. apply (inj Some) in Hs.
    rewrite reserved_huge_heap in Hb. apply (inj Some) in Hb.
    pose proof two31_pos as Hpos.
    destruct xs as [|x xs]; [cbn [length] in Hs; lia|].
    apply (f_equal (fun l => l !! 0)) in Hb.
    rewrite lookup_replicate_2 in Hb by lia.
    rewrite fmap_cons in Hb. discriminate Hb.
Qed.

(** * The rest of the two classes *)

(** ** Construction and destruction, whatever the element type does *)

Section Construct.
Variable u : Prop.
Context {T W : Type}.
Variable E : Env T W.
Implicit Types (w : W) (hp : gmap nat (list (option T))) (buf : list (option T)).
Implicit Types (rw : gmap nat RawMemory) (vs : gmap nat nat).
Implicit Types (s : state T W) (h : hstate T W) (xs ys : list T).




(** [Vector(const Vector& other)] at a free address *)
Lemma Vector_copy_gen_spec this other b cap xs w hp rw vs (Q : unit -> _ -> Prop) R :
  vec_rep (State (HState w hp) rw vs) other b cap xs ->
  rw !! this = None -> vs !! this = None ->
  (forall w' b' hp' ys,
     Forall2 (fun x y => exists w1, (copy_ctor E x w1).2 = Some y) xs ys ->
     match b' with
     | Some blk => xs <> [] /\ hp !! blk = None /\ hp' = <[blk := Some <$> ys]> hp
     | None => xs = [] /\ hp' = hp
     end ->
     Q tt (State (HState w' hp') (<[this := mkRawMemory b' (length xs)]> rw)
             (<[this := length xs]> vs))) ->
  (forall w',
     (operator_new E (length xs) w).2 = false \/ copy_fails E xs ->
     R (State (HState w' hp) rw vs)) ->
  wpx u (Vector_copy E this other) (State (HState w hp) rw vs) Q R.
Proof.
  intros Hrep Hrw Hvs HQ HR.
  pose proof Hrep as [Hr Hs Hb Hle]. simpl in Hr, Hs, Hb.
  assert (Hne : this <> other) by congruence.
  unfold Vector_copy.
  wp_bind. eapply wpx_get_size; [lk|].
  wp_bind. apply RawMemory_ctor_spec.
  - intros Hn. wp_bind. apply wpx_modify. ssimpl.
    apply wpx_try_catch.
    wp_bind. eapply RawMemory_GetAddress_spec; [lk|]. ssimpl.
    wp_bind. eapply wpx_get_size; [lk|].
    wp_bind. eapply RawMemory_GetAddress_spec; [lk|]. ssimpl.
    apply wpx_liftH. ssimpl. rewrite Hn. apply wpx_ret.
    rewrite <- Hn. apply (HQ w None hp []).
    + destruct xs; [constructor|done].
    + split; [by destruct xs|done].
  - intros Hn _ b' Hb'. wp_bind. apply wpx_modify. ssimpl.
    destruct b as [a|]; [|lia].
    assert (a <> b') by congruence.
    apply wpx_try_catch.
    wp_bind. eapply RawMemory_GetAddress_spec; [lk|]. ssimpl.
    wp_bind. eapply wpx_get_size; [lk|].
    wp_bind. eapply RawMemory_GetAddress_spec; [lk|]. ssimpl.
    apply wpx_liftH. ssimpl.
    eapply (uninitialized_copy_n_spec u E a b' 0 0 xs [] (replicate (cap - length xs) None) [] []);
      [done | | done | | done | |].
    + by rewrite lookup_insert_ne.
    + rewrite lookup_insert_eq. by rewrite app_nil_r.
    + intros w' ys Hys.
      rewrite insert_insert_eq. simpl. rewrite app_nil_r.
      apply (HQ w' (Some b') _ ys); [done|].
      split_and!; [|done..]. intros ->. by apply Hn.
    + intros w' Hcf. unfold destroy_members.
      wp_bind. wp_bind. apply wpx_modify. ssimpl.
      eapply RawMemory_dtor_spec; [lk | right; eexists _, _; split; [done|lk] |].
      ssimpl. apply wpx_throw.
      rewrite !delete_insert_id by done.
      apply HR. by right.
  - intros _ Hf. apply HR. by left.
Qed.

End Construct.

(** ** Resize *)

Section Resize.
Variable u : Prop.
Context {T W : Type}.
Variable E : Env T W.
Hypothesis HE : Regular E.
Implicit Types (w : W) (hp : gmap nat (list (option T))) (buf : list (option T)).
Implicit Types (rw : gmap nat RawMemory) (vs : gmap nat nat).
Implicit Types (s : state T W) (h : hstate T W) (xs ys : list T).



End Resize.

(** ** Operations that never throw *)

Section NoThrow.
Context {S : Type}.

Lemma nothrow_ret {A} (a : A) : nothrow (@ret S A a).
Proof. done. Qed.

Lemma nothrow_undef {A} : nothrow (@undef S A).
Proof. done. Qed.

Lemma nothrow_gets {A} (f : S -> A) : nothrow (gets f).
Proof. done. Qed.

Lemma nothrow_modify (f : S -> S) : nothrow (modify f).
Proof. done. Qed.

Lemma nothrow_bind {A B} (m : M S A) (k : A -> M S B) :
  nothrow m -> (forall a, nothrow (k a)) -> nothrow (bind m k).
Proof.
  intros Hm Hk s s'. unfold bind. specialize (Hm s).
  destruct (m s) as [a s1|s1|]; [apply Hk|by destruct (Hm s1)|done].
Qed.

Lemma nothrow_finally {A} (m : M S A) (c : M S unit) :
  nothrow m -> nothrow (finally m c).
Proof.
  intros Hm s s'. unfold finally. specialize (Hm s).
  destruct (m s) as [a s1|s1|]; [by destruct (c s1)|by destruct (Hm s1)|done].
Qed.

Lemma nothrow_wpx {A} (m : M S A) s :
  nothrow m -> wpx True m s (fun _ _ => True) (fun _ => False).
Proof. intros Hm. unfold wpx. specialize (Hm s). destruct (m s); [done| |done]. by eapply Hm. Qed.

Lemma wpx_trivial {A} (m : M S A) s : wpx True m s (fun _ _ => True) (fun _ => True).
Proof. unfold wpx. by destruct (m s). Qed.

End NoThrow.

Ltac nothrow_step :=
  first [ apply nothrow_ret | apply nothrow_undef | apply nothrow_gets
        | apply nothrow_modify
        | apply nothrow_bind; [|intros ?]
        | assumption
        | match goal with
          | |- nothrow (if ?c then _ else _) => destruct c
          | |- nothrow (match ?c with _ => _ end) => destruct c
          end ].

Section NoThrowOps.
Context {T W : Type}.
Variable E : Env T W.
Implicit Types (s : state T W) (p : ptr).

Lemma nothrow_liftH {A} (m : M (hstate T W) A) : nothrow m -> nothrow (liftH m).
Proof.
  intros Hm s s'. unfold liftH. specialize (Hm (mem s)).
  destruct (m (mem s)) as [a h|h|]; [done|by destruct (Hm h)|done].
Qed.

Lemma nothrow_load_slot p : nothrow (@load_slot T W p).
Proof. intros h h'. unfold load_slot. by destruct (slot_of (heap h) p). Qed.

Lemma nothrow_store_slot p v : nothrow (@store_slot T W p v).
Proof.
  intros h h'. unfold store_slot. destruct p.1; [|done].
  destruct (heap h !! n); [|done]. by case_decide.
Qed.

Lemma nothrow_read p : nothrow (@read T W p).
Proof.
  unfold read. apply nothrow_bind; [apply nothrow_load_slot|].
  intros [x|]; [apply nothrow_ret|apply nothrow_undef].
Qed.

Lemma nothrow_on_world {A} (f : W -> W * A) : nothrow (@on_world T W A f).
Proof. done. Qed.

Lemma nothrow_destroy_at p : nothrow (destroy_at E p).
Proof.
  unfold destroy_at.
  apply nothrow_bind; [apply nothrow_read|intros x].
  apply nothrow_bind; [apply nothrow_on_world|intros _].
  apply nothrow_store_slot.
Qed.

Lemma nothrow_destroy_n n : forall p, nothrow (destroy_n E p n).
Proof.
  induction n as [|n IH]; intros p; simpl; [apply nothrow_ret|].
  apply nothrow_bind; [apply nothrow_destroy_at|intros _; apply IH].
Qed.

Lemma nothrow_delete_block b : nothrow (@delete_block T W b).
Proof.
  destruct b as [b|]; [|done]. intros h h'. simpl. by destruct (heap h !! b).
Qed.

Lemma nothrow_ptr_sub p k : nothrow (@ptr_sub T W p k).
Proof. unfold ptr_sub. case_decide; [apply nothrow_ret|apply nothrow_undef]. Qed.

Lemma nothrow_get_buffer o : nothrow (@get_buffer T W o).
Proof. intros s s'. unfold get_buffer. by destruct (raw s !! o). Qed.

Lemma nothrow_get_capacity o : nothrow (@get_capacity T W o).
Proof. intros s s'. unfold get_capacity. by destruct (raw s !! o). Qed.

Lemma nothrow_set_buffer o b : nothrow (@set_buffer T W o b).
Proof. intros s s'. unfold set_buffer. by destruct (raw s !! o). Qed.

Lemma nothrow_set_capacity o c : nothrow (@set_capacity T W o c).
Proof. intros s s'. unfold set_capacity. by destruct (raw s !! o). Qed.

Lemma nothrow_get_size o : nothrow (@get_size T W o).
Proof. intros s s'. unfold get_size. by destruct (vsize s !! o). Qed.

Lemma nothrow_set_size o n : nothrow (@set_size T W o n).
Proof. intros s s'. unfold set_size. by destruct (vsize s !! o). Qed.

Lemma nothrow_assert (c : Prop) `{Decision c} : nothrow (@assert T W c _).
Proof. unfold assert. case_decide; [apply nothrow_ret|apply nothrow_undef]. Qed.

Lemma nothrow_Deallocate b : nothrow (@Deallocate T W b).
Proof. apply nothrow_liftH, nothrow_delete_block. Qed.

Ltac nt :=
  repeat first
    [ apply nothrow_get_buffer | apply nothrow_get_capacity
    | apply nothrow_set_buffer | apply nothrow_set_capacity
    | apply nothrow_get_size | apply nothrow_set_size
    | apply nothrow_assert | apply nothrow_Deallocate
    | apply nothrow_read | apply nothrow_ptr_sub | apply nothrow_destroy_n
    | apply nothrow_liftH
    | nothrow_step ].

Lemma nothrow_RawMemory_Swap a b : nothrow (@RawMemory_Swap T W a b).
Proof. unfold RawMemory_Swap. nt. Qed.

Lemma nothrow_RawMemory_move_ctor a b : nothrow (@RawMemory_move_ctor T W a b).
Proof. unfold RawMemory_move_ctor, RawMemory_init. nt; try apply nothrow_RawMemory_Swap. Qed.

Lemma nothrow_RawMemory_move_assign a b : nothrow (@RawMemory_move_assign T W a b).
Proof. unfold RawMemory_move_assign. nt. Qed.

Lemma nothrow_RawMemory_dtor a : nothrow (@RawMemory_dtor T W a).
Proof. unfold RawMemory_dtor. nt. Qed.

Lemma nothrow_RawMemory_plus a k : nothrow (@RawMemory_plus T W a k).
Proof. unfold RawMemory_plus. nt. Qed.

Lemma nothrow_RawMemory_index a k : nothrow (@RawMemory_index T W a k).
Proof. unfold RawMemory_index. nt. Qed.

Lemma nothrow_RawMemory_GetAddress a : nothrow (@RawMemory_GetAddress T W a).
Proof. unfold RawMemory_GetAddress. nt. Qed.

Lemma nothrow_Swap a b : nothrow (@Swap T W a b).
Proof.
  unfold Swap, std_swap_RawMemory, fresh_object. nt;
    auto using nothrow_RawMemory_move_ctor, nothrow_RawMemory_move_assign,
      nothrow_RawMemory_dtor.
Qed.

Lemma nothrow_Vector_dtor a : nothrow (Vector_dtor E a).
Proof.
  unfold Vector_dtor, destroy_members. nt;
    auto using nothrow_RawMemory_GetAddress, nothrow_RawMemory_dtor.
Qed.

Lemma nothrow_Vector_move this a : nothrow (@Vector_move T W this a).
Proof.
  unfold Vector_move, Vector_default, RawMemory_init. nt; try apply nothrow_RawMemory_move_assign.
Qed.

Lemma nothrow_Vector_move_assign this a : nothrow (@Vector_move_assign T W this a).
Proof. unfold Vector_move_assign. nt; try apply nothrow_RawMemory_move_assign. Qed.

Lemma nothrow_at this i : nothrow (@at_ T W this i).
Proof. unfold at_. nt; try apply nothrow_RawMemory_index. Qed.

Lemma nothrow_end this : nothrow (@end_ T W this).
Proof. unfold end_. nt; try apply nothrow_RawMemory_GetAddress. Qed.

End NoThrowOps.
(** ** Properties of the other operations *)

Section More.
Context {T W : Type}.
Variable E : Env T W.
Implicit Types (w : W) (hp : gmap nat (list (option T))).
Implicit Types (rw : gmap nat RawMemory) (vs : gmap nat nat).
Implicit Types (s : state T W) (h : hstate T W) (xs : list T).



(** X3. The copy constructor, for a regular element type: the new vector has
    the elements of [other] in a buffer of its own, of capacity
    [other.size_] (not [other]'s capacity), and [other] is unchanged. *)
Theorem Vector_copy_constructs s this other b cap xs :
  Regular E ->
  vec_rep s other b cap xs ->
  unused s this ->
  exists s' b',
    Vector_copy E this other s = Ret tt s' /\
    vec_rep s' this b' (length xs) xs /\
    vec_rep s' other b cap xs /\
    Size this s' = Ret (length xs) s' /\
    Capacity this s' = Ret (length xs) s' /\
    (forall blk, b' = Some blk -> heap (mem s) !! blk = None) /\
    (xs = [] -> b' = None).
Proof.
  intros HE Hrep [Hrw Hvs]. destruct s as [[w hp] rw vs]. simpl in *.
  pose proof Hrep as [Hr Hs Hb Hle]. simpl in Hr, Hs, Hb.
  assert (Hne : this <> other) by congruence.
  assert (Hwp : wpx False (Vector_copy E this other) (State (HState w hp) rw vs)
            (fun _ s' => exists b',
               vec_rep s' this b' (length xs) xs /\ vec_rep s' other b cap xs /\
               (forall blk, b' = Some blk -> hp !! blk = None) /\
               (xs = [] -> b' = None))
            (fun _ => False)).
  { eapply (Vector_copy_gen_spec False E this other b cap xs);
      [exact Hrep|exact Hrw|exact Hvs| |].
    - intros w' b' hp' ys Hys Hb'. apply (Regular_copied E HE) in Hys. subst ys.
      exists b'. split_and!.
      + split; simpl; [lk|lk| |lia].
        destruct b' as [blk|]; [|by destruct Hb' as [-> _]].
        destruct Hb' as (_ & _ & ->). rewrite lookup_insert_eq, Nat.sub_diag.
        by rewrite app_nil_r.
      + split; simpl; [lk|lk| |done].
        destruct b as [a|]; [|done].
        destruct b' as [blk|].
        * destruct Hb' as (_ & Hfr & ->). rewrite lookup_insert_ne by congruence. done.
        * by destruct Hb' as [_ ->].
      + intros blk ->. by destruct Hb' as (_ & ? & _).
      + intros ->. destruct b' as [blk|]; [|done]. by destruct Hb' as [? _].
    - intros w' [Hf|Hf].
      + by rewrite (reg_new E HE) in Hf.
      + by apply (Regular_not_copy_fails E HE) in Hf. }
  apply wpx_returns in Hwp as ([] & s' & Hrun & b' & H1 & H2 & H3 & H4).
  exists s', b'. split_and!; try done.
  - by eapply Size_spec.
  - by eapply Capacity_spec.
Qed.


(** X4. The destructor: the elements are destroyed, the buffer is released and
    the object is gone; nothing else in the heap or among the objects
    changes. *)
Theorem Vector_dtor_releases s this b cap xs :
  vec_rep s this b cap xs ->
  exists s',
    Vector_dtor E this s = Ret tt s' /\
    heap (mem s') = match b with
                    | Some a => delete a (heap (mem s))
                    | None => heap (mem s)
                    end /\
    raw s' = delete this (raw s) /\
    vsize s' = delete this (vsize s).
Proof.
  intros Hrep. destruct s as [[w hp] rw vs].
  assert (Hwp : wpx False (Vector_dtor E this) (State (HState w hp) rw vs)
            (fun _ s' =>
               heap (mem s') = match b with Some a => delete a hp | None => hp end /\
               raw s' = delete this rw /\ vsize s' = delete this vs)
            (fun _ => False)).
  { eapply Vector_dtor_spec; [done|]. done. }
  apply wpx_returns in Hwp as ([] & s' & Hrun & H1). by exists s'.
Qed.

(** X5. Copying a vector and destroying the copy, for a regular element type,
    gives back the heap and the objects there were. *)
Theorem Vector_copy_dtor_roundtrip s this other b cap xs :
  Regular E ->
  vec_rep s other b cap xs ->
  unused s this ->
  exists s',
    (Vector_copy E this other ;; Vector_dtor E this) s = Ret tt s' /\
    s' = with_world (world (mem s')) s.
Proof.
  intros HE Hrep [Hrw Hvs]. destruct s as [[w hp] rw vs]. simpl in *.
  assert (Hwp : wpx False (Vector_copy E this other ;; Vector_dtor E this)
            (State (HState w hp) rw vs)
            (fun _ s' => s' = with_world (world (mem s')) (State (HState w hp) rw vs))
            (fun _ => False)).
  { wp_bind.
    eapply (Vector_copy_gen_spec False E this other b cap xs);
      [exact Hrep|exact Hrw|exact Hvs| |].
    - intros w' b' hp' ys Hys Hb'. apply (Regular_copied E HE) in Hys. subst ys.
      eapply (Vector_dtor_spec False E this b' (length xs) xs).
      + split; simpl; [lk|lk| |lia].
        destruct b' as [blk|]; [|by destruct Hb' as [-> _]].
        destruct Hb' as (_ & _ & ->). rewrite lookup_insert_eq, Nat.sub_diag.
        by rewrite app_nil_r.
      + intros w''. unfold with_world. simpl.
        rewrite !delete_insert_id by done. f_equal. f_equal.
        destruct b' as [blk|].
        * destruct Hb' as (_ & Hfr & ->). by rewrite delete_insert_id.
        * by destruct Hb' as [_ ->].
    - intros w' [Hf|Hf].
      + by rewrite (reg_new E HE) in Hf.
      + by apply (Regular_not_copy_fails E HE) in Hf. }
  apply wpx_returns in Hwp as ([] & s' & Hrun & H1). by exists s'.
Qed.


(** X7. [PopBack] on a vector that is not empty destroys the last element:
    the other elements, the buffer and the capacity stay. *)
Theorem PopBack_drops_last s this b cap xs l :
  vec_rep s this b cap (xs ++ [l]) ->
  exists s',
    PopBack E this s = Ret tt s' /\
    vec_rep s' this b cap xs /\
    Size this s' = Ret (length xs) s' /\
    Capacity this s' = Ret cap s' /\
    raw s' = raw s.
Proof.
  intros Hrep. destruct s as [[w hp] rw vs].
  assert (Hwp : wpx False (PopBack E this) (State (HState w hp) rw vs)
            (fun _ s' => vec_rep s' this b cap xs /\ raw s' = rw)
            (fun _ => False)).
  { eapply PopBack_spec; [done|]. intros w' s' -> Hrep'. done. }
  apply wpx_returns in Hwp as ([] & s' & Hrun & H1 & H2).
  exists s'. split_and!; try done.
  - by eapply Size_spec.
  - by eapply Capacity_spec.
Qed.

(** X8. [PopBack] on an empty vector, and [Erase] at [end()] or beyond, have
    undefined behaviour: neither checks its argument. *)
Theorem PopBack_Erase_out_of_range s this b cap xs :
  vec_rep s this b cap xs ->
  (xs = [] -> PopBack E this s = Undef) /\
  (forall d, length xs <= d -> Erase E this (b, d) s = Undef).
Proof.
  intros [Hr Hs Hb Hle]. split.
  - intros ->. simpl in Hs. apply wpx_undefined. unfold PopBack.
    wp_bind. eapply RawMemory_GetAddress_spec; [done|].
    wp_bind. eapply wpx_get_size; [done|].
    wp_bind. apply wpx_liftH. unfold ptr_sub. ssimpl.
    by rewrite decide_False by lia.
  - intros d Hd. apply wpx_undefined. unfold Erase.
    wp_bind. unfold begin. eapply RawMemory_GetAddress_spec; [done|].
    wp_bind. apply wpx_liftH. apply wpx_std_distance.
    wp_bind. eapply RawMemory_GetAddress_spec; [done|].
    wp_bind. eapply wpx_end; [done|done|].
    wp_bind. apply wpx_liftH. unfold std_move. ssimpl.
    by rewrite decide_False by (intros [_ ?]; lia).
Qed.

(** X9. [operator[]]: an index below the size reads that element and changes
    nothing; an index from the size on has undefined behaviour, also when
    it is below the capacity. *)
Theorem at_in_and_out_of_range s this b cap xs :
  vec_rep s this b cap xs ->
  (forall i x, xs !! i = Some x -> at_ this i s = Ret x s) /\
  (forall i, length xs <= i -> at_ this i s = Undef).
Proof.
  intros Hrep. split.
  - intros i x Hx. by eapply at_spec.
  - intros i Hi. destruct Hrep as [Hr Hs _ _]. apply wpx_undefined. unfold at_.
    wp_bind. eapply wpx_get_size; [done|].
    wp_bind. unfold assert. by rewrite decide_False by lia.
Qed.

(** X10. [PushBack] then [PopBack], for a regular element type and fewer than
    2^31 elements: the elements are those before, in a buffer whose
    capacity has not shrunk. *)
Theorem PushBack_PopBack_roundtrip s this b cap xs v :
  Regular E ->
  vec_rep s this b cap xs ->
  (Z.of_nat (length xs) < 2147483648)%Z ->
  exists s1 s2 b' cap',
    PushBack E this v s = Ret tt s1 /\
    PopBack E this s1 = Ret tt s2 /\
    vec_rep s2 this b' cap' xs /\
    Size this s2 = Ret (length xs) s2 /\
    cap <= cap' /\
    (length xs < cap -> b' = b /\ cap' = cap).
Proof.
  intros HE Hrep Hsmall.
  assert (Hwp : wpx False (PushBack E this v) s
            (fun _ s1 => exists b',
               vec_rep s1 this b' (if decide (length xs = cap) then 1 `max` (2 * cap) else cap)
                 (xs ++ [forwarded_value v]) /\
               (length xs < cap -> b' = b))
            (fun _ => False)).
  { destruct s as [[w hp] rw vs].
    pose proof Hrep as [Hr Hs Hb Hle]. simpl in Hr, Hs, Hb.
    assert (Hxs : take (length xs) xs ++ forwarded_value v :: drop (length xs) xs
                  = xs ++ [forwarded_value v]).
    { by rewrite firstn_all, drop_all. }
    unfold PushBack, EmplaceBack.
    wp_bind. wp_bind. eapply wpx_end; [lk|lk|]. ssimpl.
    change (0 + length xs) with (length xs).
    destruct (decide (length xs = cap)) as [Hfull|Hroom].
    - subst cap.
      eapply Emplace_full_regular_spec; try done.
      { by apply forward_ctor_regular. }
      intros w' b' s' Hb' _ Hrep'. apply wpx_ret.
      rewrite Hxs in Hrep'. exists (Some b'). split; [done|lia].
    - eapply Emplace_room_spec; try done.
      { lia. }
      { by apply forward_ctor_regular. }
      intros w' s' _ Hrep'. apply wpx_ret.
      rewrite Hxs in Hrep'. by exists b. }
  apply wpx_returns in Hwp as ([] & s1 & Hrun1 & b' & Hrep1 & Hb').
  destruct s1 as [[w1 hp1] rw1 vs1].
  assert (Hwp : wpx False (PopBack E this) (State (HState w1 hp1) rw1 vs1)
            (fun _ s2 => vec_rep s2 this b'
               (if decide (length xs = cap) then 1 `max` (2 * cap) else cap) xs)
            (fun _ => False)).
  { eapply PopBack_spec; [done|]. intros w' s' _ Hrep'. done. }
  apply wpx_returns in Hwp as ([] & s2 & Hrun2 & Hrep2).
  exists (State (HState w1 hp1) rw1 vs1), s2, b',
    (if decide (length xs = cap) then 1 `max` (2 * cap) else cap).
  split_and!; try done.
  - by eapply Size_spec.
  - case_decide; lia.
  - intros Hroom. split; [by apply Hb'|]. by rewrite decide_False by lia.
Qed.

(** X11. An [Emplace] where there is room whose element constructor throws
    leaves the vector untouched, whatever the element type: the
    constructor runs before anything is moved. *)
Theorem Emplace_room_ctor_throws s this b cap xs d ctor :
  vec_rep s this b cap xs ->
  length xs < cap ->
  d <= length xs ->
  (ctor (world (mem s))).2 = None ->
  Emplace E this (b, d) ctor s = Throw (with_world (ctor (world (mem s))).1 s).
Proof.
  intros Hrep Hroom Hd Hctor.
  destruct (vec_rep_some _ _ _ _ _ Hrep ltac:(lia)) as [a ->].
  destruct s as [[w hp] rw vs]. simpl in Hctor.
  pose proof Hrep as [Hr Hs Hb Hle]. simpl in Hr, Hs, Hb.
  assert (Hwp : wpx False (Emplace E this (Some a, d) ctor) (State (HState w hp) rw vs)
            (fun _ _ => False)
            (fun s' => s' = with_world (ctor w).1 (State (HState w hp) rw vs))).
  { unfold Emplace.
    wp_bind. unfold begin. eapply RawMemory_GetAddress_spec; [lk|]. ssimpl.
    wp_bind. apply wpx_liftH. apply wpx_std_distance. ssimpl.
    wp_bind. eapply wpx_get_size; [lk|].
    wp_bind. unfold Capacity, RawMemory_Capacity. eapply wpx_get_capacity; [lk|].
    ssimpl. rewrite decide_False by lia.
    wp_bind. unfold EmplaceWithoutReallocation.
    wp_bind. unfold begin. eapply RawMemory_GetAddress_spec; [lk|]. ssimpl.
    wp_bind. apply wpx_liftH. apply wpx_std_distance. ssimpl.
    wp_bind. eapply wpx_end; [lk|lk|]. ssimpl.
    case_decide as Hpos.
    - wp_bind. eapply RawMemory_GetAddress_spec; [lk|]. ssimpl.
      wp_bind. eapply wpx_get_size; [lk|].
      apply wpx_liftH. ssimpl.
      eapply construct_at_spec; [exact Hb| |by rewrite Hctor|done].
      rewrite length_app, length_fmap, length_replicate. lia.
    - wp_bind. apply wpx_liftH. apply wpx_on_world. ssimpl.
      rewrite Hctor. done. }
  unfold wpx in Hwp. destruct (Emplace E this (Some a, d) ctor _); [done| |done].
  by rewrite Hwp.
Qed.

Lemma read_element s this a cap xs i x :
  vec_rep s this (Some a) cap xs -> xs !! i = Some x ->
  read (Some a, i) (mem s) = Ret x (mem s).
Proof.
  intros [_ _ Hb _] Hx. destruct s as [[w hp] rw vs]. simpl in *.
  assert (Hwp : wpx False (read (Some a, i)) (HState w hp)
            (fun y h => y = x /\ h = HState w hp) (fun _ => False)).
  { eapply wpx_read; [exact Hb| |done].
    rewrite lookup_app_l by (rewrite length_fmap; by eapply lookup_lt_Some).
    by rewrite list_lookup_fmap, Hx. }
  apply wpx_returns in Hwp as (y & h & Hrun & -> & ->). done.
Qed.

(** X12. [Insert] where there is room, for a regular element type: the value is
    at position [pos], the elements from [pos] on have moved one slot up,
    the buffer and the capacity are the same (no reallocation), and the
    iterator returned is [pos]. *)
Theorem Insert_with_room s this b cap xs d v :
  Regular E ->
  vec_rep s this b cap xs ->
  length xs < cap ->
  d <= length xs ->
  exists s',
    Insert E this (b, d) v s = Ret (b, d) s' /\
    vec_rep s' this b cap (take d xs ++ forwarded_value v :: drop d xs) /\
    Size this s' = Ret (length xs + 1) s' /\
    Capacity this s' = Ret cap s' /\
    at_ this d s' = Ret (forwarded_value v) s' /\
    raw s' = raw s.
Proof.
  intros HE Hrep Hroom Hd. destruct s as [[w hp] rw vs].
  assert (Hwp : wpx False (Insert E this (b, d) v) (State (HState w hp) rw vs)
            (fun p s' => p = (b, d) /\ raw s' = rw /\
               vec_rep s' this b cap (take d xs ++ forwarded_value v :: drop d xs))
            (fun _ => False)).
  { unfold Insert. eapply Emplace_room_spec; try done.
    { by apply forward_ctor_regular. }
    intros w' s' -> Hrep'. done. }
  apply wpx_returns in Hwp as (p & s' & Hrun & -> & Hraw & Hrep').
  assert (Hlen : length (take d xs ++ forwarded_value v :: drop d xs) = length xs + 1).
  { rewrite length_app, length_cons, length_take, length_drop. lia. }
  exists s'. split_and!; try done.
  - rewrite <- Hlen. by eapply Size_spec.
  - by eapply Capacity_spec.
  - eapply at_spec; [done|]. apply list_lookup_middle. rewrite length_take. lia.
Qed.

(** X13. [Insert] into a full vector of fewer than 2^31 elements, for a regular
    element type: the elements, with the value at [pos], are in a new
    buffer of capacity [max 1 (2 * size)]; the old buffer is released, so
    that iterators into it are dangling; the iterator returned points into
    the new buffer. *)
Theorem Insert_when_full s this b xs d v :
  Regular E ->
  vec_rep s this b (length xs) xs ->
  d <= length xs ->
  (Z.of_nat (length xs) < 2147483648)%Z ->
  exists s' b',
    Insert E this (b, d) v s = Ret (Some b', d) s' /\
    vec_rep s' this (Some b') (1 `max` (2 * length xs))
      (take d xs ++ forwarded_value v :: drop d xs) /\
    at_ this d s' = Ret (forwarded_value v) s' /\
    heap (mem s) !! b' = None /\
    (forall a, b = Some a -> heap (mem s') !! a = None).
Proof.
  intros HE Hrep Hd Hsmall. destruct s as [[w hp] rw vs].
  assert (Hwp : wpx False (Insert E this (b, d) v) (State (HState w hp) rw vs)
            (fun p s' => exists b', p = (Some b', d) /\ hp !! b' = None /\
               (forall a, b = Some a -> heap (mem s') !! a = None) /\
               vec_rep s' this (Some b') (1 `max` (2 * length xs))
                 (take d xs ++ forwarded_value v :: drop d xs))
            (fun _ => False)).
  { unfold Insert. eapply Emplace_full_regular_spec; try done.
    { by apply forward_ctor_regular. }
    intros w' b' s' Hb' -> Hrep'. exists b'. split_and!; try done.
    intros a ->. simpl. destruct Hrep as [_ _ Hb _]. simpl in Hb.
    rewrite lookup_insert_ne by congruence. apply lookup_delete_eq. }
  apply wpx_returns in Hwp as (p & s' & Hrun & b' & -> & Hfr & Hold & Hrep').
  exists s', b'. split_and!; try done.
  eapply at_spec; [done|]. apply list_lookup_middle. rewrite length_take. lia.
Qed.

(** X14. [EmplaceBack] returns a reference to the element it has constructed,
    the new last element (regular element type, fewer than 2^31
    elements). *)
Theorem EmplaceBack_returns_new_element s this b cap xs ctor v :
  Regular E ->
  vec_rep s this b cap xs ->
  (Z.of_nat (length xs) < 2147483648)%Z ->
  (forall w, (ctor w).2 = Some v) ->
  exists p s' b' cap',
    EmplaceBack E this ctor s = Ret p s' /\
    vec_rep s' this b' cap' (xs ++ [v]) /\
    p = (b', length xs) /\
    read p (mem s') = Ret v (mem s') /\
    at_ this (length xs) s' = Ret v s'.
Proof.
  intros HE Hrep Hsmall Hctor. destruct s as [[w hp] rw vs].
  pose proof Hrep as [Hr Hs Hb Hle]. simpl in Hr, Hs, Hb.
  assert (Hxs : take (length xs) xs ++ v :: drop (length xs) xs = xs ++ [v]).
  { by rewrite firstn_all, drop_all. }
  assert (Hwp : wpx False (EmplaceBack E this ctor) (State (HState w hp) rw vs)
            (fun p s' => exists a cap',
               p = (Some a, length xs) /\ vec_rep s' this (Some a) cap' (xs ++ [v]))
            (fun _ => False)).
  { unfold EmplaceBack.
    wp_bind. eapply wpx_end; [lk|lk|]. ssimpl.
    change (0 + length xs) with (length xs).
    destruct (decide (length xs = cap)) as [Hfull|Hroom].
    - subst cap.
      eapply Emplace_full_regular_spec; try done.
      intros w' b' s' Hb' _ Hrep'. rewrite Hxs in Hrep'. eauto.
    - destruct (vec_rep_some _ _ _ _ _ Hrep ltac:(lia)) as [a ->].
      eapply Emplace_room_spec; try done.
      { lia. }
      intros w' s' _ Hrep'. rewrite Hxs in Hrep'. eauto. }
  apply wpx_returns in Hwp as (p & s' & Hrun & a & cap' & -> & Hrep').
  assert (Hv : (xs ++ [v]) !! length xs = Some v) by (by apply list_lookup_middle).
  exists (Some a, length xs), s', (Some a), cap'. split_and!; try done.
  - by eapply read_element.
  - by eapply at_spec.
Qed.

(** X15. [Reserve] that throws (allocation, or a copy when the elements are
    copied) leaves the vector as it was: same buffer, elements, size and
    capacity.  The element type is one whose transfer is safe: it is
    copied, or its move constructor does not throw. *)
Theorem Reserve_throw_rolls_back s this b cap xs new_capacity s' :
  vec_rep s this b cap xs ->
  transfer_safe E ->
  Reserve E this new_capacity s = Throw s' ->
  s' = with_world (world (mem s')) s /\ vec_rep s' this b cap xs.
Proof.
  intros Hrep Hsafe Hrun. destruct s as [[w hp] rw vs].
  destruct (decide (new_capacity <= cap)) as [Hle|Hgt].
  { destruct Hrep as [Hr _ _ _].
    by rewrite (Reserve_noop E this _ new_capacity _ Hr) in Hrun. }
  assert (Hwp : wpx True (Reserve E this new_capacity) (State (HState w hp) rw vs)
            (fun _ _ => True)
            (fun s' => s' = with_world (world (mem s')) (State (HState w hp) rw vs))).
  { eapply Reserve_spec; [done|lia|done|done|done]. }
  pose proof (wpx_Throw_inv _ _ _ _ _ _ Hwp Hrun) as Heq.
  split; [done|]. rewrite Heq. by apply vec_rep_with_world.
Qed.


(** X17. Values pushed into a default-constructed vector, for a regular element
    type and at most 2^31 values: the size is their number, [operator[]]
    returns them in order, and the capacity is 0 for no value and else the
    power of two with [cap / 2 < n <= cap]. *)
Theorem PushBack_sequence_reads_back s this vals :
  Regular E ->
  (Z.of_nat (length vals) <= 2147483648)%Z ->
  exists s' cap,
    (Vector_default this ;; PushBack_all E this vals) s = Ret tt s' /\
    Size this s' = Ret (length vals) s' /\
    (forall i v, vals !! i = Some v -> at_ this i s' = Ret (forwarded_value v) s') /\
    Capacity this s' = Ret cap s' /\
    doubling_capacity (length vals) cap.
Proof.
  intros HE Hsmall.
  destruct (PushBack_sequence_small E s this vals HE Hsmall)
    as (s' & b & cap & Hrun & Hrep & Hcap & Hsz & Hat).
  exists s', cap. split_and!; try done.
  by eapply Capacity_spec.
Qed.

(** X18. Copy assignment from a vector larger than the capacity goes through a
    temporary copy: when it throws, whatever the element type, the vector
    assigned to and the rest of the state are untouched. *)
Theorem copy_assign_grow_throw_rolls_back s this rhs bt ct xt br cr xr s' :
  vec_rep s this bt ct xt ->
  vec_rep s rhs br cr xr ->
  ct < length xr ->
  Vector_copy_assign E this rhs s = Throw s' ->
  s' = with_world (world (mem s')) s /\
  vec_rep s' this bt ct xt /\ vec_rep s' rhs br cr xr.
Proof.
  intros Hthis Hrhs Hgrow Hrun. destruct s as [[w hp] rw vs].
  pose proof Hthis as [Htr Hts _ Htle]. pose proof Hrhs as [Hrr Hrs _ _].
  simpl in Htr, Hts, Hrr, Hrs.
  assert (Hne : this <> rhs).
  { intros ->. rewrite Hts in Hrs. injection Hrs as Hrs. lia. }
  assert (Hwp : wpx True (Vector_copy_assign E this rhs) (State (HState w hp) rw vs)
            (fun _ _ => True)
            (fun s' => s' = with_world (world (mem s')) (State (HState w hp) rw vs))).
  { unfold Vector_copy_assign. rewrite decide_True by done.
    wp_bind. eapply wpx_get_size; [lk|].
    wp_bind. unfold RawMemory_Capacity. eapply wpx_get_capacity; [lk|]. ssimpl.
    rewrite decide_True by lia.
    wp_bind. apply wpx_fresh_object. ssimpl. intros o Ho1 Ho2.
    wp_bind.
    eapply (Vector_copy_gen_spec True E o rhs br cr xr);
      [exact Hrhs|exact Ho1|exact Ho2| |done].
    intros w' b' hp' ys _ _.
    apply wpx_finally. eapply wpx_mono.
    - apply nothrow_wpx, nothrow_Swap.
    - intros _ s1 _. apply wpx_trivial.
    - intros s1 []. }
  pose proof (wpx_Throw_inv _ _ _ _ _ _ Hwp Hrun) as Heq.
  split; [done|]. rewrite Heq. split; by apply vec_rep_with_world.
Qed.

(** X19. Move assignment releases the buffer the destination owned without
    destroying the elements in it: no operation of the element type runs
    (the world is unchanged), and the block is deleted from the heap with
    the elements still live. *)
Theorem move_assign_skips_destructors s this a b cap xs b0 cap0 xs0 :
  this <> a ->
  vec_rep s this b0 cap0 xs0 ->
  vec_rep s a b cap xs ->
  exists s',
    Vector_move_assign this a s = Ret tt s' /\
    world (mem s') = world (mem s) /\
    heap (mem s') = match b0 with
                    | Some blk => delete blk (heap (mem s))
                    | None => heap (mem s)
                    end.
Proof.
  intros Hne Hthis Ha. destruct s as [[w hp] rw vs].
  pose proof Ha as [Har Has Hab Hale]. pose proof Hthis as [Htr Hts Htb Htle].
  simpl in *.
  assert (Hwp : wpx False (Vector_move_assign this a) (State (HState w hp) rw vs)
            (fun _ s' => world (mem s') = w /\
               heap (mem s') = match b0 with Some blk => delete blk hp | None => hp end)
            (fun _ => False)).
  { unfold Vector_move_assign.
    wp_bind. eapply RawMemory_move_assign_spec; [done|lk|lk| |].
    { simpl. destruct b0; eauto. }
    simpl.
    wp_bind. eapply wpx_get_size; [lk|].
    wp_bind. eapply wpx_set_size; [lk|]. simpl.
    eapply wpx_set_size; [lk|]. done. }
  apply wpx_returns in Hwp as ([] & s' & Hrun & H1 & H2). by exists s'.
Qed.

(** X20. The operations declared [noexcept], and the destructors, never leave
    by an exception, whatever the element type and the state. *)
Theorem noexcept_operations_never_throw (a b : nat) (i : nat) :
  nothrow (@Swap T W a b) /\
  nothrow (@Vector_move T W a b) /\
  nothrow (@Vector_move_assign T W a b) /\
  nothrow (Vector_dtor E a) /\
  nothrow (@at_ T W a i) /\
  nothrow (@Size T W a) /\
  nothrow (@Capacity T W a) /\
  nothrow (@begin T W a) /\
  nothrow (@end_ T W a) /\
  nothrow (@RawMemory_Swap T W a b) /\
  nothrow (@RawMemory_move_ctor T W a b) /\
  nothrow (@RawMemory_move_assign T W a b) /\
  nothrow (@RawMemory_dtor T W a) /\
  nothrow (@RawMemory_plus T W a i) /\
  nothrow (@RawMemory_index T W a i) /\
  nothrow (@RawMemory_GetAddress T W a).
Proof.
  split_and!.
  - apply nothrow_Swap.
  - apply nothrow_Vector_move.
  - apply nothrow_Vector_move_assign.
  - apply nothrow_Vector_dtor.
  - apply nothrow_at.
  - apply nothrow_get_size.
  - apply nothrow_get_capacity.
  - apply nothrow_RawMemory_GetAddress.
  - apply nothrow_end.
  - apply nothrow_RawMemory_Swap.
  - apply nothrow_RawMemory_move_ctor.
  - apply nothrow_RawMemory_move_assign.
  - apply nothrow_RawMemory_dtor.
  - apply nothrow_RawMemory_plus.
  - apply nothrow_RawMemory_index.
  - apply nothrow_RawMemory_GetAddress.
Qed.


(** X22. Moving a [RawMemory]: the target has the buffer and the capacity the
    source had and the source is left with no buffer and capacity 0.  Move
    construction does not touch the heap; move assignment releases the
    buffer the target owned; assignment to itself changes nothing. *)
Theorem RawMemory_move_empties_source s this rhs r2 :
  raw s !! rhs = Some r2 ->
  (raw s !! this = None ->
   exists s',
     RawMemory_move_ctor this rhs s = Ret tt s' /\
     raw s' !! this = Some r2 /\
     raw s' !! rhs = Some (mkRawMemory None 0) /\
     mem s' = mem s) /\
  (forall r1,
     this <> rhs ->
     raw s !! this = Some r1 ->
     (forall blk, buffer_ r1 = Some blk -> is_Some (heap (mem s) !! blk)) ->
     exists s',
       RawMemory_move_assign this rhs s = Ret tt s' /\
       raw s' !! this = Some r2 /\
       raw s' !! rhs = Some (mkRawMemory None 0) /\
       world (mem s') = world (mem s) /\
       heap (mem s') = match buffer_ r1 with
                       | Some blk => delete blk (heap (mem s))
                       | None => heap (mem s)
                       end) /\
  RawMemory_move_assign rhs rhs s = Ret tt s.
Proof.
  intros H2. destruct s as [[w hp] rw vs]. simpl in *. split_and!.
  - intros Hnone. assert (Hne : this <> rhs) by congruence.
    assert (Hwp : wpx False (RawMemory_move_ctor this rhs) (State (HState w hp) rw vs)
              (fun _ s' => raw s' !! this = Some r2 /\
                 raw s' !! rhs = Some (mkRawMemory None 0) /\ mem s' = HState w hp)
              (fun _ => False)).
    { unfold RawMemory_move_ctor, RawMemory_init.
      wp_bind. apply wpx_modify. simpl.
      eapply RawMemory_Swap_spec; [done|lk|lk|]. simpl.
      split_and!; [lk|lk|done]. }
    apply wpx_returns in Hwp as ([] & s' & Hrun & H). by exists s'.
  - intros r1 Hne H1 Hbuf.
    assert (Hwp : wpx False (RawMemory_move_assign this rhs) (State (HState w hp) rw vs)
              (fun _ s' => raw s' !! this = Some r2 /\
                 raw s' !! rhs = Some (mkRawMemory None 0) /\
                 world (mem s') = w /\
                 heap (mem s') = match buffer_ r1 with
                                 | Some blk => delete blk hp | None => hp end)
              (fun _ => False)).
    { eapply RawMemory_move_assign_spec; [done..| |].
      { destruct (buffer_ r1) as [blk|] eqn:Hb; [|by left].
        right. destruct (Hbuf blk eq_refl) as [buf Hblk]. eauto. }
      simpl. split_and!; try done; lk. }
    apply wpx_returns in Hwp as ([] & s' & Hrun & H). by exists s'.
  - unfold RawMemory_move_assign. by rewrite decide_False by auto.
Qed.
End More.

(** ** Instances of the properties *)

Lemma full_int_vector_rep : vec_rep full_int_vector 0 (Some 1) 1 [7%Z].
Proof. split; reflexivity || (simpl; lia). Defined.

Lemma full_poison_vector_rep : vec_rep full_poison_vector 0 (Some 1) 2 [1%Z; 13%Z].
Proof. split; reflexivity || (simpl; lia). Defined.

Lemma room_poison_vector_rep : vec_rep room_poison_vector 0 (Some 1) 2 [7%Z].
Proof. split; reflexivity || (simpl; lia). Defined.

Lemma three_poison_vectors_0 : vec_rep three_poison_vectors 0 (Some 1) 2 [7%Z].
Proof. split; reflexivity || (simpl; lia). Defined.

Lemma three_poison_vectors_1 : vec_rep three_poison_vectors 1 (Some 2) 2 [1%Z; 13%Z].
Proof. split; reflexivity || (simpl; lia). Defined.

Lemma three_poison_vectors_2 : vec_rep three_poison_vectors 2 (Some 3) 1 [9%Z].
Proof. split; reflexivity || (simpl; lia). Defined.

Lemma transfer_safe_poison : transfer_safe poison_env.
Proof. intros Hf. discriminate Hf. Defined.

Lemma two_int_vectors_unused_5 : unused two_int_vectors 5.
Proof. split; reflexivity. Defined.



Lemma Vector_copy_constructs_witness :
  exists s' b',
    Vector_copy int_env 5 1 two_int_vectors = Ret tt s' /\
    vec_rep s' 5 b' 2 [1%Z; 2%Z] /\
    vec_rep s' 1 (Some 2) 3 [1%Z; 2%Z] /\
    Size 5 s' = Ret 2 s' /\
    Capacity 5 s' = Ret 2 s' /\
    (forall blk, b' = Some blk -> heap (mem two_int_vectors) !! blk = None) /\
    ([1%Z; 2%Z] = [] -> b' = None).
Proof.
  exact (Vector_copy_constructs int_env two_int_vectors 5 1 (Some 2) 3 [1%Z; 2%Z]
           Regular_int_env two_int_vectors_1 two_int_vectors_unused_5).
Defined.

Lemma Vector_dtor_releases_witness :
  exists s',
    Vector_dtor int_env 1 two_int_vectors = Ret tt s' /\
    heap (mem s') = delete 2 (heap (mem two_int_vectors)) /\
    raw s' = delete 1 (raw two_int_vectors) /\
    vsize s' = delete 1 (vsize two_int_vectors).
Proof.
  exact (Vector_dtor_releases int_env two_int_vectors 1 (Some 2) 3 [1%Z; 2%Z]
           two_int_vectors_1).
Defined.

Lemma Vector_copy_dtor_roundtrip_witness :
  exists s',
    (Vector_copy int_env 5 1 ;; Vector_dtor int_env 5) two_int_vectors = Ret tt s' /\
    s' = with_world (world (mem s')) two_int_vectors.
Proof.
  exact (Vector_copy_dtor_roundtrip int_env two_int_vectors 5 1 (Some 2) 3 [1%Z; 2%Z]
           Regular_int_env two_int_vectors_1 two_int_vectors_unused_5).
Defined.


Lemma PopBack_drops_last_witness :
  exists s',
    PopBack int_env 1 two_int_vectors = Ret tt s' /\
    vec_rep s' 1 (Some 2) 3 [1%Z] /\
    Size 1 s' = Ret 1 s' /\
    Capacity 1 s' = Ret 3 s' /\
    raw s' = raw two_int_vectors.
Proof.
  exact (PopBack_drops_last int_env two_int_vectors 1 (Some 2) 3 [1%Z] 2%Z
           two_int_vectors_1).
Defined.

Lemma PopBack_Erase_out_of_range_witness :
  Erase int_env 1 (Some 2, 2) two_int_vectors = Undef.
Proof.
  exact (proj2 (PopBack_Erase_out_of_range int_env two_int_vectors 1 (Some 2) 3
                  [1%Z; 2%Z] two_int_vectors_1) 2 (le_n 2)).
Defined.

Lemma at_in_and_out_of_range_witness :
  at_ 1 1 two_int_vectors = Ret 2%Z two_int_vectors /\
  at_ 1 2 two_int_vectors = Undef.
Proof.
  pose proof (at_in_and_out_of_range two_int_vectors 1 (Some 2) 3 [1%Z; 2%Z]
                two_int_vectors_1) as [Hin Hout].
  split; [exact (Hin 1 2%Z eq_refl) | exact (Hout 2 (le_n 2))].
Defined.

Lemma PushBack_PopBack_roundtrip_witness :
  exists s1 s2 b' cap',
    PushBack int_env 0 (Lvalue 8%Z) full_int_vector = Ret tt s1 /\
    PopBack int_env 0 s1 = Ret tt s2 /\
    vec_rep s2 0 b' cap' [7%Z] /\
    Size 0 s2 = Ret 1 s2 /\
    1 <= cap' /\
    (1 < 1 -> b' = Some 1 /\ cap' = 1).
Proof.
  exact (PushBack_PopBack_roundtrip int_env full_int_vector 0 (Some 1) 1 [7%Z]
           (Lvalue 8%Z) Regular_int_env full_int_vector_rep ltac:(simpl; lia)).
Defined.

Lemma Emplace_room_ctor_throws_witness :
  Emplace poison_env 0 (Some 1, 0) (fun w => (w, None)) room_poison_vector
  = Throw room_poison_vector.
Proof.
  exact (Emplace_room_ctor_throws poison_env room_poison_vector 0 (Some 1) 2 [7%Z] 0
           (fun w => (w, None)) room_poison_vector_rep
           ltac:(simpl; lia) ltac:(simpl; lia) eq_refl).
Defined.

Lemma Insert_with_room_witness :
  exists s',
    Insert int_env 1 (Some 2, 1) (Lvalue 9%Z) two_int_vectors = Ret (Some 2, 1) s' /\
    vec_rep s' 1 (Some 2) 3 [1%Z; 9%Z; 2%Z] /\
    Size 1 s' = Ret 3 s' /\
    Capacity 1 s' = Ret 3 s' /\
    at_ 1 1 s' = Ret 9%Z s' /\
    raw s' = raw two_int_vectors.
Proof.
  exact (Insert_with_room int_env two_int_vectors 1 (Some 2) 3 [1%Z; 2%Z] 1 (Lvalue 9%Z)
           Regular_int_env two_int_vectors_1 ltac:(simpl; lia) ltac:(simpl; lia)).
Defined.

Lemma Insert_when_full_witness :
  exists s' b',
    Insert int_env 0 (Some 1, 0) (Lvalue 9%Z) two_int_vectors = Ret (Some b', 0) s' /\
    vec_rep s' 0 (Some b') 2 [9%Z; 7%Z] /\
    at_ 0 0 s' = Ret 9%Z s' /\
    heap (mem two_int_vectors) !! b' = None /\
    (forall a, Some 1 = Some a -> heap (mem s') !! a = None).
Proof.
  exact (Insert_when_full int_env two_int_vectors 0 (Some 1) [7%Z] 0 (Lvalue 9%Z)
           Regular_int_env two_int_vectors_0 ltac:(simpl; lia) ltac:(simpl; lia)).
Defined.

Lemma EmplaceBack_returns_new_element_witness :
  exists p s' b' cap',
    EmplaceBack int_env 1 (fun w => (w, Some 9%Z)) two_int_vectors = Ret p s' /\
    vec_rep s' 1 b' cap' [1%Z; 2%Z; 9%Z] /\
    p = (b', 2) /\
    read p (mem s') = Ret 9%Z (mem s') /\
    at_ 1 2 s' = Ret 9%Z s'.
Proof.
  exact (EmplaceBack_returns_new_element int_env two_int_vectors 1 (Some 2) 3 [1%Z; 2%Z]
           (fun w => (w, Some 9%Z)) 9%Z
           Regular_int_env two_int_vectors_1 ltac:(simpl; lia) (fun _ => eq_refl)).
Defined.

Lemma Reserve_throw_rolls_back_witness :
  exists s',
    Reserve poison_env 0 5 full_poison_vector = Throw s' /\
    s' = with_world (world (mem s')) full_poison_vector /\
    vec_rep s' 0 (Some 1) 2 [1%Z; 13%Z].
Proof.
  destruct (Reserve poison_env 0 5 full_poison_vector) as [[] s'|s'|] eqn:Hrun;
    [vm_compute in Hrun; discriminate | | vm_compute in Hrun; discriminate].
  exists s'.
  exact (conj eq_refl
    (Reserve_throw_rolls_back poison_env full_poison_vector 0 (Some 1) 2 [1%Z; 13%Z] 5 s'
       full_poison_vector_rep transfer_safe_poison Hrun)).
Defined.


Lemma PushBack_sequence_reads_back_witness :
  exists s' cap,
    (Vector_default 0 ;;
     PushBack_all int_env 0 [Lvalue 1%Z; Rvalue 2%Z; Lvalue 3%Z]) (empty_state tt)
    = Ret tt s' /\
    Size 0 s' = Ret 3 s' /\
    (forall i v, [Lvalue 1%Z; Rvalue 2%Z; Lvalue 3%Z] !! i = Some v ->
                 at_ 0 i s' = Ret (forwarded_value v) s') /\
    Capacity 0 s' = Ret cap s' /\
    doubling_capacity 3 cap.
Proof.
  exact (PushBack_sequence_reads_back int_env (empty_state tt) 0
           [Lvalue 1%Z; Rvalue 2%Z; Lvalue 3%Z] Regular_int_env ltac:(simpl; lia)).
Defined.

Lemma copy_assign_grow_throw_rolls_back_witness :
  exists s',
    Vector_copy_assign poison_env 2 1 three_poison_vectors = Throw s' /\
    s' = with_world (world (mem s')) three_poison_vectors /\
    vec_rep s' 2 (Some 3) 1 [9%Z] /\ vec_rep s' 1 (Some 2) 2 [1%Z; 13%Z].
Proof.
  destruct (Vector_copy_assign poison_env 2 1 three_poison_vectors) as [[] s'|s'|] eqn:Hrun;
    [vm_compute in Hrun; discriminate | | vm_compute in Hrun; discriminate].
  exists s'.
  exact (conj eq_refl
    (copy_assign_grow_throw_rolls_back poison_env three_poison_vectors 2 1
       (Some 3) 1 [9%Z] (Some 2) 2 [1%Z; 13%Z] s'
       three_poison_vectors_2 three_poison_vectors_1 ltac:(simpl; lia) Hrun)).
Defined.

Lemma move_assign_skips_destructors_witness :
  exists s',
    Vector_move_assign 0 1 three_poison_vectors = Ret tt s' /\
    world (mem s') = 4%Z /\
    heap (mem s') = delete 1 (heap (mem three_poison_vectors)).
Proof.
  exact (move_assign_skips_destructors three_poison_vectors 0 1 (Some 2) 2 [1%Z; 13%Z]
           (Some 1) 2 [7%Z] ltac:(lia) three_poison_vectors_0 three_poison_vectors_1).
Defined.


Lemma RawMemory_move_empties_source_witness :
  (exists s',
     RawMemory_move_ctor 5 1 two_int_vectors = Ret tt s' /\
     raw s' !! 5 = Some (mkRawMemory (Some 2) 3) /\
     raw s' !! 1 = Some (mkRawMemory None 0) /\
     mem s' = mem two_int_vectors) /\
  RawMemory_move_assign 1 1 two_int_vectors = Ret tt two_int_vectors.
Proof.
  pose proof (RawMemory_move_empties_source two_int_vectors 5 1 (mkRawMemory (Some 2) 3)
                eq_refl) as (Hctor & _ & Hself).
  split; [exact (Hctor eq_refl)|exact Hself].
Defined.

Lemma Insert_Erase_roundtrip_small_witness :
  exists p s1 s2 b' cap',
    Insert int_env 1 (Some 2, 1) (Lvalue 9%Z) two_int_vectors = Ret p s1 /\
    Erase int_env 1 p s1 = Ret p s2 /\
    vec_rep s2 1 b' cap' [1%Z; 2%Z] /\
    Size 1 s2 = Ret 2 s2.
Proof.
  exact (Insert_Erase_roundtrip_small int_env two_int_vectors 1 (Some 2) 3 [1%Z; 2%Z] 1
           (Lvalue 9%Z) Regular_int_env two_int_vectors_1
           ltac:(simpl; lia) ltac:(simpl; lia)).
Defined.

Lemma move_assign_self_witness :
  Vector_move_assign 1 1 two_int_vectors = Ret tt two_int_vectors.
Proof.
  exact (move_assign_self two_int_vectors 1 (Some 2) 3 [1%Z; 2%Z] two_int_vectors_1).
Defined.

Lemma copy_assign_in_place_size_last_witness :
  exists s',
    Vector_copy_assign poison_env 0 1 three_poison_vectors = Throw s' /\
    raw s' = raw three_poison_vectors /\ vsize s' = vsize three_poison_vectors.
Proof.
  destruct (Vector_copy_assign poison_env 0 1 three_poison_vectors) as [[] s'|s'|] eqn:Hrun;
    [vm_compute in Hrun; discriminate | | vm_compute in Hrun; discriminate].
  exists s'.
  exact (conj eq_refl
    (copy_assign_in_place_size_last poison_env three_poison_vectors 0 1
       (Some 1) 2 [7%Z] (Some 2) 2 [1%Z; 13%Z] s'
       ltac:(lia) three_poison_vectors_0 three_poison_vectors_1 ltac:(simpl; lia) Hrun)).
Defined.
